(** * Persona retention dashboard: the data pipeline

    A shallow embedding of the pipeline of
    [src/persona-dashboard/src/PersonaRetentionDashboard.jsx]
    (CSV parsing, normalisation to user-month records, keyword
    classification, retention resolution, month x persona aggregation
    and month-over-month deltas), and the properties of it that the
    specification states.

    Conventions of the embedding.
    - A JavaScript string is the list of its UTF-16 code units ([jstr]).
    - [undefined] is [None]; a value that is either a string or
      [undefined] is an [option jstr].
    - A plain object used as a record of columns is an association list
      in insertion order ([JsObj]); [Object_keys] applies the ECMAScript
      property order (array indices first, ascending).
    - A [Map] keyed by strings is an association list in insertion order,
      a [Set] of strings a duplicate-free list in insertion order.
    - [Array.prototype.sort] is stable; it is modelled by a stable
      insertion sort driven by the comparator of the call.
    - [String.prototype.localeCompare] and [new Date(s)] depend on the
      host (ICU collation, date parsing, time zone): both are parameters.
    - [toLowerCase] maps the ASCII letters only; case mapping of other
      code units is not modelled.
    - Numbers that the code treats as integers are [Z]; [retention]
      ([retained / users]) is the exact quotient in [Q]. *)

From Stdlib Require Import List ZArith Lia Bool String Ascii.
From Stdlib Require Import QArith Permutation Sorted.
Import ListNotations.
Open Scope Z_scope.

(* ------------------------------------------------------------------ *)
(** ** JavaScript strings *)

Module Js.

Definition jstr := list Z.

(** A string literal of ASCII characters as code units. *)
Definition lit (s : string) : jstr :=
  map (fun a => Z.of_N (N_of_ascii a)) (list_ascii_of_string s).

Definition DQUOTE : Z := 34.
Definition LF : Z := 10.
Definition CR : Z := 13.
Definition TAB : Z := 9.
Definition BOM : Z := 65279.

Fixpoint eqb (a b : jstr) : bool :=
  match a, b with
  | [], [] => true
  | x :: a', y :: b' => (x =? y) && eqb a' b'
  | _, _ => false
  end.

(** Truthiness of a string: non-empty. *)
Definition truthy (s : jstr) : bool :=
  match s with [] => false | _ => true end.

(** [a || b] on values that are strings or [undefined]. *)
Definition or_else (a : option jstr) (b : option jstr) : option jstr :=
  match a with
  | Some s => if truthy s then a else b
  | None => b
  end.

(** [(v || "")] followed by [String(...)] / [.toString()]. *)
Definition or_empty (a : option jstr) : jstr :=
  match a with
  | Some s => s
  | None => []
  end.

(** WhiteSpace and LineTerminator code units, as [String.prototype.trim]
    strips them. *)
Definition is_space (c : Z) : bool :=
  (c =? 9) || (c =? 10) || (c =? 11) || (c =? 12) || (c =? 13) ||
  (c =? 32) || (c =? 160) || (c =? 5760) ||
  ((8192 <=? c) && (c <=? 8202)) ||
  (c =? 8232) || (c =? 8233) || (c =? 8239) || (c =? 8287) ||
  (c =? 12288) || (c =? 65279).

Fixpoint dropWhile {A} (f : A -> bool) (l : list A) : list A :=
  match l with
  | [] => []
  | x :: l' => if f x then dropWhile f l' else l
  end.

Definition trimStart (s : jstr) : jstr := dropWhile is_space s.
Definition trimEnd (s : jstr) : jstr := rev (dropWhile is_space (rev s)).
Definition trim (s : jstr) : jstr := trimEnd (trimStart s).

Definition lower_unit (c : Z) : Z :=
  if (65 <=? c) && (c <=? 90) then c + 32 else c.

Definition toLowerCase (s : jstr) : jstr := map lower_unit s.

Fixpoint startsWith (s k : jstr) : bool :=
  match k, s with
  | [], _ => true
  | y :: k', x :: s' => (x =? y) && startsWith s' k'
  | _ :: _, [] => false
  end.

(** [s.includes(k)]: [k] occurs at some position of [s]. *)
Fixpoint includes (s k : jstr) : bool :=
  startsWith s k ||
  match s with
  | [] => false
  | _ :: s' => includes s' k
  end.

(** [s.split(sep)] for a separator of one code unit. *)
Fixpoint split_on (sep : Z) (s : jstr) : list jstr :=
  match s with
  | [] => [[]]
  | c :: s' =>
      if c =? sep then [] :: split_on sep s'
      else match split_on sep s' with
           | [] => [[c]]
           | p :: ps => (c :: p) :: ps
           end
  end.

(** [s.replace(/^\uFEFF/, "")]: a leading byte-order mark is dropped. *)
Definition strip_bom (s : jstr) : jstr :=
  match s with
  | c :: s' => if c =? BOM then s' else s
  | [] => []
  end.

(** [(s.match(/c/g) || []).length]. *)
Definition count_unit (c : Z) (s : jstr) : Z :=
  Z.of_nat (List.length (filter (fun x => x =? c) s)).

(** [arr.join(sep)]. *)
Fixpoint join (sep : jstr) (l : list jstr) : jstr :=
  match l with
  | [] => []
  | [x] => x
  | x :: l' => x ++ sep ++ join sep l'
  end.

(** [arr.includes(x)] on an array of strings. *)
Definition mem (x : jstr) (l : list jstr) : bool := existsb (eqb x) l.

(** [Array.prototype.sort(cmp)]: stable, so for a comparator that is a
    total preorder the result is the one of any stable sort. [cmp a b]
    is the sign the comparator returns. *)
Section Sort.
Context {A : Type} (cmp : A -> A -> Z).

Fixpoint insert (x : A) (l : list A) : list A :=
  match l with
  | [] => [x]
  | y :: l' => if cmp x y <=? 0 then x :: l else y :: insert x l'
  end.

Fixpoint sort (l : list A) : list A :=
  match l with
  | [] => []
  | x :: l' => insert x (sort l')
  end.

End Sort.

(** [String(n)] for an integer: decimal digits, with a minus sign. *)
Fixpoint digits_of_pos (fuel : nat) (n : Z) (acc : jstr) : jstr :=
  match fuel with
  | O => acc
  | S fuel' =>
      if n <? 10 then (48 + n) :: acc
      else digits_of_pos fuel' (n / 10) ((48 + n mod 10) :: acc)
  end.

Definition of_int (n : Z) : jstr :=
  if n <? 0 then 45 :: digits_of_pos (S (Z.to_nat (Z.log2 (- n)))) (- n) []
  else digits_of_pos (S (Z.to_nat (Z.log2 n))) n [].

(** [s.padStart(2, "0")]. *)
Definition padStart2 (s : jstr) : jstr :=
  match s with
  | [] => [48; 48]
  | [c] => [48; c]
  | _ => s
  end.

Definition is_digit (c : Z) : bool := (48 <=? c) && (c <=? 57).

(** [parseInt(s, 10)]: leading white space is skipped, a sign is read,
    then the longest run of decimal digits; [None] is [NaN]. *)
Fixpoint digits_value (s : jstr) (acc : Z) : Z :=
  match s with
  | c :: s' => if is_digit c then digits_value s' (10 * acc + (c - 48)) else acc
  | [] => acc
  end.

Definition parse_digits (s : jstr) : option Z :=
  match s with
  | c :: _ => if is_digit c then Some (digits_value s 0) else None
  | [] => None
  end.

Definition parseInt10 (s : jstr) : option Z :=
  match trimStart s with
  | c :: s' =>
      if c =? 45 then option_map Z.opp (parse_digits s')
      else if c =? 43 then parse_digits s'
      else parse_digits (c :: s')
  | [] => None
  end.

(** A [Map] with string keys: entries in insertion order; [set] on a
    key that is present replaces the value in place. *)
Definition JsMap (V : Type) := list (jstr * V).

Fixpoint map_get {V} (m : JsMap V) (k : jstr) : option V :=
  match m with
  | [] => None
  | (k', v) :: m' => if eqb k k' then Some v else map_get m' k
  end.

Definition map_has {V} (m : JsMap V) (k : jstr) : bool :=
  match map_get m k with Some _ => true | None => false end.

Fixpoint map_set {V} (m : JsMap V) (k : jstr) (v : V) : JsMap V :=
  match m with
  | [] => [(k, v)]
  | (k', v') :: m' =>
      if eqb k k' then (k', v) :: m' else (k', v') :: map_set m' k v
  end.

Definition map_values {V} (m : JsMap V) : list V := map snd m.

(** A [Set] of strings: its elements in insertion order. *)
Definition set_add (x : jstr) (s : list jstr) : list jstr :=
  if mem x s then s else s ++ [x].

Definition set_size (s : list jstr) : Z := Z.of_nat (List.length s).

End Js.

Abbreviation jstr := Js.jstr.

(* ------------------------------------------------------------------ *)
(** ** CSV parser *)

Definition detectDelimiter (firstLine : jstr) : jstr :=
  let line := Js.strip_bom firstLine in
  let commas := Js.count_unit 44 line in
  let semis := Js.count_unit 59 line in
  let tabs := Js.count_unit Js.TAB line in
  if (semis >? commas) && (semis >=? tabs) then [59]
  else if (tabs >? commas) && (tabs >? semis) then [Js.TAB]
  else [44].

(** [raw.split(/\r?\n/)[0]]: the text before the first line break. *)
Fixpoint first_line (raw : jstr) : jstr :=
  match raw with
  | [] => []
  | c :: rest =>
      if c =? Js.LF then []
      else if c =? Js.CR then
        match rest with
        | c' :: _ => if c' =? Js.LF then [] else c :: first_line rest
        | [] => c :: first_line rest
        end
      else c :: first_line rest
  end.

(** The mutable variables of the scanning loop of [parseCSV]. *)
Record Scan := mkScan {
  rows : list (list jstr);
  row : list jstr;
  field : jstr;
  inQuotes : bool
}.

Definition addUnit (c : Z) (st : Scan) : Scan :=
  mkScan (rows st) (row st) (field st ++ [c]) (inQuotes st).

Definition setQuotes (b : bool) (st : Scan) : Scan :=
  mkScan (rows st) (row st) (field st) b.

Definition pushField (st : Scan) : Scan :=
  mkScan (rows st) (row st ++ [field st]) [] (inQuotes st).

Definition pushRow (st : Scan) : Scan :=
  mkScan (rows st ++ [row st]) [] (field st) (inQuotes st).

(** The [while (i < raw.length)] loop; the argument is [raw] from
    index [i] on. *)
Fixpoint scan (DELIM : jstr) (raw : jstr) (st : Scan) : Scan :=
  match raw with
  | [] => st
  | c :: rest =>
      if inQuotes st then
        if c =? Js.DQUOTE then
          match rest with
          | c' :: rest' =>
              if c' =? Js.DQUOTE then scan DELIM rest' (addUnit Js.DQUOTE st)
              else scan DELIM rest (setQuotes false st)
          | [] => scan DELIM rest (setQuotes false st)
          end
        else scan DELIM rest (addUnit c st)
      else if c =? Js.DQUOTE then scan DELIM rest (setQuotes true st)
      else if Js.eqb [c] DELIM then scan DELIM rest (pushField st)
      else if c =? Js.LF then scan DELIM rest (pushRow (pushField st))
      else if c =? Js.CR then scan DELIM rest st
      else scan DELIM rest (addUnit c st)
  end.

(** The rows of fields that [parseCSV] holds in [rows] after the loop
    and the final [pushField] / [pushRow]. *)
Definition tokenize (DELIM : jstr) (raw : jstr) : list (list jstr) :=
  let st := pushField (scan DELIM raw (mkScan [] [] [] false)) in
  match row st with
  | [f] => if Js.truthy f then rows (pushRow st) else rows st
  | _ => rows (pushRow st)
  end.

(** *** Row objects *)

(** A row object: its own properties in insertion order; [None] is a
    property holding [undefined]. *)
Definition JsObj := list (jstr * option jstr).

Definition PROTO : jstr := Js.lit "__proto__".

Fixpoint obj_update (k : jstr) (v : option jstr) (o : JsObj) : JsObj :=
  match o with
  | [] => [(k, v)]
  | (k', v') :: o' =>
      if Js.eqb k k' then (k', v) :: o' else (k', v') :: obj_update k v o'
  end.

(** [obj[k] = v] for a string or [undefined] [v]: assignment to
    [__proto__] runs the inherited setter, which ignores such a value. *)
Definition obj_set (k : jstr) (v : option jstr) (o : JsObj) : JsObj :=
  if Js.eqb k PROTO then o else obj_update k v o.

(** [obj[k]] for a column name [k]: the own property, else [undefined]
    (the columns read by the pipeline are not names of
    [Object.prototype]). *)
Fixpoint obj_get (o : JsObj) (k : jstr) : option jstr :=
  match o with
  | [] => None
  | (k', v) :: o' => if Js.eqb k k' then v else obj_get o' k
  end.

(** A canonical array index: a decimal numeral without leading zero,
    below [2^32 - 1]. *)
Definition array_index (k : jstr) : option Z :=
  match k with
  | [] => None
  | c :: k' =>
      if forallb Js.is_digit k
         && negb ((c =? 48) && Js.truthy k')
         && (Z.of_nat (List.length k) <=? 10)
         && (Js.digits_value k 0 <? 4294967295)
      then Some (Js.digits_value k 0)
      else None
  end.

Definition index_props (o : JsObj) : list (Z * (jstr * option jstr)) :=
  flat_map (fun kv => match array_index (fst kv) with
                      | Some n => [(n, kv)]
                      | None => []
                      end) o.

Definition name_props (o : JsObj) : JsObj :=
  filter (fun kv => match array_index (fst kv) with
                    | Some _ => false
                    | None => true
                    end) o.

(** Own properties in the order of [Object.keys] / [Object.values]. *)
Definition obj_entries (o : JsObj) : JsObj :=
  map snd (Js.sort (fun a b => fst a - fst b) (index_props o)) ++ name_props o.

Definition Object_keys (o : JsObj) : list jstr := map fst (obj_entries o).
Definition Object_values (o : JsObj) : list (option jstr) :=
  map snd (obj_entries o).

(** [for (c = 0; c < header.length; c++) obj[header[c]] = rows[r][c]]. *)
Fixpoint fill_obj (header : list jstr) (cells : list jstr) (o : JsObj) : JsObj :=
  match header with
  | [] => o
  | h :: header' =>
      fill_obj header' (tl cells) (obj_set h (hd_error cells) o)
  end.

Definition nonEmpty (o : JsObj) : bool :=
  existsb (fun v => Js.truthy (Js.trim (Js.or_empty v))) (Object_values o).

(** The part of [parseCSV] after the scan: the first row is the header,
    the other rows become objects, blank ones are dropped. *)
Definition objects_of (rows : list (list jstr)) : list JsObj :=
  let header := map Js.trim (hd [] rows) in
  if (match header with [] => true | _ => false end)
     || forallb (fun h => negb (Js.truthy h)) header
  then []
  else
    filter nonEmpty (map (fun cells => fill_obj header cells []) (tl rows)).

Definition parseCSV (text : jstr) : list JsObj :=
  let raw := Js.strip_bom text in
  let firstLine := first_line raw in
  let DELIM := detectDelimiter firstLine in
  objects_of (tokenize DELIM raw).

(** *** CSV export quoting

    [esc] of [downloadCSV]: a value holding a quote, a comma or a line
    break is wrapped in quotes, each of its quotes doubled. *)

(** [s.replaceAll(q, q + q)] for the quote character [q]. *)
Definition double_quotes (s : jstr) : jstr :=
  flat_map (fun c => if c =? Js.DQUOTE then [Js.DQUOTE; Js.DQUOTE] else [c]) s.

Definition quote_field (s : jstr) : jstr :=
  [Js.DQUOTE] ++ double_quotes s ++ [Js.DQUOTE].

Definition esc (s : jstr) : jstr :=
  if existsb (fun c => (c =? Js.DQUOTE) || (c =? 44) || (c =? Js.LF) || (c =? Js.CR)) s
  then quote_field s
  else s.

(* ------------------------------------------------------------------ *)
(** ** Schema normaliser *)

Definition EXACT_HEADER : jstr :=
  Js.lit "Beschrijf je suggestie hieronder zo duidelijk mogelijk. Heb j... voordeel kan zijn voor je medegebruikers? Laat dit dan weten.".

(** [v && String(v).trim() !== ""]. *)
Definition filled (v : option jstr) : bool :=
  match v with
  | Some s => Js.truthy s && Js.truthy (Js.trim s)
  | None => false
  end.

(** The [for (const k of Object.keys(obj))] loop of [pickSuggestionText];
    [None] when it falls through. *)
Fixpoint scan_columns (obj : JsObj) (keys : list jstr) : option (option jstr) :=
  match keys with
  | [] => None
  | k :: keys' =>
      let lk := Js.toLowerCase k in
      if (Js.includes lk (Js.lit "beschrijf") || Js.includes lk (Js.lit "suggestie"))
         && filled (obj_get obj k)
      then Some (obj_get obj k)
      else scan_columns obj keys'
  end.

Definition pickSuggestionText (obj : JsObj) : option jstr :=
  let exact := obj_get obj EXACT_HEADER in
  if filled exact then exact
  else
    match scan_columns obj (Object_keys obj) with
    | Some v => v
    | None =>
        let keys := Object_keys obj in
        match keys with
        | _ :: k1 :: _ => obj_get obj k1
        | _ =>
            Some (Js.or_empty
                    (Js.or_else (obj_get obj (Js.lit "text"))
                       (Js.or_else (obj_get obj (Js.lit "message"))
                          (obj_get obj (Js.lit "body")))))
        end
    end.

(** [/^\d{4}-\d{2}/] at the head of [t]: the seven matched units. *)
Definition month_prefix (t : jstr) : option jstr :=
  match t with
  | a :: b :: c :: d :: h :: e :: f :: _ =>
      if forallb Js.is_digit [a; b; c; d; e; f] && (h =? 45)
      then Some [a; b; c; d; h; e; f]
      else None
  | _ => None
  end.

(** [t.match(/(\d{4})-(\d{2})/)]: the leftmost match. *)
Fixpoint month_match (t : jstr) : option jstr :=
  match month_prefix t with
  | Some m => Some m
  | None =>
      match t with
      | [] => None
      | _ :: t' => month_match t'
      end
  end.

Section Pipeline.

#[local] Set Default Proof Using "Type".

(** [new Date(t)]: [None] when [getTime()] is [NaN], else
    [(getFullYear(), getMonth())]. *)
Variable dateParse : jstr -> option (Z * Z).

(** [a.localeCompare(b)]. *)
Variable localeCompare : jstr -> jstr -> Z.

Definition monthFromDateString (s : option jstr) : jstr :=
  let t := Js.trim (Js.or_empty s) in
  if negb (Js.truthy t) then []
  else if match month_prefix t with
          | Some m => Js.eqb m t
          | None => false
          end then t
  else
    match month_match t with
    | Some m => m
    | None =>
        match dateParse t with
        | None => []
        | Some (yyyy, mon) =>
            Js.of_int yyyy ++ [45] ++ Js.padStart2 (Js.of_int (mon + 1))
        end
    end.

(** A row after the [map]/[filter] of [userMonthRows], and a merged
    user-month record: both are [{ user_id, month, text,
    active_next_month }]. *)
Record UserMonth := mkUserMonth {
  user_id : jstr;
  month : jstr;
  text : jstr;
  active_next_month : jstr
}.

Definition normalize_row (hasMonth : bool) (r : JsObj) : option UserMonth :=
  let get := obj_get r in
  let user_id :=
    Js.trim (Js.or_empty
      (Js.or_else (get (Js.lit "user_id"))
        (Js.or_else (get (Js.lit "userid"))
          (Js.or_else (get (Js.lit "user"))
            (Js.or_else (get (Js.lit "Network ID"))
              (Js.or_else (get (Js.lit "network_id")) (Some [])))))))
  in
  let text := Js.or_empty (pickSuggestionText r) in
  let month :=
    if hasMonth then monthFromDateString (get (Js.lit "month"))
    else monthFromDateString
           (Js.or_else (get (Js.lit "created_at")) (get (Js.lit "Start Date (UTC)")))
  in
  let active_next_month := Js.trim (Js.or_empty (get (Js.lit "active_next_month"))) in
  if negb (Js.truthy user_id) || negb (Js.truthy month) then None
  else Some (mkUserMonth user_id month text active_next_month).

(** The rows of [userMonthRows] before they are merged. *)
Definition normalized_rows (rawRows : list JsObj) : list UserMonth :=
  match rawRows with
  | [] => []
  | first :: _ =>
      let cols := Object_keys first in
      let hasMonth := Js.mem (Js.lit "month") cols in
      flat_map (fun r => match normalize_row hasMonth r with
                         | Some x => [x]
                         | None => []
                         end) rawRows
  end.

Definition SEP : jstr := Js.lit "__".

(** [`${user_id}__${month}`]. *)
Definition um_key (uid mon : jstr) : jstr := uid ++ SEP ++ mon.

(** [(cur.text ? cur.text + "\n" : "") + r.text]. *)
Definition append_text (acc t : jstr) : jstr :=
  (if Js.truthy acc then acc ++ [Js.LF] else []) ++ t.

(** The record [cur] after the loop body has run for the row [r]. *)
Definition absorb (cur r : UserMonth) : UserMonth :=
  mkUserMonth (user_id cur) (month cur)
    (append_text (text cur) (text r))
    (if negb (Js.eqb (active_next_month r) []) then active_next_month r
     else active_next_month cur).

(** The record that [map.set] stores for a key that is not yet there. *)
Definition fresh (r : UserMonth) : UserMonth :=
  mkUserMonth (user_id r) (month r) [] (active_next_month r).

(** One iteration of the merging loop over [rows]. *)
Definition merge_row (m : Js.JsMap UserMonth) (r : UserMonth) : Js.JsMap UserMonth :=
  let key := um_key (user_id r) (month r) in
  let m1 := if Js.map_has m key then m else Js.map_set m key (fresh r) in
  match Js.map_get m1 key with
  | None => m1
  | Some cur => Js.map_set m1 key (absorb cur r)
  end.

Definition merged (rows : list UserMonth) : Js.JsMap UserMonth :=
  fold_left merge_row rows [].

Definition um_compare (a b : UserMonth) : Z :=
  if Js.eqb (month a) (month b) then localeCompare (user_id a) (user_id b)
  else localeCompare (month a) (month b).

(** [userMonthRows], from the normalised rows. *)
Definition userMonthRows (rows : list UserMonth) : list UserMonth :=
  Js.sort um_compare (Js.map_values (merged rows)).

(** The presence index: a [Map] whose keys are the user-month keys. *)
Definition presence (umr : list UserMonth) : Js.JsMap bool :=
  fold_left (fun m r => Js.map_set m (um_key (user_id r) (month r)) true) umr [].

(* ------------------------------------------------------------------ *)
(** ** Persona classifier *)

Record Persona := mkPersona {
  key : jstr;
  label : jstr;
  priority : Z
}.

Definition TRUST_EROSION : jstr := Js.lit "trust_erosion".
Definition EMOTIONAL : jstr := Js.lit "emotional".
Definition ESCALATION : jstr := Js.lit "escalation".
Definition RELIABILITY : jstr := Js.lit "reliability".
Definition OVERLOAD : jstr := Js.lit "overload".
Definition VETERAN : jstr := Js.lit "veteran".
Definition SUGGESTION : jstr := Js.lit "suggestion".

Definition PERSONAS : list Persona :=
  [ mkPersona TRUST_EROSION (Js.lit "Trust erosion") 1;
    mkPersona EMOTIONAL (Js.lit "Breaking point") 2;
    mkPersona ESCALATION (Js.lit "Escalation & fatigue") 3;
    mkPersona RELIABILITY (Js.lit "Reliability & predictability") 4;
    mkPersona OVERLOAD (Js.lit "Cognitive overload") 5;
    mkPersona VETERAN (Js.lit "Veteran & habit") 6;
    mkPersona SUGGESTION (Js.lit "Suggestion-stage") 7 ].

(** The keyword dictionary: an object from persona key to keyword list. *)
Definition Keywords := Js.JsMap (list jstr).

Definition DEFAULT_KEYWORDS : Keywords :=
  [ (TRUST_EROSION,
     map Js.lit
       [ "vertrouwen"; "betrouwbaar"; "onbetrouwbaar"; "ik reken hierop";
         "ik durf niet"; "kan hier niet op vertrouwen"; "onzeker";
         "voelt niet veilig"; "niet veilig" ]%string);
    (VETERAN,
     map Js.lit
       [ "al jaren"; "dagelijks"; "elke rit"; "altijd gebruikt";
         "sinds het begin"; "onderdeel van mijn routine";
         "ik ben afhankelijk"; "afhankelijk"; "routine" ]%string);
    (RELIABILITY,
     map Js.lit
       [ "onvoorspelbaar"; "inconsistent"; "werkt soms"; "soms wel";
         "soms niet"; "wisselend"; "niet consequent"; "foutmeldingen";
         "valt uit"; "crash"; "loopt vast" ]%string);
    (ESCALATION,
     map Js.lit
       [ "weer"; "opnieuw"; "al vaker gemeld"; "niet de eerste keer";
         "al meerdere keren"; "nog steeds"; "al eens"; "al gemeld" ]%string);
    (OVERLOAD,
     map Js.lit
       [ "ik snap niet waarom"; "onduidelijk"; "logica ontbreekt";
         "waarom doet hij dit"; "niet uit te leggen"; "tegenstrijdig";
         "klopt niet" ]%string);
    (EMOTIONAL,
     map Js.lit
       [ "frustrerend"; "klaar mee"; "irritant"; "teleurgesteld";
         "dit werkt zo niet"; "zo wordt het lastig"; "word ik gek van" ]%string);
    (SUGGESTION,
     map Js.lit
       [ "zou handig zijn"; "misschien kunnen jullie"; "ik mis";
         "ik vraag me af waarom"; "zou fijn zijn"; "kunnen jullie";
         "idee:" ]%string) ].

(** [(s || "").toString().toLowerCase()] for a string [s]. *)
Definition norm (s : jstr) : jstr := Js.toLowerCase s.

(** [keywords[k] || []]. *)
Definition kw_list (keywords : Keywords) (k : jstr) : list jstr :=
  match Js.map_get keywords k with
  | Some l => l
  | None => []
  end.

(** [list.some((kw) => t.includes(norm(kw)))]. *)
Definition some_keyword (t : jstr) (list : list jstr) : bool :=
  existsb (fun kw => Js.includes t (norm kw)) list.

(** [flags[k]] as a condition. *)
Definition flag (flags : Js.JsMap bool) (k : jstr) : bool :=
  match Js.map_get flags k with
  | Some b => b
  | None => false
  end.

Fixpoint first_flagged (flags : Js.JsMap bool) (sorted : list Persona) : option jstr :=
  match sorted with
  | [] => None
  | p :: sorted' =>
      if flag flags (key p) then Some (key p) else first_flagged flags sorted'
  end.

Definition compute_flags (t : jstr) (keywords : Keywords) : Js.JsMap bool :=
  fold_left
    (fun flags p => Js.map_set flags (key p) (some_keyword t (kw_list keywords (key p))))
    PERSONAS [].

(** Returns [(persona, flags)]; [None] is [null]. *)
Definition classifyDominantPersona (text : jstr) (keywords : Keywords)
  : option jstr * Js.JsMap bool :=
  let t := norm text in
  let flags := compute_flags t keywords in
  let any := existsb (fun b : bool => b) (Js.map_values flags) in
  if negb any then (None, flags)
  else
    let sorted := Js.sort (fun a b => priority a - priority b) PERSONAS in
    (first_flagged flags sorted, flags).

(** The keyword editor: [value.split(",").map(trim).filter(Boolean)]. *)
Definition edited_keywords (value : jstr) : list jstr :=
  filter Js.truthy (map Js.trim (Js.split_on 44 value)).

(* ------------------------------------------------------------------ *)
(** ** Retention resolver *)

(** [!n] for the result of [parseInt], or [undefined] for a missing
    array element. *)
Definition nan_or_zero (n : option Z) : bool :=
  match n with
  | Some v => v =? 0
  | None => true
  end.

Definition nextMonth (yyyyMm : jstr) : jstr :=
  let parts := map Js.parseInt10 (Js.split_on 45 yyyyMm) in
  let y := nth 0 parts None in
  let m := nth 1 parts None in
  match y, m with
  | Some y, Some m =>
      if (y =? 0) || (m =? 0) then []
      else
        let ny := if m =? 12 then y + 1 else y in
        let nm := if m =? 12 then 1 else m + 1 in
        Js.of_int ny ++ [45] ++ Js.padStart2 (Js.of_int nm)
  | _, _ => []
  end.

(** A classified record: [{ ...r, dominant_persona, flags,
    active_next_month }], the last now a boolean. *)
Record Classified := mkClassified {
  c_user_id : jstr;
  c_month : jstr;
  c_text : jstr;
  dominant_persona : option jstr;
  flags : Js.JsMap bool;
  c_active_next_month : bool
}.

Definition TRUE_WORDS : list jstr :=
  [Js.lit "1"; Js.lit "true"; Js.lit "yes"; Js.lit "y"].

Definition resolve_active (pres : Js.JsMap bool) (r : UserMonth) : bool :=
  if negb (Js.eqb (active_next_month r) []) then
    Js.mem (norm (active_next_month r)) TRUE_WORDS
  else
    let nm := nextMonth (month r) in
    Js.map_has pres (um_key (user_id r) nm).

Definition classify_row (keywords : Keywords) (pres : Js.JsMap bool) (r : UserMonth)
  : Classified :=
  let '(persona, flags) := classifyDominantPersona (text r) keywords in
  mkClassified (user_id r) (month r) (text r) persona flags (resolve_active pres r).

Definition classified (keywords : Keywords) (umr : list UserMonth) : list Classified :=
  map (classify_row keywords (presence umr)) umr.

(* ------------------------------------------------------------------ *)
(** ** Aggregator *)

(** [dominanceMode]: ["dominant"] or anything else (the UI offers
    ["multi"]). *)
Inductive Mode := Dominant | Multi.

Record Bucket := mkBucket {
  b_month : jstr;
  b_persona : jstr;
  users : list jstr;
  retainedUsers : list jstr;
  churnedUsers : list jstr
}.

Definition keyFor (month persona : jstr) : jstr := month ++ SEP ++ persona.

Definition ensure (agg : Js.JsMap Bucket) (month persona : jstr) : Js.JsMap Bucket :=
  let k := keyFor month persona in
  if Js.map_has agg k then agg
  else Js.map_set agg k (mkBucket month persona [] [] []).

Definition personasToCount (mode : Mode) (r : Classified) : list jstr :=
  match mode with
  | Dominant =>
      match dominant_persona r with
      | Some d => if Js.truthy d then [d] else []
      | None => []
      end
  | Multi => filter (fun k => flag (flags r) k) (map key PERSONAS)
  end.

(** The body of [for (const p of personasToCount)]. *)
Definition count_for (r : Classified) (agg : Js.JsMap Bucket) (p : jstr)
  : Js.JsMap Bucket :=
  let agg1 := ensure agg (c_month r) p in
  let k := keyFor (c_month r) p in
  match Js.map_get agg1 k with
  | None => agg1
  | Some a =>
      Js.map_set agg1 k
        (mkBucket (b_month a) (b_persona a)
           (Js.set_add (c_user_id r) (users a))
           (if c_active_next_month r
            then Js.set_add (c_user_id r) (retainedUsers a)
            else retainedUsers a)
           (if c_active_next_month r
            then churnedUsers a
            else Js.set_add (c_user_id r) (churnedUsers a)))
  end.

Definition count_record (mode : Mode) (agg : Js.JsMap Bucket) (r : Classified)
  : Js.JsMap Bucket :=
  fold_left (count_for r) (personasToCount mode r) agg.

Definition aggregate (mode : Mode) (cl : list Classified) : Js.JsMap Bucket :=
  fold_left (count_record mode) cl [].

Record AggRow := mkAggRow {
  a_month : jstr;
  a_persona : jstr;
  a_users : Z;
  a_retained : Z;
  a_churned : Z;
  a_retention : Q
}.

Definition agg_row (a : Bucket) : AggRow :=
  let users := Js.set_size (users a) in
  let retained := Js.set_size (retainedUsers a) in
  let churned := Js.set_size (churnedUsers a) in
  let retention :=
    if users =? 0 then 0%Q else (inject_Z retained / inject_Z users)%Q in
  mkAggRow (b_month a) (b_persona a) users retained churned retention.

Definition agg_rows (agg : Js.JsMap Bucket) : list AggRow :=
  map agg_row (Js.map_values agg).

(** [byPersona]: each persona's rows, in the order they were pushed. *)
Definition group_row (m : Js.JsMap (list AggRow)) (r : AggRow) : Js.JsMap (list AggRow) :=
  let m1 := if Js.map_has m (a_persona r) then m else Js.map_set m (a_persona r) [] in
  match Js.map_get m1 (a_persona r) with
  | None => m1
  | Some arr => Js.map_set m1 (a_persona r) (arr ++ [r])
  end.

Definition byPersona (rows : list AggRow) : Js.JsMap (list AggRow) :=
  fold_left group_row rows [].

(** A row with its deltas; [None] is [null]. *)
Record OutRow := mkOutRow {
  base : AggRow;
  retention_mom : option Q;
  users_mom : option Z
}.

(** The loop over [i]: [prev] is [arr[i - 1]], [undefined] at [i = 0]. *)
Fixpoint with_deltas (prev : option AggRow) (arr : list AggRow) : list OutRow :=
  match arr with
  | [] => []
  | cur :: rest =>
      mkOutRow cur
        (option_map (fun p => (a_retention cur - a_retention p)%Q) prev)
        (option_map (fun p => a_users cur - a_users p) prev)
      :: with_deltas (Some cur) rest
  end.

Definition month_compare (a b : AggRow) : Z := localeCompare (a_month a) (a_month b).

Definition persona_series (arr : list AggRow) : list OutRow :=
  with_deltas None (Js.sort month_compare arr).

Definition outRows (rows : list AggRow) : list OutRow :=
  flat_map persona_series (Js.map_values (byPersona rows)).

(** [computed.classified] and [computed.outRows] from the normalised
    rows. *)
Definition computed_classified (keywords : Keywords) (rows : list UserMonth)
  : list Classified :=
  classified keywords (userMonthRows rows).

Definition computed_outRows (keywords : Keywords) (mode : Mode) (rows : list UserMonth)
  : list OutRow :=
  outRows (agg_rows (aggregate mode (computed_classified keywords rows))).

(* ------------------------------------------------------------------ *)
(** ** Notions used to state the properties *)

(** The rows that contribute to the record [rec]: those of its user and
    month, in input order. *)
Definition same_group (rec r : UserMonth) : bool :=
  Js.eqb (user_id r) (user_id rec) && Js.eqb (month r) (month rec).

Definition contributing (rows : list UserMonth) (rec : UserMonth) : list UserMonth :=
  filter (same_group rec) rows.

Definition is_empty (t : jstr) : bool := negb (Js.truthy t).

(** The users counted in the bucket of a month and persona; none when
    the bucket does not exist. *)
Definition bucket_users (agg : Js.JsMap Bucket) (month persona : jstr) : list jstr :=
  match Js.map_get agg (keyFor month persona) with
  | Some a => users a
  | None => []
  end.

(** The contributions [(record, persona)] in the order in which the
    aggregation loops visit them. *)
Definition contributions (mode : Mode) (cl : list Classified)
  : list (Classified * jstr) :=
  flat_map (fun r => map (pair r) (personasToCount mode r)) cl.

Definition bucket_key (rp : Classified * jstr) : jstr :=
  keyFor (c_month (fst rp)) (snd rp).

Definition bucket_init (rp : Classified * jstr) : Bucket :=
  mkBucket (c_month (fst rp)) (snd rp) [] [] [].

Definition bucket_add (a : Bucket) (rp : Classified * jstr) : Bucket :=
  let r := fst rp in
  mkBucket (b_month a) (b_persona a)
    (Js.set_add (c_user_id r) (users a))
    (if c_active_next_month r
     then Js.set_add (c_user_id r) (retainedUsers a)
     else retainedUsers a)
    (if c_active_next_month r
     then churnedUsers a
     else Js.set_add (c_user_id r) (churnedUsers a)).

(** The emitted rows of one persona, in output order. *)
Definition series_of (p : jstr) (outs : list OutRow) : list OutRow :=
  filter (fun o => Js.eqb (a_persona (base o)) p) outs.

(** The deltas of the row at position [i] of a series: none at the
    head, else the differences from the row just before it. *)
Definition chained (series : list OutRow) (i : nat) (o : OutRow) : Prop :=
  match i with
  | O => retention_mom o = None /\ users_mom o = None
  | S j =>
      exists prev,
        nth_error series j = Some prev /\
        users_mom o = Some (a_users (base o) - a_users (base prev)) /\
        retention_mom o = Some (a_retention (base o) - a_retention (base prev))%Q
  end.

(** A month as the pair of its year and month number: the string
    [YYYY-MM] for a year of four digits without leading zero, and its
    calendar successor. *)
Definition year_month (y m : Z) : jstr :=
  Js.of_int y ++ [45] ++ Js.padStart2 (Js.of_int m).

Definition successor (y m : Z) : jstr :=
  if m =? 12 then year_month (y + 1) 1 else year_month y (m + 1).

(* ================================================================== *)
(** * Properties *)

(** ** Strings, maps and sorting *)

Lemma eqb_eq (a b : jstr) : Js.eqb a b = true <-> a = b.
Proof.
  revert b; induction a as [|x a IH]; intros [|y b]; simpl; split; intro H;
    try reflexivity; try discriminate.
  - apply andb_true_iff in H as [H1 H2].
    apply Z.eqb_eq in H1. apply IH in H2. now subst.
  - injection H as -> ->. rewrite Z.eqb_refl. simpl. now apply IH.
Qed.

Lemma eqb_refl (a : jstr) : Js.eqb a a = true.
Proof. now apply eqb_eq. Qed.

Lemma eqb_neq (a b : jstr) : Js.eqb a b = false <-> a <> b.
Proof.
  split.
  - intros H E. apply eqb_eq in E. congruence.
  - intro H. destruct (Js.eqb a b) eqn:E; [|reflexivity].
    apply eqb_eq in E. contradiction.
Qed.

Lemma eqb_sym (a b : jstr) : Js.eqb a b = Js.eqb b a.
Proof.
  destruct (Js.eqb a b) eqn:E.
  - apply eqb_eq in E. subst. symmetry. apply eqb_refl.
  - symmetry. apply eqb_neq. apply eqb_neq in E. congruence.
Qed.

Lemma mem_In (x : jstr) (l : list jstr) : Js.mem x l = true <-> In x l.
Proof.
  unfold Js.mem. rewrite existsb_exists. split.
  - intros (y & Hy & E). apply eqb_eq in E. now subst.
  - intro H. exists x. split; [assumption | apply eqb_refl].
Qed.

Lemma includes_empty (s : jstr) : Js.includes s [] = true.
Proof. destruct s; reflexivity. Qed.

Lemma insert_perm {A} (cmp : A -> A -> Z) (x : A) (l : list A) :
  Permutation (Js.insert cmp x l) (x :: l).
Proof.
  induction l as [|y l IH]; simpl.
  - reflexivity.
  - destruct (cmp x y <=? 0).
    + reflexivity.
    + rewrite IH. apply perm_swap.
Qed.

Lemma sort_perm {A} (cmp : A -> A -> Z) (l : list A) :
  Permutation (Js.sort cmp l) l.
Proof.
  induction l as [|x l IH]; simpl.
  - reflexivity.
  - rewrite insert_perm. now constructor.
Qed.

Lemma sort_In {A} (cmp : A -> A -> Z) (l : list A) (x : A) :
  In x (Js.sort cmp l) <-> In x l.
Proof.
  split; apply Permutation_in; [| symmetry]; apply sort_perm.
Qed.

Lemma map_get_set {V} (m : Js.JsMap V) (k k' : jstr) (v : V) :
  Js.map_get (Js.map_set m k v) k'
  = if Js.eqb k' k then Some v else Js.map_get m k'.
Proof.
  induction m as [|[k0 v0] m IH]; simpl.
  - reflexivity.
  - destruct (Js.eqb k k0) eqn:E; simpl.
    + apply eqb_eq in E. subst k0.
      destruct (Js.eqb k' k); reflexivity.
    + destruct (Js.eqb k' k0) eqn:E'.
      * apply eqb_eq in E'. subst k0.
        rewrite eqb_sym, E. reflexivity.
      * apply IH.
Qed.

Lemma map_set_keys {V} (m : Js.JsMap V) (k : jstr) (v : V) :
  map fst (Js.map_set m k v)
  = if Js.map_has m k then map fst m else map fst m ++ [k].
Proof.
  unfold Js.map_has. induction m as [|[k0 v0] m IH]; simpl.
  - reflexivity.
  - destruct (Js.eqb k k0) eqn:E; simpl.
    + reflexivity.
    + rewrite IH. destruct (Js.map_get m k); reflexivity.
Qed.

Lemma map_get_In {V} (m : Js.JsMap V) (k : jstr) (v : V) :
  Js.map_get m k = Some v -> In (k, v) m.
Proof.
  induction m as [|[k0 v0] m IH]; simpl; [discriminate|].
  destruct (Js.eqb k k0) eqn:E.
  - apply eqb_eq in E. subst k0. intros [= ->]. now left.
  - intro H. right. now apply IH.
Qed.

Lemma map_get_none {V} (m : Js.JsMap V) (k : jstr) :
  Js.map_get m k = None <-> ~ In k (map fst m).
Proof.
  induction m as [|[k0 v0] m IH]; simpl.
  - split; [intros _ [] | reflexivity].
  - destruct (Js.eqb k k0) eqn:E.
    + apply eqb_eq in E. subst k0.
      split; [discriminate | intro H; elim H; now left].
    + apply eqb_neq in E. rewrite IH. split.
      * intros H [H' | H']; [congruence | contradiction].
      * intros H H'. apply H. now right.
Qed.

Lemma In_map_get {V} (m : Js.JsMap V) (k : jstr) (v : V) :
  NoDup (map fst m) -> In (k, v) m -> Js.map_get m k = Some v.
Proof.
  induction m as [|[k0 v0] m IH]; simpl; [contradiction|].
  intros N H. inversion N as [|? ? N1 N2]; subst.
  destruct H as [[= -> ->] | H].
  - now rewrite eqb_refl.
  - destruct (Js.eqb k k0) eqn:E.
    + apply eqb_eq in E. subst k0. elim N1.
      apply (in_map fst) in H. exact H.
    + now apply IH.
Qed.

Lemma map_has_In {V} (m : Js.JsMap V) (k : jstr) :
  Js.map_has m k = true <-> In k (map fst m).
Proof.
  unfold Js.map_has. destruct (Js.map_get m k) eqn:E.
  - split; [intros _ | reflexivity].
    apply map_get_In in E. apply (in_map fst) in E. exact E.
  - split; [discriminate|]. intro H. apply map_get_none in E. contradiction.
Qed.

Lemma map_set_NoDup {V} (m : Js.JsMap V) (k : jstr) (v : V) :
  NoDup (map fst m) -> NoDup (map fst (Js.map_set m k v)).
Proof.
  intro N. rewrite map_set_keys.
  destruct (Js.map_has m k) eqn:E; [assumption|].
  apply NoDup_app; [assumption | repeat constructor; intros [] |].
  intros x Hx [<- | []].
  apply map_has_In in Hx. congruence.
Qed.

(** ** Delimiter detection *)

(** C4: delimiter detection on the first line, its leading byte-order
    mark dropped, returns the semicolon iff the semicolons outnumber the
    commas and are at least as many as the tabs; otherwise the tab iff
    the tabs outnumber both the commas and the semicolons; otherwise the
    comma.  Hence 3 commas and no semicolon give the comma, 1 comma and 2
    semicolons the semicolon, and equally many commas and semicolons the
    comma (each when no tab rule overrides: the tabs do not outnumber
    the winner). *)
Theorem detectDelimiter_rule :
  forall firstLine : jstr,
    let line := Js.strip_bom firstLine in
    let commas := Js.count_unit 44 line in
    let semis := Js.count_unit 59 line in
    let tabs := Js.count_unit 9 line in
    (detectDelimiter firstLine = Js.lit ";" <->
       (semis > commas /\ semis >= tabs)) /\
    (detectDelimiter firstLine = [Js.TAB] <->
       (~ (semis > commas /\ semis >= tabs) /\ tabs > commas /\ tabs > semis)) /\
    (detectDelimiter firstLine = Js.lit "," <->
       (~ (semis > commas /\ semis >= tabs) /\ ~ (tabs > commas /\ tabs > semis))) /\
    (commas = 3 -> semis = 0 -> tabs <= commas ->
       detectDelimiter firstLine = Js.lit ",") /\
    (commas = 1 -> semis = 2 -> tabs <= semis ->
       detectDelimiter firstLine = Js.lit ";") /\
    (commas = semis -> tabs <= commas ->
       detectDelimiter firstLine = Js.lit ",") /\
    detectDelimiter (Js.lit "user_id,month,text,active_next_month") = Js.lit "," /\
    detectDelimiter (Js.BOM :: Js.lit "user_id;month,text;x") = Js.lit ";" /\
    detectDelimiter (Js.lit "a,b;c") = Js.lit ",".
Proof.
  intros firstLine line commas semis tabs.
  unfold detectDelimiter. fold line. fold commas. fold semis.
  change (Js.count_unit Js.TAB line) with tabs.
  change (Js.lit ";") with [59]. change (Js.lit ",") with [44].
  change [Js.TAB] with [9].
  rewrite !Z.gtb_ltb, !Z.geb_leb.
  destruct (Z.ltb_spec commas semis); destruct (Z.leb_spec tabs semis);
    destruct (Z.ltb_spec commas tabs); destruct (Z.ltb_spec semis tabs); simpl;
    repeat split; intros; try reflexivity; try discriminate; try lia.
Qed.

(** ** Quoted fields *)

Lemma scan_quoted_tail (DELIM s rest : jstr) (rs : list (list jstr))
      (r : list jstr) (f : jstr) :
  hd_error rest <> Some Js.DQUOTE ->
  scan DELIM (double_quotes s ++ Js.DQUOTE :: rest) (mkScan rs r f true)
  = scan DELIM rest (mkScan rs r (f ++ s) false).
Proof.
  intro Hrest. revert f. induction s as [|c s IH]; intro f.
  - rewrite app_nil_r. simpl.
    destruct rest as [|c' rest'].
    + reflexivity.
    + destruct (c' =? Js.DQUOTE) eqn:E.
      * apply Z.eqb_eq in E. subst c'. now elim Hrest.
      * reflexivity.
  - unfold double_quotes. simpl flat_map. fold (double_quotes s).
    destruct (c =? Js.DQUOTE) eqn:E.
    + apply Z.eqb_eq in E. subst c.
      simpl. unfold addUnit. simpl.
      rewrite IH. now rewrite <- app_assoc.
    + simpl. rewrite E. unfold addUnit. simpl.
      rewrite IH. now rewrite <- app_assoc.
Qed.

(** C9: the scanner of [parseCSV] undoes the quoting of the exporter: a
    field written between double quotes with each of its double quotes
    doubled is read back as the original string, whatever it holds
    (delimiters, line breaks, quotes) and whatever the delimiter, as
    long as the text after the closing quote does not start with a
    quote; alone in the input, a non-empty field gives one row of one
    field.  The field written as quote, a, comma, two quotes, b, two
    quotes, comma, c, quote is read as a, comma, quote, b, quote,
    comma, c. *)
Theorem quoted_field_roundtrip :
  (forall (DELIM s rest : jstr) (rs : list (list jstr)) (r : list jstr) (f : jstr),
      hd_error rest <> Some Js.DQUOTE ->
      scan DELIM (quote_field s ++ rest) (mkScan rs r f false)
      = scan DELIM rest (mkScan rs r (f ++ s) false)) /\
  (forall DELIM s : jstr, s <> [] -> tokenize DELIM (quote_field s) = [[s]]) /\
  (let q := [Js.DQUOTE] in
   let value := Js.lit "a," ++ q ++ Js.lit "b" ++ q ++ Js.lit ",c" in
   let written := q ++ Js.lit "a," ++ q ++ q ++ Js.lit "b" ++ q ++ q ++ Js.lit ",c" ++ q in
   written = quote_field value /\
   esc value = written /\
   tokenize (Js.lit ",") written = [[value]] /\
   parseCSV (Js.lit "h" ++ [Js.LF] ++ written) = [[(Js.lit "h", Some value)]]).
Proof.
  assert (Hscan : forall (DELIM s rest : jstr) (rs : list (list jstr))
                         (r : list jstr) (f : jstr),
             hd_error rest <> Some Js.DQUOTE ->
             scan DELIM (quote_field s ++ rest) (mkScan rs r f false)
             = scan DELIM rest (mkScan rs r (f ++ s) false)).
  { intros DELIM s rest rs r f Hrest.
    unfold quote_field. rewrite <- !app_assoc. simpl.
    now apply scan_quoted_tail. }
  split; [exact Hscan|]. split.
  - intros DELIM s Hs. unfold tokenize.
    rewrite <- (app_nil_r (quote_field s)).
    rewrite Hscan by discriminate.
    simpl. destruct s; [contradiction | reflexivity].
  - vm_compute. repeat split; reflexivity.
Qed.

(** ** Trailing line break *)

Lemma strip_bom_app (text : jstr) (c : Z) :
  c <> Js.BOM -> Js.strip_bom (text ++ [c]) = Js.strip_bom text ++ [c].
Proof.
  intro H. destruct text as [|x t]; simpl.
  - destruct (Z.eqb_spec c Js.BOM); [contradiction | reflexivity].
  - destruct (x =? Js.BOM); reflexivity.
Qed.

Lemma first_line_cons (c c' : Z) (rest : jstr) :
  first_line (c :: c' :: rest)
  = if (c =? Js.LF) || ((c =? Js.CR) && (c' =? Js.LF)) then []
    else c :: first_line (c' :: rest).
Proof.
  change (first_line (c :: c' :: rest))
    with (if c =? Js.LF then []
          else if c =? Js.CR
               then (if c' =? Js.LF then [] else c :: first_line (c' :: rest))
               else c :: first_line (c' :: rest)).
  destruct (c =? Js.LF); destruct (c =? Js.CR); destruct (c' =? Js.LF); reflexivity.
Qed.

Lemma first_line_app (raw : jstr) :
  first_line (raw ++ [Js.LF]) = first_line raw \/
  first_line raw = first_line (raw ++ [Js.LF]) ++ [Js.CR].
Proof.
  induction raw as [|c r IH].
  - left. reflexivity.
  - destruct r as [|c' r'].
    + change ([c] ++ [Js.LF]) with [c; Js.LF]. rewrite first_line_cons.
      change (first_line [c])
        with (if c =? Js.LF then [] else if c =? Js.CR then [c] else [c]).
      rewrite Z.eqb_refl.
      destruct (c =? Js.LF); [now left|].
      destruct (Z.eqb_spec c Js.CR) as [-> | N]; [now right | now left].
    + change ((c :: c' :: r') ++ [Js.LF]) with (c :: c' :: (r' ++ [Js.LF])).
      change ((c' :: r') ++ [Js.LF]) with (c' :: (r' ++ [Js.LF])) in IH.
      rewrite !first_line_cons.
      destruct ((c =? Js.LF) || ((c =? Js.CR) && (c' =? Js.LF))); [now left|].
      destruct IH as [-> | ->]; [now left | now right].
Qed.

Lemma count_unit_app (c : Z) (l : jstr) (x : Z) :
  x <> c -> Js.count_unit c (l ++ [x]) = Js.count_unit c l.
Proof.
  intro H. unfold Js.count_unit. rewrite filter_app. simpl.
  destruct (Z.eqb_spec x c); [contradiction|]. now rewrite app_nil_r.
Qed.

Lemma detectDelimiter_app_CR (l : jstr) :
  detectDelimiter (l ++ [Js.CR]) = detectDelimiter l.
Proof.
  unfold detectDelimiter. rewrite strip_bom_app by discriminate.
  now rewrite !count_unit_app by discriminate.
Qed.

Lemma detectDelimiter_first_line (raw : jstr) :
  detectDelimiter (first_line (raw ++ [Js.LF])) = detectDelimiter (first_line raw).
Proof.
  destruct (first_line_app raw) as [-> | ->]; [reflexivity|].
  now rewrite detectDelimiter_app_CR.
Qed.

Lemma detectDelimiter_cases (l : jstr) :
  detectDelimiter l = [59] \/ detectDelimiter l = [Js.TAB] \/ detectDelimiter l = [44].
Proof.
  unfold detectDelimiter. destruct (_ && _); [now left|].
  destruct (_ && _); [right; now left | right; now right].
Qed.

Lemma scan_cons (DELIM : jstr) (c c' : Z) (rest : jstr) (st : Scan) :
  scan DELIM (c :: c' :: rest) st
  = if inQuotes st then
      if c =? Js.DQUOTE then
        if c' =? Js.DQUOTE then scan DELIM rest (addUnit Js.DQUOTE st)
        else scan DELIM (c' :: rest) (setQuotes false st)
      else scan DELIM (c' :: rest) (addUnit c st)
    else if c =? Js.DQUOTE then scan DELIM (c' :: rest) (setQuotes true st)
    else if Js.eqb [c] DELIM then scan DELIM (c' :: rest) (pushField st)
    else if c =? Js.LF then scan DELIM (c' :: rest) (pushRow (pushField st))
    else if c =? Js.CR then scan DELIM (c' :: rest) st
    else scan DELIM (c' :: rest) (addUnit c st).
Proof. reflexivity. Qed.

(** Scanning a text in two parts, when the second does not start with
    a quote that the first could pair with. *)
Lemma scan_app (DELIM a b : jstr) (st : Scan) :
  hd_error b <> Some Js.DQUOTE ->
  scan DELIM (a ++ b) st = scan DELIM b (scan DELIM a st).
Proof.
  intro Hb.
  assert (G : forall n a st, (List.length a <= n)%nat ->
                             scan DELIM (a ++ b) st = scan DELIM b (scan DELIM a st)).
  { clear a st. induction n as [|n IH]; intros a st L.
    - destruct a; [reflexivity | simpl in L; lia].
    - destruct a as [|c [|c' a']]; [reflexivity | |].
      + change ([c] ++ b) with (c :: b). cbn [scan].
        destruct (inQuotes st);
          [| destruct (c =? Js.DQUOTE); [reflexivity|];
             destruct (Js.eqb [c] DELIM); [reflexivity|];
             destruct (c =? Js.LF); [reflexivity|];
             destruct (c =? Js.CR); reflexivity].
        destruct (c =? Js.DQUOTE); [| reflexivity].
        destruct b as [|c'' b']; [reflexivity|].
        destruct (Z.eqb_spec c'' Js.DQUOTE) as [-> | N]; [now elim Hb | reflexivity].
      + change ((c :: c' :: a') ++ b) with (c :: c' :: (a' ++ b)).
        simpl in L.
        assert (I1 : forall st', scan DELIM (c' :: (a' ++ b)) st'
                                 = scan DELIM b (scan DELIM (c' :: a') st')).
        { intro st'. change (c' :: (a' ++ b)) with ((c' :: a') ++ b).
          apply IH. simpl. lia. }
        assert (I2 : forall st', scan DELIM (a' ++ b) st'
                                 = scan DELIM b (scan DELIM a' st')).
        { intro st'. apply IH. lia. }
        rewrite (scan_cons DELIM c c' (a' ++ b) st), (scan_cons DELIM c c' a' st).
        destruct (inQuotes st).
        * destruct (c =? Js.DQUOTE); [| apply I1].
          destruct (c' =? Js.DQUOTE); [apply I2 | apply I1].
        * destruct (c =? Js.DQUOTE); [apply I1|].
          destruct (Js.eqb [c] DELIM); [apply I1|].
          destruct (c =? Js.LF); [apply I1|].
          destruct (c =? Js.CR); apply I1. }
  now apply (G (List.length a)).
Qed.

Lemma obj_update_values (k : jstr) (v : option jstr) (o : JsObj) (P : option jstr -> Prop) :
  P v -> Forall (fun kv => P (snd kv)) o ->
  Forall (fun kv => P (snd kv)) (obj_update k v o).
Proof.
  intros Pv F. induction o as [|[k' v'] o IH]; simpl.
  - now repeat constructor.
  - inversion F; subst. destruct (Js.eqb k k'); constructor; auto.
Qed.

Lemma fill_obj_blank (header : list jstr) (o : JsObj) :
  Forall (fun kv => Js.truthy (Js.trim (Js.or_empty (snd kv))) = false) o ->
  Forall (fun kv => Js.truthy (Js.trim (Js.or_empty (snd kv))) = false)
         (fill_obj header [[]] o).
Proof.
  intro F.
  assert (G : forall cells o,
             (cells = [[]] \/ cells = []) ->
             Forall (fun kv => Js.truthy (Js.trim (Js.or_empty (snd kv))) = false) o ->
             Forall (fun kv => Js.truthy (Js.trim (Js.or_empty (snd kv))) = false)
                    (fill_obj header cells o)).
  { clear o F. induction header as [|h header IH]; intros cells o C F; simpl.
    - exact F.
    - apply IH.
      + destruct C as [-> | ->]; now right.
      + unfold obj_set. destruct (Js.eqb h PROTO); [exact F|].
        apply (obj_update_values h (hd_error cells) o
                 (fun v => Js.truthy (Js.trim (Js.or_empty v)) = false)); [|exact F].
        destruct C as [-> | ->]; reflexivity. }
  apply G; [now left | exact F].
Qed.

Lemma obj_entries_In (o : JsObj) (kv : jstr * option jstr) :
  In kv (obj_entries o) -> In kv o.
Proof.
  unfold obj_entries. rewrite in_app_iff. intros [H | H].
  - apply in_map_iff in H as ([n kv'] & E & H). simpl in E. subst kv'.
    apply sort_In in H. unfold index_props in H.
    apply in_flat_map in H as (x & Hx & H).
    destruct (array_index (fst x)); [|contradiction].
    destruct H as [[= _ <-] | []]. exact Hx.
  - unfold name_props in H. now apply filter_In in H as [H _].
Qed.

Lemma blank_row_dropped (header : list jstr) :
  nonEmpty (fill_obj header [[]] []) = false.
Proof.
  unfold nonEmpty, Object_values.
  destruct (existsb _ _) eqn:E; [|reflexivity].
  apply existsb_exists in E as (v & Hv & T).
  apply in_map_iff in Hv as (kv & <- & Hkv).
  apply obj_entries_In in Hkv.
  pose proof (fill_obj_blank header [] (Forall_nil _)) as F.
  rewrite Forall_forall in F. rewrite (F kv Hkv) in T. discriminate.
Qed.

Lemma objects_of_blank (rows : list (list jstr)) :
  objects_of (rows ++ [[[]]]) = objects_of rows.
Proof.
  destruct rows as [|h t].
  - reflexivity.
  - unfold objects_of. cbn [app hd tl].
    destruct (_ || _); [reflexivity|].
    rewrite map_app, filter_app. cbn [map filter].
    rewrite blank_row_dropped. apply app_nil_r.
Qed.

Lemma tokenize_line_break (DELIM raw : jstr) :
  inQuotes (scan DELIM raw (mkScan [] [] [] false)) = false ->
  Js.eqb [Js.LF] DELIM = false ->
  tokenize DELIM (raw ++ [Js.LF]) = tokenize DELIM raw \/
  tokenize DELIM (raw ++ [Js.LF]) = tokenize DELIM raw ++ [[[]]].
Proof.
  intros Q ND. unfold tokenize. rewrite scan_app by discriminate.
  destruct (scan DELIM raw (mkScan [] [] [] false)) as [rs r f q].
  simpl in Q. subst q.
  cbn [scan inQuotes]. change (Js.LF =? Js.DQUOTE) with false. cbn iota.
  rewrite ND, Z.eqb_refl.
  cbn [pushField pushRow rows row field app Js.truthy].
  destruct r as [|r0 r].
  - cbn [app]. destruct f; [now right | now left].
  - left. cbn [app]. destruct (r ++ [f]) eqn:E; [| reflexivity].
    destruct r; discriminate.
Qed.

(** A line break after the last row adds no row: when the text does
    not end inside a quoted field, [parseCSV] returns the same rows for
    the text and for the text followed by a line break. *)
Theorem trailing_line_break_adds_no_row :
  forall text : jstr,
    inQuotes (scan (detectDelimiter (first_line (Js.strip_bom text)))
                (Js.strip_bom text) (mkScan [] [] [] false)) = false ->
    parseCSV (text ++ [Js.LF]) = parseCSV text.
Proof.
  intros text Q. unfold parseCSV.
  rewrite strip_bom_app by discriminate.
  rewrite detectDelimiter_first_line.
  set (raw := Js.strip_bom text) in *.
  set (DELIM := detectDelimiter (first_line raw)) in *.
  assert (ND : Js.eqb [Js.LF] DELIM = false).
  { subst DELIM. destruct (detectDelimiter_cases (first_line raw)) as [-> | [-> | ->]];
      reflexivity. }
  destruct (tokenize_line_break DELIM raw Q ND) as [-> | ->].
  - reflexivity.
  - apply objects_of_blank.
Qed.

(** ** Classification *)

Lemma compute_flags_eq (t : jstr) (keywords : Keywords) :
  compute_flags t keywords
  = map (fun p => (key p, some_keyword t (kw_list keywords (key p)))) PERSONAS.
Proof. reflexivity. Qed.

Lemma flag_compute_flags (t : jstr) (keywords : Keywords) (p : Persona) :
  In p PERSONAS ->
  flag (compute_flags t keywords) (key p)
  = some_keyword t (kw_list keywords (key p)).
Proof.
  rewrite compute_flags_eq. intro H.
  repeat (destruct H as [<- | H]; [reflexivity |]).
  contradiction.
Qed.

Lemma any_flag (fl : Js.JsMap bool) :
  existsb (fun b : bool => b) (Js.map_values fl) = true <->
  exists kv, In kv fl /\ snd kv = true.
Proof.
  unfold Js.map_values. rewrite existsb_exists. split.
  - intros (b & Hb & E). apply in_map_iff in Hb as (kv & <- & Hkv). eauto.
  - intros (kv & Hkv & E). exists (snd kv). split; [now apply in_map | assumption].
Qed.

Lemma any_compute_flags (t : jstr) (keywords : Keywords) :
  existsb (fun b : bool => b) (Js.map_values (compute_flags t keywords)) = true <->
  exists p, In p PERSONAS /\ flag (compute_flags t keywords) (key p) = true.
Proof.
  rewrite any_flag. split.
  - intros (kv & Hkv & E). rewrite compute_flags_eq in Hkv.
    apply in_map_iff in Hkv as (p & <- & Hp). exists p. split; [assumption|].
    now rewrite flag_compute_flags.
  - intros (p & Hp & E). rewrite flag_compute_flags in E by assumption.
    exists (key p, some_keyword t (kw_list keywords (key p))). split; [|assumption].
    rewrite compute_flags_eq.
    apply (in_map (fun p => (key p, some_keyword t (kw_list keywords (key p))))).
    assumption.
Qed.

Lemma first_flagged_none (fl : Js.JsMap bool) (l : list Persona) :
  first_flagged fl l = None <-> forall p, In p l -> flag fl (key p) = false.
Proof.
  induction l as [|p l IH]; simpl.
  - split; [intros _ p [] | reflexivity].
  - destruct (flag fl (key p)) eqn:E.
    + split; [discriminate|]. intro H. specialize (H p (or_introl eq_refl)). congruence.
    + rewrite IH. split.
      * intros H q [<- | Hq]; auto.
      * intros H q Hq. apply H. now right.
Qed.

Lemma first_flagged_some (fl : Js.JsMap bool) (l : list Persona) (d : jstr) :
  first_flagged fl l = Some d ->
  exists l1 p l2,
    l = l1 ++ p :: l2 /\ key p = d /\ flag fl d = true /\
    forall q, In q l1 -> flag fl (key q) = false.
Proof.
  induction l as [|p l IH]; simpl; [discriminate|].
  destruct (flag fl (key p)) eqn:E.
  - intros [= <-]. exists [], p, l. repeat split; auto. intros q [].
  - intro H. destruct (IH H) as (l1 & p' & l2 & -> & Hk & Hf & Hl1).
    exists (p :: l1), p', l2. repeat split; auto.
    intros q [<- | Hq]; auto.
Qed.

Lemma sorted_personas :
  Js.sort (fun a b => priority a - priority b) PERSONAS = PERSONAS.
Proof. reflexivity. Qed.

Lemma personas_by_priority :
  StronglySorted (fun a b => priority a <= priority b) PERSONAS.
Proof.
  unfold PERSONAS.
  repeat (constructor; [| repeat (constructor; [simpl; lia |]); constructor]).
  constructor.
Qed.

Lemma classify_flags (text : jstr) (keywords : Keywords) :
  snd (classifyDominantPersona text keywords) = compute_flags (norm text) keywords.
Proof.
  unfold classifyDominantPersona.
  destruct (negb _); reflexivity.
Qed.

Lemma classify_persona (text : jstr) (keywords : Keywords) :
  fst (classifyDominantPersona text keywords)
  = first_flagged (compute_flags (norm text) keywords) PERSONAS.
Proof.
  unfold classifyDominantPersona. rewrite sorted_personas.
  destruct (existsb _ _) eqn:E; [reflexivity|].
  change (None = first_flagged (compute_flags (norm text) keywords) PERSONAS).
  symmetry. apply first_flagged_none. intros p Hp.
  destruct (flag _ (key p)) eqn:F; [|reflexivity].
  assert (X : existsb (fun b : bool => b)
                (Js.map_values (compute_flags (norm text) keywords)) = true)
    by (apply any_compute_flags; eauto).
  congruence.
Qed.

Lemma dominant_minimal (fl : Js.JsMap bool) (d : jstr) :
  first_flagged fl PERSONAS = Some d ->
  exists p, In p PERSONAS /\ key p = d /\ flag fl d = true /\
            forall q, In q PERSONAS -> flag fl (key q) = true ->
                      priority p <= priority q.
Proof.
  intro H. destruct (first_flagged_some _ _ _ H) as (l1 & p & l2 & E & Hk & Hf & Hl1).
  exists p. split; [rewrite E; apply in_elt|]. repeat split; auto.
  intros q Hq Fq. rewrite E in Hq. apply in_app_or in Hq as [Hq | [<- | Hq]].
  - rewrite (Hl1 q Hq) in Fq. discriminate.
  - lia.
  - pose proof personas_by_priority as S. rewrite E in S.
    clear - S Hq. induction l1 as [|x l1 IH]; simpl in S.
    + inversion S as [|? ? _ F]; subst. rewrite Forall_forall in F. now apply F.
    + inversion S; subst. auto.
Qed.

Lemma dominant_is_persona (text : jstr) (keywords : Keywords) (d : jstr) :
  fst (classifyDominantPersona text keywords) = Some d ->
  In d (map key PERSONAS).
Proof.
  rewrite classify_persona. intro H.
  destruct (dominant_minimal _ _ H) as (p & Hp & <- & _).
  now apply in_map.
Qed.

(** C5: for every text and keyword dictionary the classifier sets the
    flag of a persona iff one of its keywords occurs in the lowercased
    text; it returns no dominant persona iff no flag is set, and
    otherwise a flagged persona whose priority is the lowest among the
    flagged ones, in the catalog trust_erosion 1, emotional 2,
    escalation 3, reliability 4, overload 5, veteran 6, suggestion 7.
    A text flagged for veteran and trust_erosion has trust_erosion as
    its dominant persona. *)
Theorem dominant_by_priority :
  forall (text : jstr) (keywords : Keywords),
    let res := classifyDominantPersona text keywords in
    let on := flag (snd res) in
    (forall p, In p PERSONAS ->
       on (key p) = some_keyword (norm text) (kw_list keywords (key p))) /\
    (fst res = None <-> forall p, In p PERSONAS -> on (key p) = false) /\
    (forall d, fst res = Some d ->
       exists p, In p PERSONAS /\ key p = d /\ on d = true /\
         forall q, In q PERSONAS -> on (key q) = true -> priority p <= priority q) /\
    map (fun p => (key p, priority p)) PERSONAS
      = [ (TRUST_EROSION, 1); (EMOTIONAL, 2); (ESCALATION, 3); (RELIABILITY, 4);
          (OVERLOAD, 5); (VETERAN, 6); (SUGGESTION, 7) ] /\
    (on VETERAN = true -> on TRUST_EROSION = true -> fst res = Some TRUST_EROSION) /\
    (let r := classifyDominantPersona
                (Js.lit "Al jaren klant, maar dit VOELT NIET VEILIG.") DEFAULT_KEYWORDS in
     flag (snd r) VETERAN = true /\ flag (snd r) TRUST_EROSION = true /\
     fst r = Some TRUST_EROSION).
Proof.
  intros text keywords res on. subst on res.
  rewrite classify_flags, classify_persona.
  split; [intros p Hp; now apply flag_compute_flags|].
  split; [apply first_flagged_none|].
  split; [intros d H; now apply dominant_minimal|].
  split; [reflexivity|].
  split; [| vm_compute; repeat split; reflexivity].
  intros _ Ht.
  destruct (first_flagged (compute_flags (norm text) keywords) PERSONAS) as [d|] eqn:E.
  - destruct (dominant_minimal _ _ E) as (p & Hp & <- & _ & Hmin).
    assert (T : In (mkPersona TRUST_EROSION (Js.lit "Trust erosion") 1) PERSONAS)
      by (left; reflexivity).
    specialize (Hmin _ T Ht). simpl in Hmin.
    repeat (destruct Hp as [<- | Hp]; [first [reflexivity | simpl in Hmin; lia] |]).
    contradiction.
  - rewrite first_flagged_none in E.
    assert (T : In (mkPersona TRUST_EROSION (Js.lit "Trust erosion") 1) PERSONAS)
      by (left; reflexivity).
    specialize (E _ T). simpl in E. congruence.
Qed.

(** C10: whatever the text, the empty one included, a persona whose
    keyword list holds the empty string is flagged by the classifier
    (the empty string occurs in every string), so the dominant persona
    is not none: the classifier filters no keyword.  The keyword editor
    is the path that drops empty entries. *)
Theorem empty_keyword_always_matches :
  (forall (text : jstr) (keywords : Keywords) (p : Persona),
      In p PERSONAS ->
      In [] (kw_list keywords (key p)) ->
      flag (snd (classifyDominantPersona text keywords)) (key p) = true /\
      fst (classifyDominantPersona text keywords) <> None) /\
  (forall value : jstr, ~ In [] (edited_keywords value)) /\
  edited_keywords (Js.lit "weer, ,opnieuw,,") = [Js.lit "weer"; Js.lit "opnieuw"].
Proof.
  split; [| split; [| reflexivity]].
  - intros text keywords p Hp He.
    assert (F : flag (snd (classifyDominantPersona text keywords)) (key p) = true).
    { rewrite classify_flags, flag_compute_flags by assumption.
      unfold some_keyword. apply existsb_exists. exists []. split; [assumption|].
      apply includes_empty. }
    split; [assumption|].
    rewrite classify_persona, first_flagged_none. intro H.
    rewrite classify_flags in F. rewrite (H p Hp) in F. discriminate.
  - intros value H. unfold edited_keywords in H.
    apply filter_In in H as [_ H]. discriminate.
Qed.

(** C10 at the empty text, the suggestion list holding only the empty
    keyword. *)
Lemma empty_keyword_always_matches_witness :
  flag (snd (classifyDominantPersona [] [(SUGGESTION, [[]])])) SUGGESTION = true /\
  fst (classifyDominantPersona [] [(SUGGESTION, [[]])]) <> None.
Proof.
  apply (proj1 empty_keyword_always_matches []
           [(SUGGESTION, [[]])]
           (mkPersona SUGGESTION (Js.lit "Suggestion-stage") 7)).
  - simpl. tauto.
  - simpl. tauto.
Defined.

(** ** Maps filled by insert-or-update loops

    The three loops that fill a [Map] (user-month records, buckets,
    rows by persona) have one shape: make sure the key of the item is
    present, then update the value found.  [upsert] is that shape; the
    value stored under a key is the fold of the updates by the items of
    that key, in order. *)

Section Upsert.
Context {X V : Type} (keyOf : X -> jstr) (init : X -> V) (upd : V -> X -> V).

Definition upsert (m : Js.JsMap V) (x : X) : Js.JsMap V :=
  let k := keyOf x in
  let m1 := if Js.map_has m k then m else Js.map_set m k (init x) in
  match Js.map_get m1 k with
  | None => m1
  | Some cur => Js.map_set m1 k (upd cur x)
  end.

Definition items_of (k : jstr) (xs : list X) : list X :=
  filter (fun x => Js.eqb (keyOf x) k) xs.

Lemma upsert_get (m : Js.JsMap V) (x : X) (k : jstr) :
  Js.map_get (upsert m x) k
  = if Js.eqb k (keyOf x)
    then Some (upd (match Js.map_get m (keyOf x) with
                    | Some cur => cur
                    | None => init x
                    end) x)
    else Js.map_get m k.
Proof.
  unfold upsert, Js.map_has.
  destruct (Js.map_get m (keyOf x)) as [cur|] eqn:E.
  - rewrite E. apply map_get_set.
  - rewrite map_get_set, eqb_refl. rewrite !map_get_set.
    destruct (Js.eqb k (keyOf x)); reflexivity.
Qed.

Lemma upsert_NoDup (m : Js.JsMap V) (x : X) :
  NoDup (map fst m) -> NoDup (map fst (upsert m x)).
Proof.
  intro N. unfold upsert.
  set (m1 := if Js.map_has m _ then m else _).
  assert (N1 : NoDup (map fst m1)).
  { subst m1. destruct (Js.map_has m _); [assumption | now apply map_set_NoDup]. }
  destruct (Js.map_get m1 _); [now apply map_set_NoDup | assumption].
Qed.

Lemma upsert_fold_NoDup (xs : list X) (m : Js.JsMap V) :
  NoDup (map fst m) -> NoDup (map fst (fold_left upsert xs m)).
Proof.
  revert m. induction xs as [|x xs IH]; intros m N; simpl.
  - exact N.
  - apply IH. now apply upsert_NoDup.
Qed.

Lemma upsert_fold_get (xs : list X) (m : Js.JsMap V) (k : jstr) :
  Js.map_get (fold_left upsert xs m) k
  = match items_of k xs with
    | [] => Js.map_get m k
    | x :: g =>
        Some (fold_left upd (x :: g)
                (match Js.map_get m k with Some cur => cur | None => init x end))
    end.
Proof.
  revert m. induction xs as [|x0 xs IH]; intro m; simpl.
  - reflexivity.
  - rewrite IH, upsert_get. rewrite (eqb_sym k).
    destruct (Js.eqb (keyOf x0) k) eqn:E.
    + apply eqb_eq in E. subst k.
      destruct (items_of (keyOf x0) xs); reflexivity.
    + reflexivity.
Qed.

(** An entry of the filled map: its key has items, the first of which
    created the value. *)
Lemma upsert_fold_entry (xs : list X) (k : jstr) (v : V) :
  In (k, v) (fold_left upsert xs []) ->
  exists x g, items_of k xs = x :: g /\ v = fold_left upd (x :: g) (init x).
Proof.
  intro H. apply In_map_get in H; [| apply upsert_fold_NoDup; constructor].
  rewrite upsert_fold_get in H.
  destruct (items_of k xs) as [|x g]; [discriminate|].
  exists x, g. split; [reflexivity|].
  injection H as <-. reflexivity.
Qed.

Lemma upsert_fold_has (xs : list X) (x : X) :
  In x xs ->
  exists x0 g, items_of (keyOf x) xs = x0 :: g /\
    In (keyOf x, fold_left upd (x0 :: g) (init x0)) (fold_left upsert xs []).
Proof.
  intro H.
  assert (I : In x (items_of (keyOf x) xs))
    by (apply filter_In; split; [assumption | apply eqb_refl]).
  pose proof (upsert_fold_get xs [] (keyOf x)) as G.
  destruct (items_of (keyOf x) xs) as [|x0 g]; [contradiction|].
  exists x0, g. split; [reflexivity|].
  apply map_get_In. exact G.
Qed.

Lemma items_of_key (k : jstr) (xs : list X) (x : X) :
  In x (items_of k xs) -> In x xs /\ keyOf x = k.
Proof.
  intro H. apply filter_In in H as [H E]. apply eqb_eq in E. auto.
Qed.

End Upsert.

(** ** Merging rows into user-month records *)

Definition row_key (r : UserMonth) : jstr := um_key (user_id r) (month r).

Lemma merge_row_upsert : merge_row = upsert row_key fresh absorb.
Proof. reflexivity. Qed.

Lemma merged_NoDup (rows : list UserMonth) : NoDup (map fst (merged rows)).
Proof.
  unfold merged. rewrite merge_row_upsert. apply upsert_fold_NoDup. constructor.
Qed.

Definition group (k : jstr) (rows : list UserMonth) : list UserMonth :=
  items_of row_key k rows.

Lemma absorb_all (rs : list UserMonth) (cur : UserMonth) :
  user_id (fold_left absorb rs cur) = user_id cur /\
  month (fold_left absorb rs cur) = month cur /\
  text (fold_left absorb rs cur) = fold_left append_text (map text rs) (text cur).
Proof.
  revert cur. induction rs as [|r rs IH]; intro cur; simpl.
  - auto.
  - destruct (IH (absorb cur r)) as (-> & -> & ->). auto.
Qed.

Lemma append_texts_from (l : list jstr) (acc : jstr) :
  acc <> [] ->
  fold_left append_text l acc = Js.join [Js.LF] (acc :: l).
Proof.
  revert acc. induction l as [|t l IH]; intros acc Hacc.
  - reflexivity.
  - simpl fold_left. rewrite IH.
    + unfold append_text. destruct acc; [contradiction|]. simpl Js.truthy. cbn iota.
      destruct l as [|t' l]; simpl; now rewrite <- ?app_assoc.
    + unfold append_text. destruct acc; [contradiction|]. discriminate.
Qed.

Lemma append_texts (l : list jstr) :
  fold_left append_text l [] = Js.join [Js.LF] (Js.dropWhile is_empty l).
Proof.
  induction l as [|t l IH]; simpl.
  - reflexivity.
  - destruct t as [|c t]; simpl.
    + exact IH.
    + change (append_text [] (c :: t)) with (c :: t).
      now rewrite append_texts_from.
Qed.

(** A merged record was stored under the key of its own user and month,
    and holds the texts of the rows of that key. *)
Lemma merged_entry (rows : list UserMonth) (k : jstr) (rec : UserMonth) :
  In (k, rec) (merged rows) ->
  k = row_key rec /\
  (exists r, In r rows /\ user_id rec = user_id r /\ month rec = month r) /\
  group k rows <> [] /\
  text rec = fold_left append_text (map text (group k rows)) [].
Proof.
  unfold merged. rewrite merge_row_upsert. intro H.
  apply upsert_fold_entry in H as (r & rs & G & ->).
  fold (group k rows) in G.
  destruct (absorb_all (r :: rs) (fresh r)) as (Hu & Hm & Ht).
  assert (X : In r (group k rows)) by (rewrite G; now left).
  apply items_of_key in X as [Xr X].
  split; [| split; [| split]].
  - unfold row_key at 1. rewrite Hu, Hm. symmetry. exact X.
  - exists r. auto.
  - rewrite G. discriminate.
  - rewrite G. exact Ht.
Qed.

Lemma merged_record (rows : list UserMonth) (rec : UserMonth) :
  In rec (Js.map_values (merged rows)) ->
  (exists r, In r rows /\ user_id rec = user_id r /\ month rec = month r) /\
  group (row_key rec) rows <> [] /\
  text rec = fold_left append_text (map text (group (row_key rec) rows)) [].
Proof.
  unfold Js.map_values. intro H. apply in_map_iff in H as ([k v] & E & H).
  simpl in E. subst v.
  destruct (merged_entry _ _ _ H) as (-> & H1 & H2 & H3). auto.
Qed.

(** Two merged records of one user and month are one record. *)
Lemma merged_unique (rows : list UserMonth) (x y : UserMonth) :
  In x (Js.map_values (merged rows)) ->
  In y (Js.map_values (merged rows)) ->
  user_id x = user_id y -> month x = month y -> x = y.
Proof.
  unfold Js.map_values. intros Hx Hy Eu Em.
  apply in_map_iff in Hx as ([kx vx] & Ex & Hx).
  apply in_map_iff in Hy as ([ky vy] & Ey & Hy).
  simpl in Ex, Ey. subst vx vy.
  destruct (merged_entry _ _ _ Hx) as (Kx & _).
  destruct (merged_entry _ _ _ Hy) as (Ky & _).
  assert (K : kx = ky) by (rewrite Kx, Ky; unfold row_key; now rewrite Eu, Em).
  subst ky.
  apply In_map_get in Hx, Hy; try apply merged_NoDup. congruence.
Qed.

Lemma split_at_first {A} (x : A) (a b r1 r2 : list A) :
  ~ In x a -> ~ In x b -> a ++ x :: r1 = b ++ x :: r2 -> a = b /\ r1 = r2.
Proof.
  revert b. induction a as [|y a IH]; intros [|z b] Ha Hb E; simpl in *.
  - injection E as ->. auto.
  - injection E as <- _. tauto.
  - injection E as -> _. tauto.
  - injection E as -> E. destruct (IH b) as [-> ->]; auto.
Qed.

Lemma um_key_inj (u1 m1 u2 m2 : jstr) :
  ~ In 95 m1 -> ~ In 95 m2 ->
  um_key u1 m1 = um_key u2 m2 -> u1 = u2 /\ m1 = m2.
Proof.
  intros H1 H2 E. unfold um_key in E.
  apply (f_equal (@rev Z)) in E. rewrite !rev_app_distr in E.
  change (rev SEP) with [95; 95] in E. rewrite <- !app_assoc in E. simpl in E.
  apply split_at_first in E; [| now rewrite <- in_rev | now rewrite <- in_rev].
  destruct E as [Em Eu]. injection Eu as Eu.
  apply (f_equal (@rev Z)) in Em, Eu. rewrite !rev_involutive in Em, Eu. auto.
Qed.

Definition month_unit (c : Z) : Prop := Js.is_digit c = true \/ c = 45.

Lemma month_unit_not_95 (m : jstr) : Forall month_unit m -> ~ In 95 m.
Proof.
  intros F H. rewrite Forall_forall in F. destruct (F _ H) as [D | D]; discriminate.
Qed.

Lemma merged_has_record (rows : list UserMonth) (r : UserMonth) :
  Forall (fun x => Forall month_unit (month x)) rows ->
  In r rows ->
  exists rec, In rec (Js.map_values (merged rows)) /\
              user_id rec = user_id r /\ month rec = month r.
Proof.
  intros F H.
  destruct (upsert_fold_has row_key fresh absorb rows r H) as (r0 & rs & G & I).
  assert (Y : In r0 (items_of row_key (row_key r) rows)) by (rewrite G; now left).
  apply items_of_key in Y as [R0 K].
  exists (fold_left absorb (r0 :: rs) (fresh r0)). split.
  - unfold Js.map_values, merged. rewrite merge_row_upsert.
    apply (in_map snd _ _ I).
  - destruct (absorb_all (r0 :: rs) (fresh r0)) as (Hu & Hm & _).
    rewrite Hu, Hm. simpl.
    rewrite Forall_forall in F.
    apply um_key_inj in K; [exact K | |]; apply month_unit_not_95; now apply F.
Qed.

Lemma digits_of_pos_units (fuel : nat) (n : Z) (acc : jstr) :
  0 <= n -> Forall month_unit acc ->
  Forall month_unit (Js.digits_of_pos fuel n acc).
Proof.
  revert n acc. induction fuel as [|fuel IH]; intros n acc Hn Hacc;
    cbn [Js.digits_of_pos].
  - assumption.
  - destruct (Z.ltb_spec n 10).
    + constructor; [|assumption]. left. unfold Js.is_digit.
      apply andb_true_iff. split; apply Z.leb_le; lia.
    + apply IH.
      * apply Z.div_pos; lia.
      * constructor; [|assumption]. left. unfold Js.is_digit.
        pose proof (Z.mod_pos_bound n 10 ltac:(lia)).
        apply andb_true_iff. split; apply Z.leb_le; lia.
Qed.

Lemma of_int_units (n : Z) : Forall month_unit (Js.of_int n).
Proof.
  unfold Js.of_int. destruct (Z.ltb_spec n 0).
  - constructor; [now right|]. apply digits_of_pos_units; [lia | constructor].
  - apply digits_of_pos_units; [lia | constructor].
Qed.

Lemma padStart2_units (s : jstr) :
  Forall month_unit s -> Forall month_unit (Js.padStart2 s).
Proof.
  intro F. destruct s as [|c [|d s]]; simpl.
  - repeat constructor.
  - constructor; [now left | assumption].
  - assumption.
Qed.

Lemma month_prefix_units (t m : jstr) :
  month_prefix t = Some m -> Forall month_unit m.
Proof.
  unfold month_prefix.
  destruct t as [|a [|b [|c [|d [|h [|e [|f t]]]]]]]; try discriminate.
  destruct (forallb _ _ && _) eqn:E; [|discriminate].
  intros [= <-]. apply andb_true_iff in E as [E1 E2].
  apply Z.eqb_eq in E2. subst h. simpl in E1.
  repeat (apply andb_true_iff in E1 as [? E1]).
  repeat (apply Forall_cons; [first [left; assumption | right; reflexivity] |]).
  constructor.
Qed.

Lemma month_match_units (t m : jstr) :
  month_match t = Some m -> Forall month_unit m.
Proof.
  induction t as [|c t IH]; intro H.
  - discriminate H.
  - change (month_match (c :: t))
      with (match month_prefix (c :: t) with
            | Some m => Some m
            | None => month_match t
            end) in H.
    destruct (month_prefix (c :: t)) as [m'|] eqn:E.
    + injection H as <-. eapply month_prefix_units; eassumption.
    + now apply IH.
Qed.

Lemma monthFromDateString_units (s : option jstr) :
  Forall month_unit (monthFromDateString s).
Proof.
  unfold monthFromDateString.
  destruct (negb _); [constructor|].
  destruct (month_prefix _) as [m|] eqn:E.
  - destruct (Js.eqb m _) eqn:E'.
    + apply eqb_eq in E'. rewrite <- E'. eapply month_prefix_units; eassumption.
    + destruct (month_match _) as [m'|] eqn:M.
      * eapply month_match_units; eassumption.
      * destruct (dateParse _) as [[yyyy mon]|]; [|constructor].
        apply Forall_app. split; [apply of_int_units|].
        constructor; [now right|]. apply padStart2_units, of_int_units.
  - destruct (month_match _) as [m'|] eqn:M.
    + eapply month_match_units; eassumption.
    + destruct (dateParse _) as [[yyyy mon]|]; [|constructor].
      apply Forall_app. split; [apply of_int_units|].
      constructor; [now right|]. apply padStart2_units, of_int_units.
Qed.

Lemma normalize_row_month (hasMonth : bool) (r : JsObj) (x : UserMonth) :
  normalize_row hasMonth r = Some x -> Forall month_unit (month x).
Proof.
  unfold normalize_row.
  destruct (negb _ || negb _); [discriminate|].
  intros [= <-]. simpl. destruct hasMonth; apply monthFromDateString_units.
Qed.

Lemma normalized_rows_month (rawRows : list JsObj) :
  Forall (fun x => Forall month_unit (month x)) (normalized_rows rawRows).
Proof.
  unfold normalized_rows. destruct rawRows as [|first rest]; [constructor|].
  apply Forall_forall. intros x H. apply in_flat_map in H as (r & _ & H).
  destruct (normalize_row _ r) eqn:E; [|contradiction].
  destruct H as [<- | []]. eapply normalize_row_month; eassumption.
Qed.

Lemma group_contributing (rows : list UserMonth) (rec : UserMonth) :
  Forall (fun x => Forall month_unit (month x)) rows ->
  Forall month_unit (month rec) ->
  group (row_key rec) rows = contributing rows rec.
Proof.
  intros F Fr. unfold group, items_of, contributing. apply filter_ext_in. intros r Hr.
  rewrite Forall_forall in F. unfold same_group.
  destruct (Js.eqb (row_key r) (row_key rec)) eqn:E.
  - apply eqb_eq in E. apply um_key_inj in E as [-> ->].
    + now rewrite !eqb_refl.
    + apply month_unit_not_95. now apply F.
    + now apply month_unit_not_95.
  - symmetry. apply andb_false_iff.
    destruct (Js.eqb (user_id r) (user_id rec)) eqn:E1; [|now left].
    destruct (Js.eqb (month r) (month rec)) eqn:E2; [|now right].
    apply eqb_eq in E1, E2. apply eqb_neq in E. elim E.
    unfold row_key. now rewrite E1, E2.
Qed.

(** C2, as the code has it: every merged record has contributing rows,
    and its text is the newline-join of their extracted texts in input
    order once the empty texts before the first non-empty one are left
    out (the separator is added only to a non-empty accumulated text);
    it is the newline-join of all of them when the first contributing
    text is not empty.  Every normalised row is merged into the record
    of its user and month. *)
Theorem merged_text_is_join_after_leading_empty :
  forall rawRows : list JsObj,
    let rows := normalized_rows rawRows in
    Forall (fun rec =>
              let texts := map text (contributing rows rec) in
              texts <> [] /\
              text rec = Js.join [Js.LF] (Js.dropWhile is_empty texts) /\
              (is_empty (hd [] texts) = false -> text rec = Js.join [Js.LF] texts))
           (userMonthRows rows) /\
    Forall (fun r =>
              Exists (fun rec => user_id rec = user_id r /\ month rec = month r)
                     (userMonthRows rows))
           rows.
Proof.
  intros rawRows rows.
  pose proof (normalized_rows_month rawRows) as F. fold rows in F.
  split.
  - apply Forall_forall. intros rec Hrec.
    unfold userMonthRows in Hrec. apply sort_In in Hrec.
    destruct (merged_record _ _ Hrec) as ((r & Hr & Hu & Hm) & Hg & Ht).
    assert (Fr : Forall month_unit (month rec)).
    { rewrite Hm. rewrite Forall_forall in F. now apply F. }
    rewrite group_contributing in Hg, Ht by assumption.
    rewrite append_texts in Ht.
    cbv zeta. split; [| split].
    + intro E. apply map_eq_nil in E. contradiction.
    + exact Ht.
    + intro Hne. rewrite Ht.
      destruct (map text (contributing rows rec)) as [|t ts]; [reflexivity|].
      simpl in Hne. simpl. now rewrite Hne.
  - apply Forall_forall. intros r Hr. apply Exists_exists.
    destruct (merged_has_record rows r F Hr) as (rec & Hrec & Hu & Hm).
    exists rec. split; [|auto].
    unfold userMonthRows. now apply sort_In.
Qed.

(** ** Aggregation *)

Lemma set_add_In (x u : jstr) (l : list jstr) :
  In u (Js.set_add x l) <-> u = x \/ In u l.
Proof.
  unfold Js.set_add. destruct (Js.mem x l) eqn:E.
  - apply mem_In in E. split; [intro H; now right | intros [-> | H]; assumption].
  - rewrite in_app_iff. simpl. split.
    + intros [H | [H | []]]; [now right | left; now symmetry].
    + intros [-> | H]; [right; now left | now left].
Qed.

Lemma set_add_NoDup (x : jstr) (l : list jstr) :
  NoDup l -> NoDup (Js.set_add x l).
Proof.
  intro N. unfold Js.set_add. destruct (Js.mem x l) eqn:E; [assumption|].
  apply NoDup_app; [assumption | repeat constructor; intros [] |].
  intros y Hy [<- | []].
  apply mem_In in Hy. congruence.
Qed.

Lemma count_for_upsert (r : Classified) (agg : Js.JsMap Bucket) (p : jstr) :
  count_for r agg p = upsert bucket_key bucket_init bucket_add agg (r, p).
Proof. reflexivity. Qed.

Lemma aggregate_upsert (mode : Mode) (cl : list Classified) :
  aggregate mode cl
  = fold_left (upsert bucket_key bucket_init bucket_add) (contributions mode cl) [].
Proof.
  unfold aggregate, contributions.
  generalize (@nil (jstr * Bucket)) as agg.
  induction cl as [|r cl IH]; intro agg; simpl.
  - reflexivity.
  - rewrite fold_left_app, IH. f_equal.
    unfold count_record.
    generalize (personasToCount mode r) as ps. clear.
    intro ps. revert agg. induction ps as [|p ps IH]; intro agg; simpl.
    + reflexivity.
    + now rewrite IH.
Qed.

(** What a bucket holds after the contributions [g] were added to it. *)
Lemma bucket_fold (g : list (Classified * jstr)) (b0 : Bucket) :
  let b := fold_left bucket_add g b0 in
  b_month b = b_month b0 /\ b_persona b = b_persona b0 /\
  (forall u, In u (users b) <->
     In u (users b0) \/ exists rp, In rp g /\ c_user_id (fst rp) = u) /\
  (forall u, In u (retainedUsers b) <->
     In u (retainedUsers b0) \/
     exists rp, In rp g /\ c_user_id (fst rp) = u /\
                c_active_next_month (fst rp) = true) /\
  (forall u, In u (churnedUsers b) <->
     In u (churnedUsers b0) \/
     exists rp, In rp g /\ c_user_id (fst rp) = u /\
                c_active_next_month (fst rp) = false) /\
  (NoDup (users b0) -> NoDup (users b)) /\
  (NoDup (retainedUsers b0) -> NoDup (retainedUsers b)) /\
  (NoDup (churnedUsers b0) -> NoDup (churnedUsers b)).
Proof.
  revert b0. induction g as [|rp g IH]; intro b0; cbv zeta.
  - simpl. repeat split; auto; try (intros [H | (rp & [] & _)]; assumption).
  - simpl fold_left.
    destruct (IH (bucket_add b0 rp)) as (Hm & Hp & Hu & Hr & Hc & Nu & Nr & Nc).
    cbv zeta in *. rewrite Hm, Hp. simpl b_month. simpl b_persona.
    split; [reflexivity|]. split; [reflexivity|].
    split; [| split; [| split; [| split; [| split]]]].
    + intro u. rewrite Hu. simpl users. rewrite set_add_In. split.
      * intros [[-> | H] | (rp' & H & E)]; eauto.
        -- right. exists rp. split; [now left | reflexivity].
        -- right. exists rp'. split; [now right | assumption].
      * intros [H | (rp' & [<- | H] & E)]; eauto.
    + intro u. rewrite Hr. simpl retainedUsers.
      destruct (c_active_next_month (fst rp)) eqn:A.
      * rewrite set_add_In. split.
        -- intros [[-> | H] | (rp' & H & E)]; eauto.
           ++ right. exists rp. split; [now left | auto].
           ++ right. exists rp'. split; [now right | assumption].
        -- intros [H | (rp' & [<- | H] & E & E')]; eauto.
      * split.
        -- intros [H | (rp' & H & E)]; eauto.
           right. exists rp'. split; [now right | assumption].
        -- intros [H | (rp' & [<- | H] & E & E')]; eauto. congruence.
    + intro u. rewrite Hc. simpl churnedUsers.
      destruct (c_active_next_month (fst rp)) eqn:A.
      * split.
        -- intros [H | (rp' & H & E)]; eauto.
           right. exists rp'. split; [now right | assumption].
        -- intros [H | (rp' & [<- | H] & E & E')]; eauto. congruence.
      * rewrite set_add_In. split.
        -- intros [[-> | H] | (rp' & H & E)]; eauto.
           ++ right. exists rp. split; [now left | auto].
           ++ right. exists rp'. split; [now right | assumption].
        -- intros [H | (rp' & [<- | H] & E & E')]; eauto.
    + intro N. apply Nu. simpl. now apply set_add_NoDup.
    + intro N. apply Nr. simpl.
      destruct (c_active_next_month (fst rp)); [now apply set_add_NoDup | assumption].
    + intro N. apply Nc. simpl.
      destruct (c_active_next_month (fst rp)); [assumption | now apply set_add_NoDup].
Qed.

Lemma persona_key_cases (p : jstr) :
  In p (map key PERSONAS) ->
  p = TRUST_EROSION \/ p = EMOTIONAL \/ p = ESCALATION \/ p = RELIABILITY \/
  p = OVERLOAD \/ p = VETERAN \/ p = SUGGESTION.
Proof.
  simpl. intro H.
  repeat (destruct H as [<- | H]; [auto 10 |]).
  contradiction.
Qed.

(** Bucket keys tell months and personas apart: no persona key ends in
    the separator followed by another persona key. *)
Lemma keyFor_inj (m1 p1 m2 p2 : jstr) :
  In p1 (map key PERSONAS) -> In p2 (map key PERSONAS) ->
  keyFor m1 p1 = keyFor m2 p2 -> m1 = m2 /\ p1 = p2.
Proof.
  intros H1 H2 E. unfold keyFor in E.
  apply (f_equal (@rev Z)) in E. rewrite !rev_app_distr in E.
  apply persona_key_cases in H1, H2.
  assert (P : p1 = p2).
  { destruct H1 as [-> | [-> | [-> | [-> | [-> | [-> | ->]]]]]];
      destruct H2 as [-> | [-> | [-> | [-> | [-> | [-> | ->]]]]]];
      try reflexivity; vm_compute in E; discriminate E. }
  subst p2. split; [|reflexivity].
  apply app_inv_head in E.
  apply (f_equal (@rev Z)) in E. now rewrite !rev_involutive in E.
Qed.

Lemma classify_row_fields (keywords : Keywords) (pres : Js.JsMap bool) (x : UserMonth) :
  c_user_id (classify_row keywords pres x) = user_id x /\
  c_month (classify_row keywords pres x) = month x /\
  c_text (classify_row keywords pres x) = text x /\
  dominant_persona (classify_row keywords pres x)
    = fst (classifyDominantPersona (text x) keywords) /\
  flags (classify_row keywords pres x)
    = snd (classifyDominantPersona (text x) keywords) /\
  c_active_next_month (classify_row keywords pres x) = resolve_active pres x.
Proof.
  unfold classify_row. destruct (classifyDominantPersona (text x) keywords).
  repeat split.
Qed.

Lemma classified_source (keywords : Keywords) (rows : list UserMonth) (c : Classified) :
  In c (computed_classified keywords rows) ->
  exists x, In x (Js.map_values (merged rows)) /\
            c = classify_row keywords (presence (userMonthRows rows)) x.
Proof.
  unfold computed_classified, classified. intro H.
  apply in_map_iff in H as (x & <- & H).
  exists x. split; [|reflexivity].
  unfold userMonthRows in H. now apply sort_In in H.
Qed.

(** There is one classified record per user and month. *)
Lemma classified_unique (keywords : Keywords) (rows : list UserMonth) (c1 c2 : Classified) :
  In c1 (computed_classified keywords rows) ->
  In c2 (computed_classified keywords rows) ->
  c_user_id c1 = c_user_id c2 -> c_month c1 = c_month c2 -> c1 = c2.
Proof.
  intros H1 H2 Eu Em.
  apply classified_source in H1 as (x1 & X1 & ->).
  apply classified_source in H2 as (x2 & X2 & ->).
  destruct (classify_row_fields keywords (presence (userMonthRows rows)) x1)
    as (U1 & M1 & _).
  destruct (classify_row_fields keywords (presence (userMonthRows rows)) x2)
    as (U2 & M2 & _).
  rewrite U1, U2 in Eu. rewrite M1, M2 in Em.
  now rewrite (merged_unique rows x1 x2 X1 X2 Eu Em).
Qed.

Lemma counted_persona (keywords : Keywords) (rows : list UserMonth) (mode : Mode)
      (c : Classified) (p : jstr) :
  In c (computed_classified keywords rows) ->
  In p (personasToCount mode c) -> In p (map key PERSONAS).
Proof.
  intros H Hp. destruct mode; unfold personasToCount in Hp.
  - apply classified_source in H as (x & _ & ->).
    destruct (classify_row_fields keywords (presence (userMonthRows rows)) x)
      as (_ & _ & _ & D & _).
    rewrite D in Hp.
    destruct (fst (classifyDominantPersona (text x) keywords)) as [d|] eqn:E;
      [|contradiction].
    destruct (Js.truthy d); [|contradiction].
    destruct Hp as [<- | []]. eapply dominant_is_persona; eassumption.
  - now apply filter_In in Hp as [Hp _].
Qed.

Lemma contributions_In (mode : Mode) (cl : list Classified) (rp : Classified * jstr) :
  In rp (contributions mode cl) <->
  In (fst rp) cl /\ In (snd rp) (personasToCount mode (fst rp)).
Proof.
  unfold contributions. rewrite in_flat_map. split.
  - intros (r & Hr & H). apply in_map_iff in H as (p & <- & Hp). auto.
  - intros [Hr Hp]. exists (fst rp). split; [assumption|].
    apply in_map_iff. exists (snd rp). split; [now destruct rp | assumption].
Qed.

(** What an entry of the aggregation map holds, in terms of the
    classified records. *)
Lemma agg_entry (keywords : Keywords) (rows : list UserMonth) (mode : Mode)
      (k : jstr) (b : Bucket) :
  let cl := computed_classified keywords rows in
  In (k, b) (aggregate mode cl) ->
  k = keyFor (b_month b) (b_persona b) /\
  In (b_persona b) (map key PERSONAS) /\
  (forall u, In u (users b) <->
     exists r, In r cl /\ c_user_id r = u /\ c_month r = b_month b /\
               In (b_persona b) (personasToCount mode r)) /\
  (forall u, In u (retainedUsers b) <->
     exists r, In r cl /\ c_user_id r = u /\ c_month r = b_month b /\
               In (b_persona b) (personasToCount mode r) /\
               c_active_next_month r = true) /\
  (forall u, In u (churnedUsers b) <->
     exists r, In r cl /\ c_user_id r = u /\ c_month r = b_month b /\
               In (b_persona b) (personasToCount mode r) /\
               c_active_next_month r = false) /\
  NoDup (users b) /\ NoDup (retainedUsers b) /\ NoDup (churnedUsers b) /\
  users b <> [].
Proof.
  intros cl H. rewrite aggregate_upsert in H.
  apply upsert_fold_entry in H as (x & g & G & ->).
  set (items := items_of bucket_key k (contributions mode cl)) in *.
  assert (I : forall rp, In rp (x :: g) <->
                         In rp (contributions mode cl) /\ bucket_key rp = k).
  { intro rp. rewrite <- G. unfold items, items_of. rewrite filter_In.
    now rewrite eqb_eq. }
  assert (Px : In (snd x) (map key PERSONAS)).
  { assert (X : In x (x :: g)) by now left.
    apply I in X as [X _]. apply contributions_In in X as [X1 X2].
    eapply counted_persona; eassumption. }
  assert (Kx : bucket_key x = k) by (apply I; now left).
  assert (J : forall rp, In rp (x :: g) <->
                In (fst rp) cl /\ In (snd rp) (personasToCount mode (fst rp)) /\
                c_month (fst rp) = c_month (fst x) /\ snd rp = snd x).
  { intro rp. rewrite I, contributions_In. split.
    - intros [[H1 H2] H3]. repeat split; auto.
      + rewrite <- Kx in H3. unfold bucket_key in H3.
        apply keyFor_inj in H3 as [H3 _]; auto.
        eapply counted_persona; eassumption.
      + rewrite <- Kx in H3. unfold bucket_key in H3.
        apply keyFor_inj in H3 as [_ H3]; auto.
        eapply counted_persona; eassumption.
    - intros (H1 & H2 & H3 & H4). repeat split; auto.
      rewrite <- Kx. unfold bucket_key. now rewrite H3, H4. }
  pose proof (bucket_fold (x :: g) (bucket_init x)) as BF. cbv zeta in BF.
  set (B := fold_left bucket_add (x :: g) (bucket_init x)) in *.
  destruct BF as (Hm & Hp & Hu & Hr & Hc & Nu & Nr & Nc).
  change (b_month (bucket_init x)) with (c_month (fst x)) in Hm.
  change (b_persona (bucket_init x)) with (snd x) in Hp.
  rewrite Hm, Hp.
  split; [symmetry; exact Kx|]. split; [exact Px|].
  split; [| split; [| split; [| split; [| split; [| split]]]]].
  - intro u. rewrite Hu. simpl. split.
    + intros [[] | (rp & Hrp & E)]. apply J in Hrp as (H1 & H2 & H3 & H4).
      exists (fst rp). rewrite <- H4. auto.
    + intros (r & H1 & H2 & H3 & H4). right. exists (r, snd x).
      split; [| assumption]. apply J. simpl. auto.
  - intro u. rewrite Hr. simpl. split.
    + intros [[] | (rp & Hrp & E & A)]. apply J in Hrp as (H1 & H2 & H3 & H4).
      exists (fst rp). rewrite <- H4. auto.
    + intros (r & H1 & H2 & H3 & H4 & H5). right. exists (r, snd x).
      split; [| auto]. apply J. simpl. auto.
  - intro u. rewrite Hc. simpl. split.
    + intros [[] | (rp & Hrp & E & A)]. apply J in Hrp as (H1 & H2 & H3 & H4).
      exists (fst rp). rewrite <- H4. auto.
    + intros (r & H1 & H2 & H3 & H4 & H5). right. exists (r, snd x).
      split; [| auto]. apply J. simpl. auto.
  - apply Nu. constructor.
  - apply Nr. constructor.
  - apply Nc. constructor.
  - intro E.
    assert (X : In (c_user_id (fst x)) (users B)).
    { apply Hu. right. exists x. split; [now left | reflexivity]. }
    rewrite E in X. contradiction.
Qed.

Lemma disjoint_sizes (us rs cs : list jstr) :
  NoDup us -> NoDup rs -> NoDup cs ->
  (forall u, In u us <-> In u rs \/ In u cs) ->
  (forall u, In u rs -> In u cs -> False) ->
  Js.set_size rs + Js.set_size cs = Js.set_size us.
Proof.
  intros Nu Nr Nc Hu Hd. unfold Js.set_size.
  rewrite <- Nat2Z.inj_add, <- length_app. f_equal.
  apply Permutation_length. apply NoDup_Permutation.
  - apply NoDup_app; eauto.
  - assumption.
  - intro u. rewrite in_app_iff. symmetry. apply Hu.
Qed.

Lemma agg_entry_sizes (keywords : Keywords) (rows : list UserMonth) (mode : Mode)
      (k : jstr) (b : Bucket) :
  In (k, b) (aggregate mode (computed_classified keywords rows)) ->
  Js.set_size (retainedUsers b) + Js.set_size (churnedUsers b) = Js.set_size (users b)
  /\ 1 <= Js.set_size (users b).
Proof.
  intro H. destruct (agg_entry keywords rows mode k b H)
    as (_ & _ & Hu & Hr & Hc & Nu & Nr & Nc & Ne).
  split.
  - apply disjoint_sizes; auto.
    + intro u. rewrite Hu, Hr, Hc. split.
      * intros (r & H1 & H2 & H3 & H4).
        destruct (c_active_next_month r) eqn:A; [left | right]; exists r; auto.
      * intros [(r & H1 & H2 & H3 & H4 & _) | (r & H1 & H2 & H3 & H4 & _)];
          exists r; auto.
    + intros u H1 H2. apply Hr in H1 as (r1 & I1 & U1 & M1 & _ & A1).
      apply Hc in H2 as (r2 & I2 & U2 & M2 & _ & A2).
      assert (E : r1 = r2).
      { eapply classified_unique; eauto; congruence. }
      subst r2. congruence.
  - unfold Js.set_size. destruct (users b) as [|u0 us]; [contradiction|].
    cbn [List.length]. lia.
Qed.

(** ** Rows by persona and deltas *)

Lemma group_row_upsert :
  group_row = upsert a_persona (fun _ => []) (fun arr r => arr ++ [r]).
Proof. reflexivity. Qed.

Lemma push_all (l acc : list AggRow) :
  fold_left (fun arr r => arr ++ [r]) l acc = acc ++ l.
Proof.
  revert acc. induction l as [|r l IH]; intro acc; simpl.
  - now rewrite app_nil_r.
  - rewrite IH. now rewrite <- app_assoc.
Qed.

Definition rows_of (p : jstr) (rows : list AggRow) : list AggRow :=
  items_of a_persona p rows.

Lemma byPersona_get (rows : list AggRow) (p : jstr) :
  Js.map_get (byPersona rows) p
  = match rows_of p rows with
    | [] => None
    | l => Some l
    end.
Proof.
  unfold byPersona. rewrite group_row_upsert, upsert_fold_get.
  fold (rows_of p rows). destruct (rows_of p rows) as [|x g]; [reflexivity|].
  now rewrite push_all.
Qed.

Lemma byPersona_entry (rows : list AggRow) (p : jstr) (arr : list AggRow) :
  In (p, arr) (byPersona rows) -> arr = rows_of p rows.
Proof.
  intro H. apply In_map_get in H.
  - rewrite byPersona_get in H. destruct (rows_of p rows); congruence.
  - unfold byPersona. rewrite group_row_upsert. apply upsert_fold_NoDup. constructor.
Qed.

Lemma with_deltas_base (prev : option AggRow) (arr : list AggRow) :
  map base (with_deltas prev arr) = arr.
Proof.
  revert prev. induction arr as [|cur arr IH]; intro prev; simpl.
  - reflexivity.
  - now rewrite IH.
Qed.

Lemma persona_series_base (arr : list AggRow) (o : OutRow) :
  In o (persona_series arr) -> In (base o) arr.
Proof.
  intro H. apply (in_map base) in H.
  unfold persona_series in H. rewrite with_deltas_base in H.
  now apply sort_In in H.
Qed.

Lemma outRows_base (rows : list AggRow) (o : OutRow) :
  In o (outRows rows) -> In (base o) rows.
Proof.
  unfold outRows. intro H. apply in_flat_map in H as (arr & Harr & H).
  unfold Js.map_values in Harr. apply in_map_iff in Harr as ([p arr'] & E & Harr).
  simpl in E. subst arr'. apply byPersona_entry in Harr. subst arr.
  apply persona_series_base in H.
  now apply items_of_key in H as [H _].
Qed.

Lemma outRows_complete (rows : list AggRow) (a : AggRow) :
  In a rows -> exists o, In o (outRows rows) /\ base o = a.
Proof.
  intro H.
  assert (I : In a (rows_of (a_persona a) rows))
    by (apply filter_In; split; [assumption | apply eqb_refl]).
  pose proof (byPersona_get rows (a_persona a)) as G.
  destruct (rows_of (a_persona a) rows) as [|x g] eqn:E; [contradiction|].
  apply map_get_In in G.
  assert (S : In a (map base (persona_series (x :: g)))).
  { unfold persona_series. rewrite with_deltas_base. now apply sort_In. }
  apply in_map_iff in S as (o & Ho & S). exists o. split; [|assumption].
  unfold outRows. apply in_flat_map. exists (x :: g). split; [|assumption].
  unfold Js.map_values. apply (in_map snd _ _ G).
Qed.

Lemma ratio_bounds (r u : Z) :
  0 <= r <= u -> 1 <= u ->
  (0 <= inject_Z r / inject_Z u)%Q /\ (inject_Z r / inject_Z u <= 1)%Q.
Proof.
  intros Hr Hu.
  assert (P : (0 < inject_Z u)%Q) by (change 0%Q with (inject_Z 0); rewrite <- Zlt_Qlt; lia).
  split.
  - apply Qle_shift_div_l; [assumption|]. rewrite Qmult_0_l.
    change 0%Q with (inject_Z 0). rewrite <- Zle_Qle. lia.
  - apply Qle_shift_div_r; [assumption|]. rewrite Qmult_1_l.
    rewrite <- Zle_Qle. lia.
Qed.

(** C6: in both modes, every emitted month x persona aggregate has
    [retained + churned = users] with at least one user, its retention
    is [retained / users] (the guard for [users = 0] never fires), and
    the retention lies between 0 and 1.  Every bucket of the aggregation
    is emitted. *)
Theorem aggregate_consistency :
  forall (keywords : Keywords) (mode : Mode) (rows : list UserMonth),
    let agg := aggregate mode (computed_classified keywords rows) in
    Forall (fun o =>
              let a := base o in
              a_retained a + a_churned a = a_users a /\
              1 <= a_users a /\
              a_retention a
                = (if a_users a =? 0 then 0
                   else inject_Z (a_retained a) / inject_Z (a_users a))%Q /\
              a_retention a = (inject_Z (a_retained a) / inject_Z (a_users a))%Q /\
              (0 <= a_retention a)%Q /\ (a_retention a <= 1)%Q)
           (computed_outRows keywords mode rows) /\
    Forall (fun a => Exists (fun o => base o = a) (computed_outRows keywords mode rows))
           (agg_rows agg).
Proof.
  intros keywords mode rows agg. split.
  - apply Forall_forall. intros o Ho.
    unfold computed_outRows in Ho. apply outRows_base in Ho.
    unfold agg_rows, Js.map_values in Ho. rewrite map_map in Ho.
    apply in_map_iff in Ho as ([k b] & E & Ho). simpl in E.
    destruct (agg_entry_sizes keywords rows mode k b Ho) as [S1 S2].
    cbv zeta. rewrite <- E. unfold agg_row. cbn [a_retained a_churned a_users a_retention].
    assert (Z0 : (Js.set_size (users b) =? 0) = false) by (apply Z.eqb_neq; lia).
    rewrite Z0.
    assert (R0 : 0 <= Js.set_size (retainedUsers b)) by (unfold Js.set_size; lia).
    assert (C0 : 0 <= Js.set_size (churnedUsers b)) by (unfold Js.set_size; lia).
    destruct (ratio_bounds (Js.set_size (retainedUsers b)) (Js.set_size (users b)))
      as [B1 B2]; [lia | lia |].
    repeat split; auto.
  - apply Forall_forall. intros a Ha. apply Exists_exists.
    unfold computed_outRows. fold agg.
    destruct (outRows_complete _ _ Ha) as (o & Ho & E). eauto.
Qed.

(** ** The delta chain *)

Lemma filter_all {A} (f : A -> bool) (l : list A) :
  (forall x, In x l -> f x = true) -> filter f l = l.
Proof.
  induction l as [|x l IH]; intro H; simpl.
  - reflexivity.
  - rewrite (H x (or_introl eq_refl)). f_equal. apply IH. intros y Hy. apply H. now right.
Qed.

Lemma filter_none {A} (f : A -> bool) (l : list A) :
  (forall x, In x l -> f x = false) -> filter f l = [].
Proof.
  induction l as [|x l IH]; intro H; simpl.
  - reflexivity.
  - rewrite (H x (or_introl eq_refl)). apply IH. intros y Hy. apply H. now right.
Qed.

Lemma series_of_entries (rows : list AggRow) (p : jstr) (M : Js.JsMap (list AggRow)) :
  NoDup (map fst M) ->
  (forall k arr, In (k, arr) M -> arr = rows_of k rows) ->
  series_of p (flat_map persona_series (Js.map_values M))
  = match Js.map_get M p with
    | Some arr => persona_series arr
    | None => []
    end.
Proof.
  unfold series_of, Js.map_values.
  induction M as [|[k arr] M IH]; intros N H; simpl.
  - reflexivity.
  - inversion N as [|? ? N1 N2]; subst.
    rewrite filter_app. rewrite IH; [| assumption | intros k' arr' H'; apply H; now right].
    assert (P : forall o, In o (persona_series arr) -> a_persona (base o) = k).
    { intros o Ho. apply persona_series_base in Ho.
      rewrite (H k arr (or_introl eq_refl)) in Ho.
      now apply items_of_key in Ho as [_ Ho]. }
    destruct (Js.eqb p k) eqn:E.
    + apply eqb_eq in E. subst k.
      rewrite filter_all by (intros o Ho; rewrite (P o Ho); apply eqb_refl).
      apply map_get_none in N1. rewrite N1. apply app_nil_r.
    + rewrite filter_none; [reflexivity|].
      intros o Ho. rewrite (P o Ho). now rewrite eqb_sym.
Qed.

Lemma outRows_series (rows : list AggRow) (p : jstr) :
  series_of p (outRows rows) = persona_series (rows_of p rows).
Proof.
  unfold outRows. rewrite (series_of_entries rows).
  - rewrite byPersona_get. destruct (rows_of p rows); reflexivity.
  - unfold byPersona. rewrite group_row_upsert. apply upsert_fold_NoDup. constructor.
  - apply byPersona_entry.
Qed.

Lemma with_deltas_nth (arr : list AggRow) (prev : option AggRow) (i : nat) (o : OutRow) :
  nth_error (with_deltas prev arr) i = Some o ->
  exists cur,
    nth_error arr i = Some cur /\
    o = mkOutRow cur
          (option_map (fun p => (a_retention cur - a_retention p)%Q)
             (match i with O => prev | S j => nth_error arr j end))
          (option_map (fun p => a_users cur - a_users p)
             (match i with O => prev | S j => nth_error arr j end)).
Proof.
  revert prev i. induction arr as [|a arr IH]; intros prev i H.
  - destruct i; discriminate H.
  - destruct i as [|i]; simpl in H.
    + injection H as <-. exists a. split; reflexivity.
    + apply IH in H as (cur & Hc & ->). exists cur. split; [assumption|].
      destruct i; reflexivity.
Qed.

Lemma with_deltas_chained (arr : list AggRow) (i : nat) (o : OutRow) :
  nth_error (with_deltas None arr) i = Some o ->
  chained (with_deltas None arr) i o.
Proof.
  intro H. pose proof H as H'.
  apply with_deltas_nth in H' as (cur & Hc & ->).
  destruct i as [|j]; simpl.
  - split; reflexivity.
  - assert (L : (j < List.length arr)%nat).
    { apply Nat.lt_succ_l. apply nth_error_Some. congruence. }
    destruct (nth_error arr j) as [pa|] eqn:Ej;
      [| apply nth_error_None in Ej; lia].
    assert (Lo : (j < List.length (with_deltas None arr))%nat).
    { rewrite <- (length_map base), with_deltas_base. exact L. }
    destruct (nth_error (with_deltas None arr) j) as [po|] eqn:Eo;
      [| apply nth_error_None in Eo; lia].
    exists po. split; [reflexivity|].
    apply with_deltas_nth in Eo as (pa' & Ea & ->).
    assert (pa' = pa) by congruence. subst pa'.
    split; reflexivity.
Qed.

Section SortedOutput.
Context {A : Type} (cmp : A -> A -> Z).
Hypothesis cmp_total : forall a b, cmp a b <= 0 \/ cmp b a <= 0.
Hypothesis cmp_trans : forall a b c, cmp a b <= 0 -> cmp b c <= 0 -> cmp a c <= 0.

Lemma insert_sorted (x : A) (l : list A) :
  StronglySorted (fun a b => cmp a b <= 0) l ->
  StronglySorted (fun a b => cmp a b <= 0) (Js.insert cmp x l).
Proof using cmp_total cmp_trans.
  induction l as [|y l IH]; intro S; simpl.
  - repeat constructor.
  - inversion S as [|? ? S' F]; subst.
    destruct (Z.leb_spec (cmp x y) 0) as [L | L].
    + constructor; [assumption|]. constructor; [assumption|].
      eapply Forall_impl; [| exact F]. intros z Hz. eapply cmp_trans; eassumption.
    + constructor; [now apply IH|].
      apply Forall_forall. intros z Hz.
      apply (Permutation_in _ (insert_perm cmp x l)) in Hz.
      destruct Hz as [<- | Hz].
      * destruct (cmp_total y x); [assumption | lia].
      * rewrite Forall_forall in F. now apply F.
Qed.

Lemma sort_sorted (l : list A) :
  StronglySorted (fun a b => cmp a b <= 0) (Js.sort cmp l).
Proof using cmp_total cmp_trans.
  induction l as [|x l IH]; simpl.
  - constructor.
  - now apply insert_sorted.
Qed.

End SortedOutput.

Lemma NoDup_map_filter {A B C} (f : A -> B) (g : A -> C) (P : A -> bool) (l : list A) :
  NoDup (map f l) ->
  (forall x y, In x l -> In y l -> P x = true -> P y = true -> g x = g y -> f x = f y) ->
  NoDup (map g (filter P l)).
Proof.
  induction l as [|x l IH]; intros N H; simpl.
  - constructor.
  - inversion N as [|? ? N1 N2]; subst.
    assert (IH' : NoDup (map g (filter P l))).
    { apply IH; [assumption|]. intros a b Ha Hb. apply H; now right. }
    destruct (P x) eqn:Px; [|assumption].
    simpl. constructor; [|assumption].
    intro I. apply in_map_iff in I as (y & E & Hy). apply filter_In in Hy as [Hy Py].
    apply N1. apply in_map_iff. exists y. split; [|assumption].
    apply H; auto; [now right | now left].
Qed.

(** A persona has at most one aggregate per month. *)
Lemma rows_of_months (keywords : Keywords) (rows : list UserMonth) (mode : Mode) (p : jstr) :
  NoDup (map a_month
           (rows_of p (agg_rows (aggregate mode (computed_classified keywords rows))))).
Proof.
  set (agg := aggregate mode (computed_classified keywords rows)).
  unfold rows_of, items_of, agg_rows, Js.map_values.
  rewrite map_map.
  assert (E : forall l : Js.JsMap Bucket,
             map a_month
               (filter (fun x => Js.eqb (a_persona x) p) (map (fun x => agg_row (snd x)) l))
             = map (fun kb => b_month (snd kb))
                 (filter (fun kb => Js.eqb (b_persona (snd kb)) p) l)).
  { induction l as [|kb l IH]; simpl; [reflexivity|].
    destruct (Js.eqb (b_persona (snd kb)) p); simpl; now rewrite IH. }
  rewrite E. apply (NoDup_map_filter fst).
  - subst agg. rewrite aggregate_upsert. apply upsert_fold_NoDup. constructor.
  - intros [k1 b1] [k2 b2] H1 H2 P1 P2 Em. simpl in *.
    apply eqb_eq in P1, P2.
    destruct (agg_entry keywords rows mode _ _ H1) as (K1 & _).
    destruct (agg_entry keywords rows mode _ _ H2) as (K2 & _).
    rewrite K1, K2. congruence.
Qed.

(** The delta chain of one persona, for any collation; the statement of
    ascending order is for a collation that is a total preorder. *)
Lemma delta_chain (keywords : Keywords) (mode : Mode) (rows : list UserMonth) (p : jstr) :
  let aggs := agg_rows (aggregate mode (computed_classified keywords rows)) in
  let series := series_of p (computed_outRows keywords mode rows) in
  map base series = Js.sort month_compare (rows_of p aggs) /\
  Permutation (map base series) (rows_of p aggs) /\
  NoDup (map (fun o => a_month (base o)) series) /\
  (forall i o, nth_error series i = Some o -> chained series i o) /\
  ((forall a b, localeCompare a b <= 0 \/ localeCompare b a <= 0) ->
   (forall a b c, localeCompare a b <= 0 -> localeCompare b c <= 0 ->
                  localeCompare a c <= 0) ->
   StronglySorted
     (fun x y => localeCompare (a_month (base x)) (a_month (base y)) <= 0) series).
Proof.
  intros aggs series.
  assert (E : series = persona_series (rows_of p aggs))
    by (apply outRows_series).
  assert (B : map base series = Js.sort month_compare (rows_of p aggs))
    by (rewrite E; apply with_deltas_base).
  split; [exact B|]. split; [rewrite B; apply sort_perm|].
  split; [| split].
  - rewrite <- (map_map base a_month), B.
    eapply Permutation_NoDup; [| apply (rows_of_months keywords rows mode p)].
    apply Permutation_map. symmetry. apply sort_perm.
  - rewrite E. intros i o. apply with_deltas_chained.
  - intros T R.
    assert (S : StronglySorted (fun a b => month_compare a b <= 0) (map base series)).
    { rewrite B. apply sort_sorted.
      - intros a b. apply T.
      - intros a b c. apply R. }
    clear - S. induction series as [|x l IH]; simpl in S.
    + constructor.
    + inversion S as [|? ? S' F]; subst. constructor; [now apply IH|].
      rewrite Forall_map in F. exact F.
Qed.

(** ** Contributions by mode *)

Lemma persona_key_truthy (p : jstr) :
  In p (map key PERSONAS) -> Js.truthy p = true.
Proof.
  intro H. apply persona_key_cases in H.
  destruct H as [-> | [-> | [-> | [-> | [-> | [-> | ->]]]]]]; reflexivity.
Qed.

Lemma bucket_users_spec (keywords : Keywords) (rows : list UserMonth) (mode : Mode)
      (m p u : jstr) :
  let cl := computed_classified keywords rows in
  In p (map key PERSONAS) ->
  (In u (bucket_users (aggregate mode cl) m p) <->
   exists r, In r cl /\ c_user_id r = u /\ c_month r = m /\
             In p (personasToCount mode r)).
Proof.
  intros cl Hp. unfold bucket_users. split.
  - destruct (Js.map_get (aggregate mode cl) (keyFor m p)) as [b|] eqn:E;
      [|contradiction].
    apply map_get_In in E.
    destruct (agg_entry keywords rows mode _ _ E) as (K & P & Hu & _).
    apply keyFor_inj in K as [-> ->]; auto.
    intro H. now apply Hu.
  - intros (r & Hr & Hu & Hm & Hc).
    assert (C : In (r, p) (contributions mode cl)) by (apply contributions_In; auto).
    destruct (upsert_fold_has bucket_key bucket_init bucket_add _ _ C)
      as (x0 & g & _ & I).
    rewrite <- aggregate_upsert in I.
    assert (G : Js.map_get (aggregate mode cl) (keyFor m p)
                = Some (fold_left bucket_add (x0 :: g) (bucket_init x0))).
    { unfold bucket_key in I. simpl in I. rewrite Hm in I.
      apply In_map_get; [|exact I].
      rewrite aggregate_upsert. apply upsert_fold_NoDup. constructor. }
    rewrite G.
    apply map_get_In in G.
    destruct (agg_entry keywords rows mode _ _ G) as (K & P & Hx & _).
    apply keyFor_inj in K as [K1 K2]; auto.
    apply Hx. exists r. rewrite <- K1, <- K2. auto.
Qed.

(** C8: under mode [dominant] a classified record is counted for its
    dominant persona alone, and for none when it has none; under mode
    [multi] it is counted for every persona of the catalog whose flag
    is set.  For each mode, the users of the bucket of a month and
    persona are the users of the records of that month counted for
    that persona.  A record flagged for escalation and overload gives
    one user to both buckets under [multi], and to the escalation
    bucket only under [dominant]. *)
Theorem counted_personas_by_mode :
  forall (keywords : Keywords) (rows : list UserMonth),
    let cl := computed_classified keywords rows in
    Forall (fun r =>
              personasToCount Dominant r
                = match dominant_persona r with
                  | Some d => [d]
                  | None => []
                  end /\
              (forall k, In k (personasToCount Multi r) <->
                         In k (map key PERSONAS) /\ flag (flags r) k = true))
           cl /\
    (forall mode : Mode,
        Forall (fun p =>
                  forall m u : jstr,
                    In u (bucket_users (aggregate mode cl) m (key p)) <->
                    exists r, In r cl /\ c_user_id r = u /\ c_month r = m /\
                              In (key p) (personasToCount mode r))
               PERSONAS) /\
    (let row := mkUserMonth (Js.lit "u1") (Js.lit "2025-09")
                  (Js.lit "Nog steeds onduidelijk.") [] in
     let counts (mode : Mode) :=
       map (fun o => (a_month (base o), a_persona (base o), a_users (base o)))
           (computed_outRows DEFAULT_KEYWORDS mode [row]) in
     map (fun r => (dominant_persona r, flag (flags r) ESCALATION, flag (flags r) OVERLOAD))
         (computed_classified DEFAULT_KEYWORDS [row])
       = [(Some ESCALATION, true, true)] /\
     counts Multi = [(Js.lit "2025-09", ESCALATION, 1); (Js.lit "2025-09", OVERLOAD, 1)] /\
     counts Dominant = [(Js.lit "2025-09", ESCALATION, 1)]).
Proof.
  intros keywords rows cl. split; [| split].
  - apply Forall_forall. intros r Hr. split.
    + unfold personasToCount.
      destruct (dominant_persona r) as [d|] eqn:D; [|reflexivity].
      assert (P : In d (personasToCount Dominant r) -> In d (map key PERSONAS))
        by (apply (counted_persona keywords rows Dominant r d Hr)).
      unfold personasToCount in P. rewrite D in P.
      destruct (Js.truthy d) eqn:T; [reflexivity|].
      pose proof Hr as Hr'. apply classified_source in Hr' as (x & _ & ->).
      destruct (classify_row_fields keywords (presence (userMonthRows rows)) x)
        as (_ & _ & _ & D' & _).
      rewrite D' in D. apply dominant_is_persona in D.
      apply persona_key_truthy in D. congruence.
    + intro k. unfold personasToCount. apply filter_In.
  - intro mode. apply Forall_forall. intros p Hp m u.
    apply bucket_users_spec. now apply in_map.
  - vm_compute. repeat split; reflexivity.
Qed.

(** ** Retention resolution *)

Lemma digits_of_pos_S (fuel : nat) (n : Z) (acc : jstr) :
  Js.digits_of_pos (S fuel) n acc
  = if n <? 10 then (48 + n) :: acc
    else Js.digits_of_pos fuel (n / 10) ((48 + n mod 10) :: acc).
Proof. reflexivity. Qed.

Lemma digits_of_pos_acc (fuel : nat) (n : Z) (acc : jstr) :
  Js.digits_of_pos fuel n acc = Js.digits_of_pos fuel n [] ++ acc.
Proof.
  revert n acc. induction fuel as [|fuel IH]; intros n acc; cbn [Js.digits_of_pos].
  - reflexivity.
  - destruct (n <? 10); [reflexivity|].
    rewrite IH. rewrite (IH _ [_]). now rewrite <- app_assoc.
Qed.

Lemma digits_value_app (l r : jstr) (a : Z) :
  forallb Js.is_digit l = true ->
  Js.digits_value (l ++ r) a = Js.digits_value r (Js.digits_value l a).
Proof.
  revert a. induction l as [|c l IH]; intros a H; simpl in *.
  - reflexivity.
  - apply andb_true_iff in H as [H1 H2]. rewrite H1. now apply IH.
Qed.

Lemma is_digit_48 (d : Z) : 0 <= d < 10 -> Js.is_digit (48 + d) = true.
Proof.
  intro H. unfold Js.is_digit. apply andb_true_iff. split; apply Z.leb_le; lia.
Qed.

(** With enough fuel the digits of [n] are decimal digits that read
    back as [n]. *)
Lemma digits_of_pos_value (fuel : nat) (n : Z) :
  0 <= n < 2 ^ Z.of_nat (S fuel) ->
  let ds := Js.digits_of_pos (S fuel) n [] in
  forallb Js.is_digit ds = true /\ ds <> [] /\ Js.digits_value ds 0 = n.
Proof.
  revert n. induction fuel as [|fuel IH]; intros n H; cbv zeta.
  - change (2 ^ Z.of_nat 1) with 2 in H. rewrite digits_of_pos_S.
    destruct (Z.ltb_spec n 10); [|lia].
    cbn [forallb Js.digits_value]. rewrite is_digit_48 by lia.
    repeat split; [discriminate | lia].
  - rewrite digits_of_pos_S. destruct (Z.ltb_spec n 10).
    + cbn [forallb Js.digits_value]. rewrite is_digit_48 by lia.
      repeat split; [discriminate | lia].
    + rewrite digits_of_pos_acc.
      assert (B : 0 <= n / 10 < 2 ^ Z.of_nat (S fuel)).
      { split; [apply Z.div_pos; lia|].
        apply Z.div_lt_upper_bound; [lia|].
        rewrite (Nat2Z.inj_succ (S fuel)), Z.pow_succ_r in H by lia. lia. }
      destruct (IH _ B) as (D & N & V). cbv zeta in D, N, V.
      pose proof (Z.mod_pos_bound n 10 ltac:(lia)) as M.
      split; [| split].
      * rewrite forallb_app, D. cbn [forallb]. now rewrite is_digit_48.
      * intro E. apply app_eq_nil in E as [_ E]. discriminate.
      * rewrite digits_value_app by assumption. rewrite V.
        cbn [Js.digits_value]. rewrite is_digit_48 by lia.
        pose proof (Z.div_mod n 10 ltac:(lia)). lia.
Qed.

Lemma of_int_value (n : Z) :
  0 <= n ->
  forallb Js.is_digit (Js.of_int n) = true /\ Js.of_int n <> [] /\
  Js.digits_value (Js.of_int n) 0 = n.
Proof.
  intro H. unfold Js.of_int. destruct (Z.ltb_spec n 0); [lia|].
  apply digits_of_pos_value. split; [assumption|].
  rewrite Nat2Z.inj_succ, Z2Nat.id by apply Z.log2_nonneg.
  destruct (Z.eq_dec n 0) as [-> | N]; [reflexivity|].
  apply Z.log2_spec. lia.
Qed.

Lemma padStart2_value (ds : jstr) :
  forallb Js.is_digit ds = true -> ds <> [] ->
  forallb Js.is_digit (Js.padStart2 ds) = true /\ Js.padStart2 ds <> [] /\
  Js.digits_value (Js.padStart2 ds) 0 = Js.digits_value ds 0.
Proof.
  intros D N. destruct ds as [|c [|d ds]]; [contradiction | |].
  - cbn [Js.padStart2]. simpl in D. apply andb_true_iff in D as [D _].
    cbn [forallb Js.digits_value]. rewrite D.
    change (Js.is_digit 48) with true. cbn [andb].
    split; [reflexivity|]. split; [discriminate | lia].
  - cbn [Js.padStart2]. repeat split; assumption.
Qed.

Lemma digit_not_space (c : Z) : Js.is_digit c = true -> Js.is_space c = false.
Proof.
  unfold Js.is_digit, Js.is_space. intro H.
  apply andb_true_iff in H as [H1 H2]. apply Z.leb_le in H1, H2.
  repeat (apply orb_false_iff; split);
    try (apply Z.eqb_neq; lia).
  apply andb_false_iff. left. apply Z.leb_gt. lia.
Qed.

Lemma parseInt10_digits (ds : jstr) :
  forallb Js.is_digit ds = true -> ds <> [] ->
  Js.parseInt10 ds = Some (Js.digits_value ds 0).
Proof.
  intros D N. destruct ds as [|c ds]; [contradiction|].
  pose proof D as D'. simpl in D'. apply andb_true_iff in D' as [Dc _].
  unfold Js.parseInt10, Js.trimStart. cbn [Js.dropWhile].
  rewrite (digit_not_space c Dc).
  unfold Js.is_digit in Dc. apply andb_true_iff in Dc as [L U].
  apply Z.leb_le in L, U.
  destruct (Z.eqb_spec c 45); [lia|]. destruct (Z.eqb_spec c 43); [lia|].
  unfold Js.parse_digits. unfold Js.is_digit.
  replace (48 <=? c) with true by (symmetry; apply Z.leb_le; lia).
  replace (c <=? 57) with true by (symmetry; apply Z.leb_le; lia).
  reflexivity.
Qed.

Lemma split_on_digits (ds : jstr) (rest : jstr) :
  forallb Js.is_digit ds = true ->
  Js.split_on 45 (ds ++ 45 :: rest) = ds :: Js.split_on 45 rest.
Proof.
  induction ds as [|c ds IH]; intro D.
  - reflexivity.
  - simpl in D. apply andb_true_iff in D as [Dc D].
    change ((c :: ds) ++ 45 :: rest) with (c :: (ds ++ 45 :: rest)).
    cbn [Js.split_on]. rewrite (IH D).
    unfold Js.is_digit in Dc. apply andb_true_iff in Dc as [L U].
    apply Z.leb_le in L, U.
    destruct (Z.eqb_spec c 45); [lia | reflexivity].
Qed.

Lemma split_on_no_sep (ds : jstr) :
  forallb Js.is_digit ds = true -> Js.split_on 45 ds = [ds].
Proof.
  induction ds as [|c ds IH]; intro D.
  - reflexivity.
  - simpl in D. apply andb_true_iff in D as [Dc D].
    cbn [Js.split_on]. rewrite (IH D).
    unfold Js.is_digit in Dc. apply andb_true_iff in Dc as [L U].
    apply Z.leb_le in L, U.
    destruct (Z.eqb_spec c 45); [lia | reflexivity].
Qed.

(** [nextMonth] on a month written from its year and month number. *)
Lemma nextMonth_year_month (y m : Z) :
  1 <= y -> 1 <= m -> nextMonth (year_month y m) = successor y m.
Proof.
  intros Hy Hm.
  destruct (of_int_value y ltac:(lia)) as (Dy & Ny & Vy).
  destruct (of_int_value m ltac:(lia)) as (Dm & Nm & Vm).
  destruct (padStart2_value _ Dm Nm) as (Dp & Np & Vp).
  unfold nextMonth, year_month.
  change (Js.of_int y ++ [45] ++ Js.padStart2 (Js.of_int m))
    with (Js.of_int y ++ 45 :: Js.padStart2 (Js.of_int m)).
  rewrite split_on_digits by assumption.
  rewrite split_on_no_sep by assumption.
  cbn [map nth].
  rewrite !parseInt10_digits by assumption.
  rewrite Vp, Vy, Vm.
  destruct (Z.eqb_spec y 0); [lia|]. destruct (Z.eqb_spec m 0); [lia|].
  cbn [orb]. unfold successor, year_month.
  destruct (m =? 12); reflexivity.
Qed.

Lemma presence_has (umr : list UserMonth) (k : jstr) :
  Js.map_has (presence umr) k = true <->
  exists r, In r umr /\ um_key (user_id r) (month r) = k.
Proof.
  unfold presence.
  assert (G : forall m : Js.JsMap bool,
             Js.map_has
               (fold_left (fun m r => Js.map_set m (um_key (user_id r) (month r)) true)
                  umr m) k = true <->
             Js.map_has m k = true \/
             exists r, In r umr /\ um_key (user_id r) (month r) = k).
  { induction umr as [|r0 umr IH]; intro m; simpl.
    - split; [now left | intros [H | (r & [] & _)]; assumption].
    - rewrite IH. unfold Js.map_has at 1. rewrite map_get_set.
      destruct (Js.eqb k (um_key (user_id r0) (month r0))) eqn:E.
      + apply eqb_eq in E. split; [intros _ | now left].
        right. exists r0. split; [now left | now symmetry].
      + apply eqb_neq in E. fold (Js.map_has m k). split.
        * intros [H | (r & Hr & Hk)]; [now left |].
          right. exists r. split; [now right | assumption].
        * intros [H | (r & [<- | Hr] & Hk)]; [now left | congruence |].
          right. exists r. split; assumption. }
  rewrite G. split; [intros [H | H]; [discriminate H | exact H] | now right].
Qed.

Lemma year_month_units (y m : Z) : Forall month_unit (year_month y m).
Proof.
  unfold year_month. apply Forall_app. split; [apply of_int_units|].
  apply Forall_app. split; [repeat constructor; now right|].
  apply padStart2_units, of_int_units.
Qed.

Lemma of_int_four (y : Z) :
  1000 <= y <= 9999 -> exists a b c d, Js.of_int y = [a; b; c; d].
Proof.
  intro H. unfold Js.of_int. destruct (Z.ltb_spec y 0); [lia|].
  assert (L : 9 <= Z.log2 y).
  { change 9 with (Z.log2 512). apply Z.log2_le_mono. lia. }
  destruct (Z.to_nat (Z.log2 y)) as [|[|[|k]]] eqn:E; try lia.
  assert (Q1 : 100 <= y / 10 < 1000).
  { split; [apply Z.div_le_lower_bound; lia | apply Z.div_lt_upper_bound; lia]. }
  assert (Q2 : 10 <= y / 10 / 10 < 100).
  { split; [apply Z.div_le_lower_bound; lia | apply Z.div_lt_upper_bound; lia]. }
  assert (Q3 : 1 <= y / 10 / 10 / 10 < 10).
  { split; [apply Z.div_le_lower_bound; lia | apply Z.div_lt_upper_bound; lia]. }
  rewrite digits_of_pos_S. destruct (Z.ltb_spec y 10); [lia|].
  rewrite digits_of_pos_S. destruct (Z.ltb_spec (y / 10) 10); [lia|].
  rewrite digits_of_pos_S. destruct (Z.ltb_spec (y / 10 / 10) 10); [lia|].
  rewrite digits_of_pos_S. destruct (Z.ltb_spec (y / 10 / 10 / 10) 10); [|lia].
  eauto.
Qed.

Lemma padStart2_two (m : Z) :
  1 <= m <= 12 -> exists e f, Js.padStart2 (Js.of_int m) = [e; f].
Proof.
  intro H. unfold Js.of_int. destruct (Z.ltb_spec m 0); [lia|].
  rewrite digits_of_pos_S. destruct (Z.ltb_spec m 10).
  - cbn [Js.padStart2]. eauto.
  - assert (L : 3 <= Z.log2 m).
    { change 3 with (Z.log2 8). apply Z.log2_le_mono. lia. }
    destruct (Z.to_nat (Z.log2 m)) as [|k] eqn:E; [lia|].
    assert (Q : 1 <= m / 10 < 10).
    { split; [apply Z.div_le_lower_bound; lia | apply Z.div_lt_upper_bound; lia]. }
    rewrite digits_of_pos_S. destruct (Z.ltb_spec (m / 10) 10); [|lia].
    cbn [Js.padStart2]. eauto.
Qed.

(** The normaliser takes a month [YYYY-MM] as it is written. *)
Lemma monthFromDateString_year_month (y m : Z) :
  1000 <= y <= 9999 -> 1 <= m <= 12 ->
  monthFromDateString (Some (year_month y m)) = year_month y m.
Proof.
  intros Hy Hm.
  destruct (of_int_value y ltac:(lia)) as (Dy & _ & _).
  destruct (of_int_value m ltac:(lia)) as (Dm & Nm & _).
  destruct (padStart2_value _ Dm Nm) as (Dp & _ & _).
  destruct (of_int_four y Hy) as (a & b & c & d & Ey).
  destruct (padStart2_two m Hm) as (e & f & Em).
  unfold year_month. rewrite Ey, Em in *. clear Ey Em.
  cbn [forallb] in Dy, Dp.
  repeat match goal with
         | H : _ && _ = true |- _ => apply andb_true_iff in H as [? H]
         end.
  unfold monthFromDateString. cbn [Js.or_empty app].
  assert (T : Js.trim [a; b; c; d; 45; e; f] = [a; b; c; d; 45; e; f]).
  { unfold Js.trim, Js.trimStart, Js.trimEnd. cbn [Js.dropWhile].
    rewrite (digit_not_space a) by assumption.
    cbn [rev app Js.dropWhile]. now rewrite (digit_not_space f) by assumption. }
  rewrite T. cbn [Js.truthy negb].
  unfold month_prefix. cbn [forallb].
  repeat match goal with
         | H : Js.is_digit _ = true |- _ => rewrite H; clear H
         end.
  cbn [andb]. change (45 =? 45) with true. cbn iota.
  now rewrite eqb_refl.
Qed.

(** The retention resolver on the records of [userMonthRows]: an
    explicit value is true iff lowercased it is one of "1", "true",
    "yes", "y"; without one, a record of a month [YYYY-MM] with a year
    from 1000 to 9999 and a month from 01 to 12 resolves to true iff
    the same user has a record in the calendar-successor month. *)
Theorem retention_resolution :
  forall (keywords : Keywords) (rawRows : list JsObj),
    let rows := normalized_rows rawRows in
    let umr := userMonthRows rows in
    computed_classified keywords rows = map (classify_row keywords (presence umr)) umr /\
    Forall (fun r =>
              let resolved :=
                c_active_next_month (classify_row keywords (presence umr) r) in
              (active_next_month r <> [] ->
               (resolved = true <-> In (norm (active_next_month r)) TRUE_WORDS)) /\
              (active_next_month r = [] ->
               forall y m,
                 1000 <= y <= 9999 -> 1 <= m <= 12 -> month r = year_month y m ->
                 (resolved = true <->
                  exists r', In r' umr /\ user_id r' = user_id r /\
                             month r' = successor y m)))
           umr /\
    (forall y m, 1000 <= y <= 9999 -> 1 <= m <= 12 ->
                 monthFromDateString (Some (year_month y m)) = year_month y m).
Proof.
  intros keywords rawRows rows umr.
  split; [reflexivity|]. split; [| apply monthFromDateString_year_month].
  pose proof (normalized_rows_month rawRows) as F. fold rows in F.
  rewrite Forall_forall in F.
  assert (U : forall r', In r' umr -> Forall month_unit (month r')).
  { intros r' H. unfold umr, userMonthRows in H. apply sort_In in H.
    destruct (merged_record _ _ H) as ((r0 & H0 & _ & ->) & _). now apply F. }
  apply Forall_forall. intros r Hr. cbv zeta.
  destruct (classify_row_fields keywords (presence umr) r) as (_ & _ & _ & _ & _ & ->).
  unfold resolve_active. split.
  - intro Ne. apply eqb_neq in Ne. rewrite Ne. cbn [negb]. apply mem_In.
  - intros E y m Hy Hm Em. rewrite E. cbn [Js.eqb negb].
    rewrite Em, nextMonth_year_month by lia.
    rewrite presence_has. split.
    + intros (r' & Hr' & K). exists r'. split; [assumption|].
      apply um_key_inj in K; [exact K | |]; apply month_unit_not_95.
      * now apply U.
      * unfold successor. destruct (m =? 12); apply year_month_units.
    + intros (r' & Hr' & Eu & Emo). exists r'. split; [assumption|].
      now rewrite Eu, Emo.
Qed.


Lemma sort_two {A} (cmp : A -> A -> Z) (a b : A) :
  Js.sort cmp [a; b] = if cmp a b <=? 0 then [a; b] else [b; a].
Proof. reflexivity. Qed.

End Pipeline.

(* ================================================================== *)
(** * Scenarios *)

(** A collation that orders strings by their code units; it is the
    order of [localeCompare] on strings of ASCII digits and hyphens,
    such as the months. *)
Fixpoint compare_units (a b : jstr) : Z :=
  match a, b with
  | [], [] => 0
  | [], _ :: _ => -1
  | _ :: _, [] => 1
  | x :: a', y :: b' =>
      if x <? y then -1 else if y <? x then 1 else compare_units a' b'
  end.

(** A host whose [Date] parses nothing. *)
Definition no_date (t : jstr) : option (Z * Z) := None.

(** The two sample rows of the end-to-end scenario, under the header
    of the aggregate shape. *)
Definition SAMPLE_TWO_ROWS : jstr :=
  let q := [Js.DQUOTE] in
  Js.lit "user_id,month,text" ++ [Js.LF]
  ++ Js.lit "u1,2025-09," ++ q ++ Js.lit "Ik reken hierop, maar dit voelt niet veilig." ++ q
  ++ [Js.LF]
  ++ Js.lit "u1,2025-10," ++ q ++ Js.lit "Nog steeds onbetrouwbaar. Klaar mee." ++ q
  ++ [Js.LF].

(** One user, two rows of one month, the first with an empty text; the
    text is the second column. *)
Definition EMPTY_FIRST_TEXT : jstr :=
  Js.lit "user_id,text,month" ++ [Js.LF]
  ++ Js.lit "u1,,2025-09" ++ [Js.LF]
  ++ Js.lit "u1,hello,2025-09" ++ [Js.LF].

(** One user present in two consecutive months of the year 999. *)
Definition YEAR_999 : jstr :=
  Js.lit "user_id,month,text" ++ [Js.LF]
  ++ Js.lit "u1,0999-05,a" ++ [Js.LF]
  ++ Js.lit "u1,0999-06,b" ++ [Js.LF].

(** Escalation in 2025-08 (two users) and 2025-10 (one user); the only
    record of 2025-09 is of another persona. *)
Definition GAP_ROWS : list UserMonth :=
  [ mkUserMonth (Js.lit "u1") (Js.lit "2025-08") (Js.lit "Weer kapot.") (Js.lit "1");
    mkUserMonth (Js.lit "u2") (Js.lit "2025-08") (Js.lit "Opnieuw een fout.") [];
    mkUserMonth (Js.lit "u3") (Js.lit "2025-09") (Js.lit "Frustrerend!") [];
    mkUserMonth (Js.lit "u1") (Js.lit "2025-10") (Js.lit "Nog steeds kapot.") [] ].

(** The merge invariant in the words of the specification: the text of
    every merged record is the newline-join of all the texts of its
    contributing rows, empty ones included. *)
Definition merge_invariant_as_stated
    (dateParse : jstr -> option (Z * Z)) (localeCompare : jstr -> jstr -> Z)
    (rawRows : list JsObj) : Prop :=
  let rows := normalized_rows dateParse rawRows in
  Forall (fun rec => text rec = Js.join [Js.LF] (map text (contributing rows rec)))
         (userMonthRows localeCompare rows).

Lemma compare_units_total (a b : jstr) :
  compare_units a b <= 0 \/ compare_units b a <= 0.
Proof.
  revert b. induction a as [|x a IH]; intros [|y b]; simpl; try lia.
  destruct (Z.ltb_spec x y); [lia|].
  destruct (Z.ltb_spec y x); [lia|].
  apply IH.
Qed.

Lemma compare_units_trans (a b c : jstr) :
  compare_units a b <= 0 -> compare_units b c <= 0 -> compare_units a c <= 0.
Proof.
  revert b c. induction a as [|x a IH]; intros [|y b] [|z c]; simpl; try lia.
  destruct (Z.ltb_spec x y); destruct (Z.ltb_spec y x);
    destruct (Z.ltb_spec y z); destruct (Z.ltb_spec z y);
    destruct (Z.ltb_spec x z); destruct (Z.ltb_spec z x); try lia.
  apply IH.
Qed.

(** C1, on the code: for the two sample rows the text taken for a
    record is its second column, the month, because the second-column
    fallback of the text extraction comes before the [text] column; so
    no keyword matches and the 2025-09 record of u1 has no dominant
    persona.  Its resolved [active_next_month] is true. *)
Theorem sample_rows_classified :
  forall (dateParse : jstr -> option (Z * Z)) (localeCompare : jstr -> jstr -> Z),
    map pickSuggestionText (parseCSV SAMPLE_TWO_ROWS)
      = [Some (Js.lit "2025-09"); Some (Js.lit "2025-10")] /\
    Permutation
      (map (fun r => (c_user_id r, c_month r, c_text r, dominant_persona r,
                      c_active_next_month r))
           (computed_classified localeCompare DEFAULT_KEYWORDS
              (normalized_rows dateParse (parseCSV SAMPLE_TWO_ROWS))))
      [ (Js.lit "u1", Js.lit "2025-09", Js.lit "2025-09", None, true);
        (Js.lit "u1", Js.lit "2025-10", Js.lit "2025-10", None, false) ] /\
    fst (classifyDominantPersona
           (Js.lit "Ik reken hierop, maar dit voelt niet veilig.") DEFAULT_KEYWORDS)
      = Some TRUST_EROSION.
Proof.
  intros dateParse localeCompare.
  split; [vm_compute; reflexivity|]. split; [| vm_compute; reflexivity].
  unfold computed_classified, userMonthRows.
  assert (E : Js.map_values (merged (normalized_rows dateParse (parseCSV SAMPLE_TWO_ROWS)))
              = [ mkUserMonth (Js.lit "u1") (Js.lit "2025-09") (Js.lit "2025-09") [];
                  mkUserMonth (Js.lit "u1") (Js.lit "2025-10") (Js.lit "2025-10") [] ])
    by (vm_compute; reflexivity).
  rewrite E, sort_two.
  destruct (um_compare localeCompare _ _ <=? 0); vm_compute.
  - reflexivity.
  - apply perm_swap.
Qed.

(** C2, counterexample: with an empty first text the merged text is the
    second text alone, not the newline-join of both. *)
Lemma merged_text_drops_leading_empty :
  ~ merge_invariant_as_stated no_date compare_units (parseCSV EMPTY_FIRST_TEXT).
Proof.
  unfold merge_invariant_as_stated. cbv zeta. intro H.
  assert (E : userMonthRows compare_units
                (normalized_rows no_date (parseCSV EMPTY_FIRST_TEXT))
              = [mkUserMonth (Js.lit "u1") (Js.lit "2025-09") (Js.lit "hello") []])
    by (vm_compute; reflexivity).
  rewrite E in H. apply Forall_inv in H. vm_compute in H. discriminate H.
Qed.

(** C3, on the code: the successor of a month whose year is below 1000
    is written without the leading zeros of the year, so it is found
    in no record: u1 is present in 0999-06, yet [active_next_month] of
    the 0999-05 record resolves to false. *)
Theorem year_below_1000_not_inferred :
  forall (dateParse : jstr -> option (Z * Z)) (localeCompare : jstr -> jstr -> Z),
    nextMonth (Js.lit "0999-05") = Js.lit "999-06" /\
    map (fun r => (user_id r, month r, active_next_month r))
        (normalized_rows dateParse (parseCSV YEAR_999))
      = [ (Js.lit "u1", Js.lit "0999-05", []); (Js.lit "u1", Js.lit "0999-06", []) ] /\
    Permutation
      (map (fun r => (c_user_id r, c_month r, c_active_next_month r))
           (computed_classified localeCompare DEFAULT_KEYWORDS
              (normalized_rows dateParse (parseCSV YEAR_999))))
      [ (Js.lit "u1", Js.lit "0999-05", false);
        (Js.lit "u1", Js.lit "0999-06", false) ].
Proof.
  intros dateParse localeCompare.
  split; [vm_compute; reflexivity|]. split; [vm_compute; reflexivity|].
  unfold computed_classified, userMonthRows.
  assert (E : Js.map_values (merged (normalized_rows dateParse (parseCSV YEAR_999)))
              = [ mkUserMonth (Js.lit "u1") (Js.lit "0999-05") (Js.lit "0999-05") [];
                  mkUserMonth (Js.lit "u1") (Js.lit "0999-06") (Js.lit "0999-06") [] ])
    by (vm_compute; reflexivity).
  rewrite E, sort_two.
  destruct (um_compare localeCompare _ _ <=? 0); vm_compute.
  - reflexivity.
  - apply perm_swap.
Qed.

(** C7: for every persona, the emitted rows of the persona are its
    aggregates sorted by month (one per month; in ascending order when
    the collation is a total preorder); the deltas of the first are
    null and the deltas of every other row are the differences from
    the row just before it in that series, which is the aggregate of
    the nearest earlier month that has one: a month without aggregate
    for the persona is no element of the series.  With escalation
    aggregates for 2025-08 (2 users) and 2025-10 (1 user) and none for
    2025-09, [users_mom] of 2025-10 is 1 - 2. *)
Theorem deltas_follow_emitted_aggregates :
  (forall (localeCompare : jstr -> jstr -> Z) (keywords : Keywords) (mode : Mode)
          (rows : list UserMonth) (p : jstr),
      let aggs :=
        agg_rows (aggregate mode (computed_classified localeCompare keywords rows)) in
      let series := series_of p (computed_outRows localeCompare keywords mode rows) in
      map base series = Js.sort (month_compare localeCompare) (rows_of p aggs) /\
      Permutation (map base series) (rows_of p aggs) /\
      NoDup (map (fun o => a_month (base o)) series) /\
      (forall i o, nth_error series i = Some o -> chained series i o) /\
      ((forall a b, localeCompare a b <= 0 \/ localeCompare b a <= 0) ->
       (forall a b c, localeCompare a b <= 0 -> localeCompare b c <= 0 ->
                      localeCompare a c <= 0) ->
       StronglySorted
         (fun x y => localeCompare (a_month (base x)) (a_month (base y)) <= 0)
         series)) /\
  (let outs := computed_outRows compare_units DEFAULT_KEYWORDS Dominant GAP_ROWS in
   map (fun o => (a_month (base o), a_persona (base o))) outs
     = [ (Js.lit "2025-08", ESCALATION); (Js.lit "2025-10", ESCALATION);
         (Js.lit "2025-09", EMOTIONAL) ] /\
   map (fun o => (a_month (base o), a_users (base o), a_retention (base o),
                  users_mom o, retention_mom o))
       (series_of ESCALATION outs)
     = [ (Js.lit "2025-08", 2, (1 # 2)%Q, None, None);
         (Js.lit "2025-10", 1, (0 # 1)%Q, Some (-1), Some (-1 # 2)%Q) ]).
Proof.
  split.
  - intros. apply delta_chain.
  - vm_compute. split; reflexivity.
Qed.

(** C7 for the code-unit collation on the rows with a gap. *)
Lemma deltas_follow_emitted_aggregates_witness :
  StronglySorted
    (fun x y => compare_units (a_month (base x)) (a_month (base y)) <= 0)
    (series_of ESCALATION (computed_outRows compare_units DEFAULT_KEYWORDS Dominant GAP_ROWS)).
Proof.
  apply (proj1 deltas_follow_emitted_aggregates compare_units DEFAULT_KEYWORDS
           Dominant GAP_ROWS ESCALATION).
  - exact compare_units_total.
  - exact compare_units_trans.
Defined.

(** C4 on the header of the aggregate shape: three commas, no
    semicolon, no tab. *)
Lemma detectDelimiter_rule_witness :
  detectDelimiter (Js.lit "user_id,month,text,active_next_month") = Js.lit ",".
Proof.
  apply (proj1 (proj2 (proj2 (proj2
           (detectDelimiter_rule (Js.lit "user_id,month,text,active_next_month")))))).
  - reflexivity.
  - reflexivity.
  - vm_compute. discriminate.
Defined.

(** C5 on a text that matches keywords of veteran and trust_erosion. *)
Lemma dominant_by_priority_witness :
  fst (classifyDominantPersona
         (Js.lit "Al jaren klant, maar dit VOELT NIET VEILIG.") DEFAULT_KEYWORDS)
  = Some TRUST_EROSION.
Proof.
  apply (proj1 (proj2 (proj2 (proj2 (proj2
           (dominant_by_priority
              (Js.lit "Al jaren klant, maar dit VOELT NIET VEILIG.")
              DEFAULT_KEYWORDS)))))).
  - reflexivity.
  - reflexivity.
Defined.

(** C9 on a field that holds commas, quotes and a line break, read
    with the semicolon as delimiter. *)
Lemma quoted_field_roundtrip_witness :
  tokenize (Js.lit ";")
    (quote_field (Js.lit "a," ++ [Js.DQUOTE] ++ Js.lit "b;" ++ [Js.DQUOTE; Js.LF] ++ Js.lit "c"))
  = [[Js.lit "a," ++ [Js.DQUOTE] ++ Js.lit "b;" ++ [Js.DQUOTE; Js.LF] ++ Js.lit "c"]].
Proof.
  apply (proj1 (proj2 quoted_field_roundtrip)).
  discriminate.
Defined.

(** Three rows of one user and month, the second with an empty text. *)
Definition EMPTY_SECOND_TEXT : jstr :=
  Js.lit "user_id,text,month" ++ [Js.LF]
  ++ Js.lit "u1,hello,2025-09" ++ [Js.LF]
  ++ Js.lit "u1,,2025-09" ++ [Js.LF]
  ++ Js.lit "u1,again,2025-09".

(** C2 on three rows of one user and month whose first text is not
    empty: the merged text is the newline-join of the three texts. *)
Lemma merged_text_is_join_after_leading_empty_witness :
  let rows := normalized_rows no_date (parseCSV EMPTY_SECOND_TEXT) in
  let rec := mkUserMonth (Js.lit "u1") (Js.lit "2025-09")
               (Js.lit "hello" ++ [Js.LF; Js.LF] ++ Js.lit "again") [] in
  In rec (userMonthRows compare_units rows) /\
  text rec = Js.join [Js.LF] (map text (contributing rows rec)).
Proof.
  intros rows rec.
  assert (I : In rec (userMonthRows compare_units rows))
    by (vm_compute; left; reflexivity).
  split; [exact I|].
  pose proof (proj1 (merged_text_is_join_after_leading_empty no_date compare_units
                       (parseCSV EMPTY_SECOND_TEXT))) as H.
  cbv zeta in H. rewrite Forall_forall in H.
  apply (H rec I). vm_compute. reflexivity.
Defined.

(** A user present in December 2025 and January 2026. *)
Definition DECEMBER_JANUARY : jstr :=
  Js.lit "user_id,month,text" ++ [Js.LF]
  ++ Js.lit "u1,2025-12,a" ++ [Js.LF]
  ++ Js.lit "u1,2026-01,b".

(** The December record resolves to true: the successor month rolls
    over to January of the next year, where the user has a record. *)
Lemma retention_resolution_witness :
  let rows := normalized_rows no_date (parseCSV DECEMBER_JANUARY) in
  let umr := userMonthRows compare_units rows in
  let december := mkUserMonth (Js.lit "u1") (Js.lit "2025-12") (Js.lit "2025-12") [] in
  In december umr /\
  c_active_next_month (classify_row DEFAULT_KEYWORDS (presence umr) december) = true.
Proof.
  intros rows umr december.
  assert (I : In december umr) by (vm_compute; left; reflexivity).
  split; [exact I|].
  pose proof (proj1 (proj2 (retention_resolution no_date compare_units DEFAULT_KEYWORDS
                              (parseCSV DECEMBER_JANUARY)))) as H.
  cbv zeta in H. rewrite Forall_forall in H.
  destruct (H december I) as [_ H2].
  apply (H2 eq_refl 2025 12); [lia | lia | vm_compute; reflexivity |].
  exists (mkUserMonth (Js.lit "u1") (Js.lit "2026-01") (Js.lit "2026-01") []).
  split; [vm_compute; right; left; reflexivity |].
  split; vm_compute; reflexivity.
Defined.

(** The line break after the last row of a text of three rows. *)
Lemma trailing_line_break_adds_no_row_witness :
  parseCSV (DECEMBER_JANUARY ++ [Js.LF]) = parseCSV DECEMBER_JANUARY.
Proof.
  apply trailing_line_break_adds_no_row.
  vm_compute. reflexivity.
Defined.

(* ================================================================== *)
(** * Further properties of the parser and the normaliser *)

Section Rows.

#[local] Set Default Proof Using "Type".

Variable dateParse : jstr -> option (Z * Z).
Variable localeCompare : jstr -> jstr -> Z.

(** ** The row objects of one parse have one shape *)

Lemma obj_update_keys (k : jstr) (v : option jstr) (o : JsObj) :
  map fst (obj_update k v o)
  = if Js.mem k (map fst o) then map fst o else map fst o ++ [k].
Proof.
  induction o as [|[k' v'] o IH]; simpl.
  - reflexivity.
  - destruct (Js.eqb k k') eqn:E; simpl.
    + reflexivity.
    + rewrite IH. destruct (Js.mem k (map fst o)); reflexivity.
Qed.

Lemma fill_obj_keys (header : list jstr) (cells cells' : list jstr) (o o' : JsObj) :
  map fst o = map fst o' ->
  map fst (fill_obj header cells o) = map fst (fill_obj header cells' o').
Proof.
  revert cells cells' o o'.
  induction header as [|h header IH]; intros cells cells' o o' E; simpl.
  - exact E.
  - apply IH. unfold obj_set. destruct (Js.eqb h PROTO); [exact E|].
    now rewrite !obj_update_keys, E.
Qed.

Lemma insert_map {A B} (f : A -> B) (cmp : A -> A -> Z) (cmp' : B -> B -> Z)
      (x : A) (l : list A) :
  (forall a b, cmp' (f a) (f b) = cmp a b) ->
  map f (Js.insert cmp x l) = Js.insert cmp' (f x) (map f l).
Proof.
  intro H. induction l as [|y l IH]; simpl.
  - reflexivity.
  - rewrite H. destruct (cmp x y <=? 0); simpl; [reflexivity | now rewrite IH].
Qed.

Lemma sort_map {A B} (f : A -> B) (cmp : A -> A -> Z) (cmp' : B -> B -> Z)
      (l : list A) :
  (forall a b, cmp' (f a) (f b) = cmp a b) ->
  map f (Js.sort cmp l) = Js.sort cmp' (map f l).
Proof.
  intro H. induction l as [|x l IH]; simpl.
  - reflexivity.
  - rewrite (insert_map f cmp cmp') by assumption. now rewrite IH.
Qed.

(** [Object.keys] looks at the names of the properties only. *)
Lemma Object_keys_names (o o' : JsObj) :
  map fst o = map fst o' -> Object_keys o = Object_keys o'.
Proof.
  intro E. unfold Object_keys, obj_entries. rewrite !map_app. f_equal.
  - rewrite !map_map.
    rewrite <- !(map_map (fun x : Z * (jstr * option jstr) => (fst x, fst (snd x))) snd).
    rewrite !(sort_map (fun x : Z * (jstr * option jstr) => (fst x, fst (snd x)))
                (fun a b => fst a - fst b) (fun a b => fst a - fst b))
      by reflexivity.
    f_equal. f_equal. unfold index_props.
    revert o' E. induction o as [|[k v] o IH]; intros [|[k' v'] o'] E;
      try discriminate; [reflexivity|].
    simpl in E. injection E as -> E. simpl.
    destruct (array_index k'); simpl; now rewrite (IH o').
  - unfold name_props.
    revert o' E. induction o as [|[k v] o IH]; intros [|[k' v'] o'] E;
      try discriminate; [reflexivity|].
    simpl in E. injection E as -> E. simpl.
    destruct (array_index k'); simpl; now rewrite (IH o').
Qed.

(** Every object returned by [parseCSV] has the properties of the first
    one, in the same order, so that the schema read off the first row
    ([Object.keys(rawRows[0])]) is the schema of every row; and no
    returned object is blank. *)
Theorem parsed_rows_share_columns :
  forall text : jstr,
    Forall (fun o =>
              map fst o = map fst (hd [] (parseCSV text)) /\
              Object_keys o = Object_keys (hd [] (parseCSV text)) /\
              nonEmpty o = true)
           (parseCSV text).
Proof.
  intro text. unfold parseCSV, objects_of.
  set (rows := tokenize _ _). set (header := map Js.trim (hd [] rows)).
  destruct (_ || _); [constructor|].
  set (objs := filter nonEmpty _).
  assert (K : forall o, In o objs ->
                        map fst o = map fst (fill_obj header [] []) /\ nonEmpty o = true).
  { intros o H. apply filter_In in H as [H N]. split; [|exact N].
    apply in_map_iff in H as (cells & <- & _). now apply fill_obj_keys. }
  apply Forall_forall. intros o Ho.
  assert (E : map fst o = map fst (hd [] objs)).
  { destruct objs as [|o0 objs']; [contradiction|]. simpl.
    destruct (K o Ho) as [-> _]. destruct (K o0 (or_introl eq_refl)) as [-> _].
    reflexivity. }
  split; [exact E|]. split; [now apply Object_keys_names | now apply K].
Qed.

(** ** Normalised rows are well formed *)

Lemma dropWhile_head {A} (f : A -> bool) (l : list A) :
  match Js.dropWhile f l with
  | [] => True
  | x :: _ => f x = false
  end.
Proof.
  induction l as [|x l IH]; simpl; [exact I|].
  destruct (f x) eqn:E; [exact IH | exact E].
Qed.

Lemma dropWhile_snoc {A} (f : A -> bool) (l : list A) (x : A) :
  f x = false -> Js.dropWhile f (l ++ [x]) = Js.dropWhile f l ++ [x].
Proof.
  intro H. induction l as [|y l IH]; simpl.
  - now rewrite H.
  - destruct (f y); [exact IH | reflexivity].
Qed.

Lemma trim_ends (s : jstr) :
  Js.trim s = [] \/
  exists x m y, (Js.trim s = x :: m ++ [y] \/ (Js.trim s = [x] /\ x = y /\ m = [])) /\
                Js.is_space x = false /\ Js.is_space y = false.
Proof.
  unfold Js.trim, Js.trimEnd, Js.trimStart.
  pose proof (dropWhile_head Js.is_space s) as H.
  destruct (Js.dropWhile Js.is_space s) as [|x t]; [now left|].
  right. simpl rev. rewrite (dropWhile_snoc _ _ _ H), rev_app_distr. simpl.
  pose proof (dropWhile_head Js.is_space (rev t)) as H'.
  destruct (Js.dropWhile Js.is_space (rev t)) as [|y u] eqn:E.
  - exists x, [], x. split; [right; auto | auto].
  - exists x, (rev u), y. split; [left | auto].
    simpl. reflexivity.
Qed.

(** Trimming a trimmed string changes nothing. *)
Lemma trim_trim (s : jstr) : Js.trim (Js.trim s) = Js.trim s.
Proof.
  destruct (trim_ends s) as [-> | (x & m & y & [E | (E & -> & ->)] & Hx & Hy)].
  - reflexivity.
  - rewrite E. unfold Js.trim, Js.trimEnd, Js.trimStart.
    cbn [Js.dropWhile]. rewrite Hx.
    change (x :: m ++ [y]) with ((x :: m) ++ [y]).
    rewrite rev_app_distr. cbn [rev app Js.dropWhile]. rewrite Hy.
    cbn [rev]. rewrite rev_app_distr, rev_involutive. reflexivity.
  - rewrite E. unfold Js.trim, Js.trimEnd, Js.trimStart.
    cbn [Js.dropWhile rev app]. rewrite Hy. cbn [Js.dropWhile rev app].
    now rewrite Hy.
Qed.

Definition well_formed (r : UserMonth) : Prop :=
  user_id r <> [] /\ Js.trim (user_id r) = user_id r /\
  month r <> [] /\ Forall month_unit (month r) /\
  Js.trim (active_next_month r) = active_next_month r.

Lemma normalize_row_well_formed (hasMonth : bool) (o : JsObj) (r : UserMonth) :
  normalize_row dateParse hasMonth o = Some r -> well_formed r.
Proof.
  intro H. pose proof (normalize_row_month dateParse hasMonth o r H) as M.
  unfold normalize_row in H.
  destruct (negb (Js.truthy _) || negb (Js.truthy _)) eqn:E; [discriminate|].
  apply orb_false_iff in E as [E1 E2].
  apply negb_false_iff in E1, E2.
  injection H as <-. unfold well_formed. cbn [user_id month active_next_month] in *.
  repeat split.
  - intro N. rewrite N in E1. discriminate.
  - apply trim_trim.
  - intro N. rewrite N in E2. discriminate.
  - exact M.
  - apply trim_trim.
Qed.

(** Rows without a user or without a month that the normaliser can
    read are dropped: every normalised row, and every merged record,
    has a non-empty trimmed [user_id], a non-empty [month] made of
    decimal digits and hyphens, and a trimmed [active_next_month]. *)
Theorem normalised_records_well_formed :
  forall rawRows : list JsObj,
    Forall well_formed (normalized_rows dateParse rawRows) /\
    Forall well_formed (userMonthRows localeCompare (normalized_rows dateParse rawRows)).
Proof.
  intro rawRows.
  assert (N : Forall well_formed (normalized_rows dateParse rawRows)).
  { unfold normalized_rows. destruct rawRows as [|first rest]; [constructor|].
    apply Forall_forall. intros r H. apply in_flat_map in H as (o & _ & H).
    destruct (normalize_row _ _ o) eqn:E; [|contradiction].
    destruct H as [<- | []]. eapply normalize_row_well_formed; eassumption. }
  split; [exact N|].
  rewrite Forall_forall in N.
  apply Forall_forall. intros rec H.
  unfold userMonthRows in H. apply sort_In in H.
  unfold Js.map_values in H. apply in_map_iff in H as ([k v] & E & H).
  simpl in E. subst v.
  unfold merged in H. rewrite merge_row_upsert in H.
  apply upsert_fold_entry in H as (r & rs & G & ->).
  assert (A : forall g cur,
             (forall x, In x g -> well_formed x) ->
             Js.trim (active_next_month cur) = active_next_month cur ->
             Js.trim (active_next_month (fold_left absorb g cur))
             = active_next_month (fold_left absorb g cur)).
  { induction g as [|x g IH]; intros cur W C; simpl; [exact C|].
    apply IH; [intros y Hy; apply W; now right|].
    unfold absorb. cbn [active_next_month].
    destruct (negb _); [| exact C].
    now destruct (W x (or_introl eq_refl)) as (_ & _ & _ & _ & T). }
  assert (W : forall x, In x (r :: rs) -> well_formed x).
  { intros x Hx. rewrite <- G in Hx. apply items_of_key in Hx as [Hx _]. now apply N. }
  destruct (absorb_all (r :: rs) (fresh r)) as (Hu & Hm & _).
  destruct (W r (or_introl eq_refl)) as (U1 & U2 & M1 & M2 & T).
  unfold well_formed. rewrite Hu, Hm. cbn [fresh user_id month].
  repeat split; auto.
Qed.

(** ** The merged retention flag *)

Lemma absorb_flag (rs : list UserMonth) (cur : UserMonth) :
  active_next_month (fold_left absorb rs cur)
  = fold_left (fun acc a => if Js.truthy a then a else acc)
      (map active_next_month rs) (active_next_month cur).
Proof.
  revert cur. induction rs as [|r rs IH]; intro cur; simpl.
  - reflexivity.
  - rewrite IH. unfold absorb. cbn [active_next_month].
    now destruct (active_next_month r).
Qed.

Lemma last_cons {A} (a d : A) (l : list A) : last (a :: l) d = last l a.
Proof.
  revert a d. induction l as [|b l IH]; intros a d; [reflexivity|].
  change (last (a :: b :: l) d) with (last (b :: l) d).
  now rewrite (IH b d), (IH b a).
Qed.

Lemma fold_last_filled (l : list jstr) (acc : jstr) :
  fold_left (fun acc a => if Js.truthy a then a else acc) l acc
  = last (filter Js.truthy l) acc.
Proof.
  revert acc. induction l as [|a l IH]; intro acc; simpl.
  - reflexivity.
  - rewrite IH. destruct (Js.truthy a); [now rewrite last_cons | reflexivity].
Qed.

(** The [active_next_month] string of a merged record is the last
    non-empty one among its contributing rows, in input order, and is
    empty when they have none. *)
Theorem merged_flag_is_last_filled :
  forall rawRows : list JsObj,
    let rows := normalized_rows dateParse rawRows in
    Forall (fun rec =>
              active_next_month rec
              = last (filter Js.truthy (map active_next_month (contributing rows rec))) [])
           (userMonthRows localeCompare rows).
Proof.
  intros rawRows rows.
  pose proof (normalized_rows_month dateParse rawRows) as F. fold rows in F.
  apply Forall_forall. intros rec H.
  unfold userMonthRows in H. apply sort_In in H.
  unfold Js.map_values in H. apply in_map_iff in H as ([k v] & E & H).
  simpl in E. subst v.
  destruct (merged_entry _ _ _ H) as (K & (r0 & H0 & _ & M0) & _).
  assert (Fr : Forall month_unit (month rec)).
  { rewrite M0. rewrite Forall_forall in F. now apply F. }
  rewrite <- (group_contributing rows rec F Fr), <- K.
  unfold merged in H. rewrite merge_row_upsert in H.
  apply upsert_fold_entry in H as (r & rs & G & ->).
  fold (group k rows) in G. rewrite G.
  rewrite absorb_flag, fold_last_filled. cbn [fresh active_next_month map filter].
  destruct (active_next_month r) as [|c a] eqn:A; cbn [Js.truthy].
  - reflexivity.
  - now rewrite !last_cons.
Qed.

(** ** The order of the records *)

Section Ordered.
Hypothesis lc_total : forall a b, localeCompare a b <= 0 \/ localeCompare b a <= 0.
Hypothesis lc_trans :
  forall a b c, localeCompare a b <= 0 -> localeCompare b c <= 0 -> localeCompare a c <= 0.
Hypothesis lc_antisym :
  forall a b, localeCompare a b <= 0 -> localeCompare b a <= 0 -> a = b.

Lemma um_compare_total (a b : UserMonth) :
  um_compare localeCompare a b <= 0 \/ um_compare localeCompare b a <= 0.
Proof using lc_total.
  unfold um_compare. rewrite (eqb_sym (month b)).
  destruct (Js.eqb (month a) (month b)); apply lc_total.
Qed.

Lemma um_compare_trans (a b c : UserMonth) :
  um_compare localeCompare a b <= 0 -> um_compare localeCompare b c <= 0 ->
  um_compare localeCompare a c <= 0.
Proof using lc_trans lc_antisym.
  unfold um_compare.
  destruct (Js.eqb (month a) (month b)) eqn:E1;
    destruct (Js.eqb (month b) (month c)) eqn:E2;
    destruct (Js.eqb (month a) (month c)) eqn:E3;
    rewrite ?eqb_eq, ?eqb_neq in *; intros H1 H2.
  - eapply lc_trans; eassumption.
  - congruence.
  - congruence.
  - rewrite E1. exact H2.
  - congruence.
  - rewrite <- E2. exact H1.
  - elim E1. apply lc_antisym; [exact H1|]. rewrite E3. exact H2.
  - eapply lc_trans; eassumption.
Qed.

(** For a collation that is a total order, [userMonthRows] is in
    ascending order of month, and of user within a month. *)
Theorem userMonthRows_ordered :
  forall rows : list UserMonth,
    StronglySorted
      (fun a b =>
         localeCompare (month a) (month b) <= 0 /\
         (month a = month b -> localeCompare (user_id a) (user_id b) <= 0))
      (userMonthRows localeCompare rows).
Proof using lc_total lc_trans lc_antisym.
  intro rows. unfold userMonthRows.
  pose proof (sort_sorted (um_compare localeCompare) um_compare_total um_compare_trans
                (Js.map_values (merged rows))) as S.
  induction S as [|a l S IH F]; constructor; [exact IH|].
  eapply Forall_impl; [| exact F]. intros b H. unfold um_compare in H.
  destruct (Js.eqb (month a) (month b)) eqn:E.
  - apply eqb_eq in E. split; [| intros _; exact H].
    rewrite E. destruct (lc_total (month b) (month b)); assumption.
  - apply eqb_neq in E. split; [exact H | intro C; contradiction].
Qed.

End Ordered.

End Rows.

(** * Scenarios for the further properties *)

Lemma compare_units_antisym (a b : jstr) :
  compare_units a b <= 0 -> compare_units b a <= 0 -> a = b.
Proof.
  revert b. induction a as [|x a IH]; intros [|y b]; simpl; try lia; [reflexivity|].
  destruct (Z.ltb_spec x y); destruct (Z.ltb_spec y x); try lia.
  intros H1 H2. assert (x = y) by lia. subst y. f_equal. now apply IH.
Qed.

(** The records of the rows with a gap, under the code-unit collation. *)
Lemma userMonthRows_ordered_witness :
  StronglySorted
    (fun a b =>
       compare_units (month a) (month b) <= 0 /\
       (month a = month b -> compare_units (user_id a) (user_id b) <= 0))
    (userMonthRows compare_units GAP_ROWS).
Proof.
  apply (userMonthRows_ordered compare_units).
  - exact compare_units_total.
  - exact compare_units_trans.
  - exact compare_units_antisym.
Defined.

(* ================================================================== *)
(** * Views computed from the aggregates

    The values that the component derives from [computed] for its
    charts, table and notes.  What goes through a rounded percentage
    ([retentionSeries], [safePct], [safeDelta], the exported
    percentages) is formatted from floating-point numbers and is left
    out. *)

(** [arr[i]] for an integer [i]: [undefined] outside the array. *)
Definition array_get {A} (l : list A) (i : Z) : option A :=
  if i <? 0 then None else nth_error l (Z.to_nat i).

(** [months]: the distinct months of the classified records, sorted by
    [Array.prototype.sort] without comparator, that is by code units. *)
Definition months (cl : list Classified) : list jstr :=
  Js.sort compare_units (fold_left (fun s r => Js.set_add (c_month r) s) cl []).

(** [PERSONAS.find((p) => p.key === k)]. *)
Definition personaMeta (k : jstr) : option Persona :=
  find (fun p => Js.eqb (key p) k) PERSONAS.

(** [PERSONAS.find((p) => p.key === k)?.label || k]. *)
Definition personaLabel (k : jstr) : jstr :=
  match personaMeta k with
  | Some p => if Js.truthy (label p) then label p else k
  | None => k
  end.

(** [outRows.find((x) => x.month === m && x.persona === p)]. *)
Definition find_row (outs : list OutRow) (m p : jstr) : option OutRow :=
  find (fun x => Js.eqb (a_month (base x)) m && Js.eqb (a_persona (base x)) p) outs.

(** A row of [volumeSeries]: the object [{ month: m, [label]: users,
    ... }], its month apart from its values by label. *)
Record SeriesRow := mkSeriesRow {
  s_month : jstr;
  s_values : Js.JsMap Z
}.

Definition volume_row (outs : list OutRow) (m : jstr) : SeriesRow :=
  mkSeriesRow m
    (fold_left
       (fun obj p =>
          Js.map_set obj (personaLabel (key p))
            (match find_row outs m (key p) with
             | Some r => a_users (base r)
             | None => 0
             end))
       PERSONAS []).

Definition volumeSeries (ms : list jstr) (outs : list OutRow) : list SeriesRow :=
  map (volume_row outs) ms.

Lemma compare_units_refl (a : jstr) : compare_units a a = 0.
Proof.
  induction a as [|x a IH]; simpl; [reflexivity|].
  now rewrite Z.ltb_irrefl.
Qed.

Lemma compare_units_zero (a b : jstr) : compare_units a b = 0 -> a = b.
Proof.
  revert b. induction a as [|x a IH]; intros [|y b]; simpl; try lia; [reflexivity|].
  destruct (Z.ltb_spec x y); [lia|]. destruct (Z.ltb_spec y x); [lia|].
  intro H1. assert (x = y) by lia. subst y. f_equal. now apply IH.
Qed.

Lemma months_In (cl : list Classified) (m : jstr) :
  In m (months cl) <-> exists r, In r cl /\ c_month r = m.
Proof.
  unfold months. rewrite sort_In.
  assert (G : forall s,
             In m (fold_left (fun s r => Js.set_add (c_month r) s) cl s) <->
             In m s \/ exists r, In r cl /\ c_month r = m).
  { induction cl as [|r cl IH]; intro s; simpl.
    - split; [now left | intros [H | (r & [] & _)]; exact H].
    - rewrite IH, set_add_In. split.
      + intros [[-> | H] | (r' & H & E)]; [right; eauto | now left | right; eauto].
      + intros [H | (r' & [<- | H] & E)]; [left; now right | left; left; now symmetry |].
        right. eauto. }
  rewrite G. split; [intros [[] | H]; exact H | now right].
Qed.

Lemma months_NoDup (cl : list Classified) : NoDup (months cl).
Proof.
  unfold months.
  eapply Permutation_NoDup; [symmetry; apply sort_perm|].
  assert (G : forall s, NoDup s ->
                        NoDup (fold_left (fun s r => Js.set_add (c_month r) s) cl s)).
  { induction cl as [|r cl IH]; intros s N; simpl; [exact N|].
    apply IH. now apply set_add_NoDup. }
  apply G. constructor.
Qed.

Lemma strictly_sorted (l : list jstr) :
  StronglySorted (fun a b => compare_units a b <= 0) l -> NoDup l ->
  StronglySorted (fun a b => compare_units a b < 0) l.
Proof.
  induction 1 as [|a l S IH F]; intro N; constructor.
  - apply IH. now inversion N.
  - inversion N as [|? ? Na _]; subst.
    rewrite Forall_forall in *. intros b Hb.
    specialize (F b Hb).
    destruct (Z.eq_dec (compare_units a b) 0) as [E | E]; [|lia].
    elim Na. rewrite (compare_units_zero a b E). exact Hb.
Qed.

(** [months] holds each month of the classified records once, in
    strictly ascending code-unit order; so its last element is the
    latest month and the one before it the latest earlier month. *)
Theorem months_ascending :
  forall cl : list Classified,
    (forall m, In m (months cl) <-> exists r, In r cl /\ c_month r = m) /\
    StronglySorted (fun a b => compare_units a b < 0) (months cl) /\
    (months cl = [] <-> cl = []).
Proof.
  intro cl. split; [apply months_In|]. split.
  - apply strictly_sorted; [| apply months_NoDup].
    apply sort_sorted; [apply compare_units_total | apply compare_units_trans].
  - split.
    + intro E. destruct cl as [|r cl]; [reflexivity|].
      assert (I : In (c_month r) (months (r :: cl)))
        by (apply months_In; exists r; split; [now left | reflexivity]).
      rewrite E in I. contradiction.
    + intros ->. reflexivity.
Qed.

(** [months[months.length - 1]] and [months[months.length - 2]]. *)
Definition lastMonth (ms : list jstr) : option jstr :=
  array_get ms (Z.of_nat (List.length ms) - 1).

Definition prevMonth (ms : list jstr) : option jstr :=
  array_get ms (Z.of_nat (List.length ms) - 2).

(** [pick] of [spotlight] and [get] of [riskNotes]: the emitted row of a
    month and persona; no row equals an [undefined] month. *)
Definition pick (outs : list OutRow) (month : option jstr) (persona : jstr)
  : option OutRow :=
  match month with
  | Some m => find_row outs m persona
  | None => None
  end.

(** The dash shown where a figure is missing. *)
Definition DASH : jstr := [8212].

(** [safeUsersDelta]. *)
Definition safeUsersDelta (now prev : option OutRow) : jstr :=
  match now, prev with
  | Some n, Some p =>
      let d := a_users (base n) - a_users (base p) in
      (if d >? 0 then Js.lit "+" else []) ++ Js.of_int d
  | _, _ => DASH
  end.

(** The integer fields of one card of [spotlight]: [users] is
    [now?.users ?? 0]. *)
Definition spotlight_users (ms : list jstr) (outs : list OutRow) (persona : jstr) : Z :=
  match pick outs (lastMonth ms) persona with
  | Some r => a_users (base r)
  | None => 0
  end.

Definition spotlight_usersDelta (ms : list jstr) (outs : list OutRow) (persona : jstr)
  : jstr :=
  safeUsersDelta (pick outs (lastMonth ms) persona) (pick outs (prevMonth ms) persona).

Section Views.

#[local] Set Default Proof Using "Type".

Variable localeCompare : jstr -> jstr -> Z.

Lemma aggregate_NoDup (mode : Mode) (cl : list Classified) :
  NoDup (map fst (aggregate mode cl)).
Proof.
  rewrite aggregate_upsert. apply upsert_fold_NoDup. constructor.
Qed.

(** The row found for a month and persona is the row of their bucket;
    none is found exactly when the bucket does not exist. *)
Lemma find_row_bucket (keywords : Keywords) (mode : Mode) (rows : list UserMonth)
      (m p : jstr) :
  let agg := aggregate mode (computed_classified localeCompare keywords rows) in
  let outs := computed_outRows localeCompare keywords mode rows in
  In p (map key PERSONAS) ->
  match find_row outs m p with
  | Some r =>
      exists b, Js.map_get agg (keyFor m p) = Some b /\ base r = agg_row b /\
                In r outs /\ 1 <= a_users (base r)
  | None => Js.map_get agg (keyFor m p) = None
  end.
Proof.
  intros agg outs Hp. unfold find_row.
  destruct (find _ outs) as [r|] eqn:F.
  - apply find_some in F as [I F].
    apply andb_true_iff in F as [F1 F2]. apply eqb_eq in F1, F2.
    pose proof (outRows_base localeCompare _ _ I) as B.
    unfold agg_rows, Js.map_values in B.
    apply in_map_iff in B as (b & Eb & B).
    apply in_map_iff in B as ([k b'] & E & B). simpl in E. subst b'.
    destruct (agg_entry localeCompare keywords rows mode k b B) as (K & _).
    destruct (agg_entry_sizes localeCompare keywords rows mode k b B) as (_ & S).
    exists b. rewrite <- Eb in F1, F2. simpl in F1, F2. subst m p.
    split; [|split; [now symmetry | split; [exact I |]]].
    + rewrite <- K. apply In_map_get; [apply aggregate_NoDup | exact B].
    + rewrite <- Eb. exact S.
  - destruct (Js.map_get agg (keyFor m p)) as [b|] eqn:G; [|reflexivity].
    exfalso. apply map_get_In in G.
    destruct (agg_entry localeCompare keywords rows mode _ b G) as (K & P & _).
    apply keyFor_inj in K as [Km Kp]; auto.
    assert (A : In (agg_row b) (agg_rows agg)).
    { unfold agg_rows, Js.map_values. apply in_map.
      apply (in_map snd _ _ G). }
    apply (outRows_complete localeCompare) in A as (o & Io & Eo).
    pose proof (find_none _ _ F o Io) as N. cbv beta in N.
    rewrite Eo in N. simpl in N. rewrite <- Km, <- Kp, !eqb_refl in N.
    discriminate N.
Qed.

Lemma find_row_users (keywords : Keywords) (mode : Mode) (rows : list UserMonth)
      (m p : jstr) :
  let agg := aggregate mode (computed_classified localeCompare keywords rows) in
  let outs := computed_outRows localeCompare keywords mode rows in
  In p (map key PERSONAS) ->
  match find_row outs m p with
  | Some r => a_users (base r)
  | None => 0
  end = Js.set_size (bucket_users agg m p).
Proof.
  intros agg outs Hp.
  pose proof (find_row_bucket keywords mode rows m p Hp) as F.
  fold agg in F. fold outs in F. unfold bucket_users.
  destruct (find_row outs m p) as [r|].
  - destruct F as (b & -> & -> & _). reflexivity.
  - rewrite F. reflexivity.
Qed.

Lemma volume_row_values (outs : list OutRow) (m : jstr) :
  s_values (volume_row outs m) =
  map (fun p => (label p,
                 match find_row outs m (key p) with
                 | Some r => a_users (base r)
                 | None => 0
                 end)) PERSONAS.
Proof. reflexivity. Qed.

(** [volumeSeries] has one row per observed month, in the order of
    [months]; under the label of each persona it holds the number of
    distinct users counted for that persona in that month, and 0 when
    nobody was. *)
Theorem volume_series_counts :
  forall (keywords : Keywords) (mode : Mode) (rows : list UserMonth),
    let cl := computed_classified localeCompare keywords rows in
    let agg := aggregate mode cl in
    let series := volumeSeries (months cl) (computed_outRows localeCompare keywords mode rows) in
    map s_month series = months cl /\
    Forall (fun row =>
              map fst (s_values row) = map label PERSONAS /\
              forall p, In p PERSONAS ->
                Js.map_get (s_values row) (label p)
                = Some (Js.set_size (bucket_users agg (s_month row) (key p))))
           series.
Proof.
  intros keywords mode rows cl agg series. split.
  - unfold series, volumeSeries. rewrite map_map. simpl. apply map_id.
  - apply Forall_forall. intros row Hrow.
    apply in_map_iff in Hrow as (m & <- & _).
    rewrite volume_row_values. split.
    + rewrite map_map. reflexivity.
    + intros p Hp.
      pose proof (fun q Hq => find_row_users keywords mode rows m q Hq) as U.
      cbv zeta in U. fold cl in U. fold agg in U.
      simpl in Hp.
      repeat (destruct Hp as [<- | Hp];
              [ cbn [map Js.map_get]; rewrite <- U by (simpl; auto 10);
                reflexivity |]).
      contradiction.
Qed.

(** ** The latest months and the spotlight cards *)

Lemma array_get_tail {A} (l : list A) (y x : A) :
  array_get (l ++ [y; x]) (Z.of_nat (List.length (l ++ [y; x])) - 1) = Some x /\
  array_get (l ++ [y; x]) (Z.of_nat (List.length (l ++ [y; x])) - 2) = Some y.
Proof.
  rewrite length_app. cbn [List.length]. unfold array_get. split.
  - replace (Z.of_nat (List.length l + 2) - 1) with (Z.of_nat (List.length l + 1)) by lia.
    destruct (Z.ltb_spec (Z.of_nat (List.length l + 1)) 0); [lia|].
    rewrite Nat2Z.id, nth_error_app2 by lia.
    replace (List.length l + 1 - List.length l)%nat with 1%nat by lia. reflexivity.
  - replace (Z.of_nat (List.length l + 2) - 2) with (Z.of_nat (List.length l)) by lia.
    destruct (Z.ltb_spec (Z.of_nat (List.length l)) 0); [lia|].
    rewrite Nat2Z.id, nth_error_app2 by lia.
    rewrite Nat.sub_diag. reflexivity.
Qed.

Lemma months_tail (ms : list jstr) :
  (ms = [] /\ lastMonth ms = None /\ prevMonth ms = None) \/
  (exists x, ms = [x] /\ lastMonth ms = Some x /\ prevMonth ms = None) \/
  (exists l y x, ms = l ++ [y; x] /\ lastMonth ms = Some x /\ prevMonth ms = Some y).
Proof.
  rewrite <- (rev_involutive ms).
  destruct (rev ms) as [|x [|y t]].
  - left. repeat split.
  - right. left. exists x. repeat split.
  - right. right. exists (rev t), y, x.
    assert (E : rev (x :: y :: t) = rev t ++ [y; x])
      by (cbn [rev]; now rewrite <- app_assoc).
    rewrite E. split; [reflexivity|]. apply array_get_tail.
Qed.

Lemma StronglySorted_app {A} (R : A -> A -> Prop) (l r : list A) :
  StronglySorted R (l ++ r) ->
  (forall a b, In a l -> In b r -> R a b) /\ StronglySorted R r.
Proof.
  induction l as [|x l IH]; simpl; intro S.
  - split; [intros a b [] | exact S].
  - inversion S as [|? ? S' F]; subst.
    destruct (IH S') as [H1 H2]. split; [|exact H2].
    intros a b [<- | Ha] Hb.
    + rewrite Forall_forall in F. apply F. apply in_or_app. now right.
    + now apply H1.
Qed.

(** The last element of [months] is the latest month of the data, and
    the element before it is the latest month before that one: the two
    months that the spotlight cards compare.  There is no last month
    only without records, and no month before it only when all records
    are of one month. *)
Theorem latest_months :
  forall cl : list Classified,
    match lastMonth (months cl) with
    | None => cl = []
    | Some l =>
        (exists r, In r cl /\ c_month r = l) /\
        (forall r, In r cl -> compare_units (c_month r) l <= 0) /\
        match prevMonth (months cl) with
        | None => forall r, In r cl -> c_month r = l
        | Some q =>
            (exists r, In r cl /\ c_month r = q) /\
            compare_units q l < 0 /\
            (forall r, In r cl -> c_month r = l \/ compare_units (c_month r) q <= 0)
        end
    end.
Proof.
  intro cl.
  destruct (months_ascending cl) as (HI & HS & HE).
  assert (M : forall r, In r cl -> In (c_month r) (months cl))
    by (intros r Hr; apply HI; eauto).
  destruct (months_tail (months cl))
    as [(E & -> & _) | [(x & E & -> & ->) | (l & y & x & E & -> & ->)]].
  - now apply HE.
  - rewrite E in *. split; [apply HI; now left|]. split.
    + intros r Hr. destruct (M r Hr) as [<- | []].
      rewrite compare_units_refl. lia.
    + intros r Hr. destruct (M r Hr) as [<- | []]. reflexivity.
  - rewrite E in *.
    apply StronglySorted_app in HS as [HL HS].
    inversion HS as [|? ? _ F]; subst.
    inversion F as [|? ? Hyx _]; subst.
    split; [apply HI, in_or_app; right; right; now left|].
    assert (C : forall r, In r cl ->
                c_month r = x \/ compare_units (c_month r) y <= 0).
    { intros r Hr. specialize (M r Hr). apply in_app_or in M as [M | [M | [M | []]]].
      - right. apply Z.lt_le_incl, HL; [exact M | now left].
      - right. rewrite <- M, compare_units_refl. lia.
      - now left. }
    split; [|split; [apply HI, in_or_app; right; now left | split; [exact Hyx | exact C]]].
    intros r Hr. destruct (C r Hr) as [-> | H].
    + rewrite compare_units_refl. lia.
    + eapply compare_units_trans; [exact H | lia].
Qed.

Lemma of_int_negative (d : Z) : d < 0 -> Js.of_int d = 45 :: Js.of_int (- d).
Proof.
  intro H. unfold Js.of_int.
  destruct (Z.ltb_spec d 0); [|lia].
  destruct (Z.ltb_spec (- d) 0); [lia|]. reflexivity.
Qed.

Lemma parse_digits_of_int (n : Z) : 0 <= n -> Js.parse_digits (Js.of_int n) = Some n.
Proof.
  intro H. destruct (of_int_value n H) as (D & N & V).
  unfold Js.parse_digits. destruct (Js.of_int n) as [|c ds]; [congruence|].
  cbn [forallb] in D. apply andb_true_iff in D as [-> _]. now rewrite V.
Qed.

(** A signed difference, as [safeUsersDelta] prints it, reads back as
    the number. *)
Lemma signed_difference_parses (d : Z) :
  Js.parseInt10 ((if d >? 0 then Js.lit "+" else []) ++ Js.of_int d) = Some d.
Proof.
  rewrite Z.gtb_ltb. destruct (Z.ltb_spec 0 d) as [P | P].
  - change (Js.lit "+" ++ Js.of_int d) with (43 :: Js.of_int d).
    unfold Js.parseInt10. cbn -[Js.of_int Js.parse_digits].
    apply parse_digits_of_int. lia.
  - cbn [app]. destruct (Z.eq_dec d 0) as [-> | N]; [reflexivity|].
    rewrite of_int_negative by lia.
    unfold Js.parseInt10. cbn -[Js.of_int Js.parse_digits].
    rewrite parse_digits_of_int by lia. cbn. f_equal. lia.
Qed.

(** A spotlight card shows, as its users, the number of distinct users
    counted for its persona in the latest month, 0 when there is none.
    Its change in users is the dash unless the persona was counted both
    in the latest month and in the month before it in the data; then it
    is the signed difference of the two counts.  So a persona that
    skipped the month before shows the dash, although its row carries a
    difference from its own earlier row. *)
Theorem spotlight_users_delta :
  forall (keywords : Keywords) (mode : Mode) (rows : list UserMonth) (p : jstr),
    In p (map key PERSONAS) ->
    let cl := computed_classified localeCompare keywords rows in
    let outs := computed_outRows localeCompare keywords mode rows in
    let count m := Js.set_size (bucket_users (aggregate mode cl) m p) in
    spotlight_users (months cl) outs p
    = match lastMonth (months cl) with Some l => count l | None => 0 end /\
    match lastMonth (months cl), prevMonth (months cl) with
    | Some l, Some q =>
        if (0 <? count l) && (0 <? count q)
        then Js.parseInt10 (spotlight_usersDelta (months cl) outs p)
             = Some (count l - count q)
        else spotlight_usersDelta (months cl) outs p = DASH
    | _, _ => spotlight_usersDelta (months cl) outs p = DASH
    end.
Proof.
  intros keywords mode rows p Hp cl outs count.
  assert (F : forall m,
             match find_row outs m p with
             | Some r => a_users (base r) = count m /\ 1 <= count m
             | None => count m = 0
             end).
  { intro m.
    pose proof (find_row_bucket keywords mode rows m p Hp) as B.
    fold cl in B. fold outs in B. unfold count, bucket_users.
    destruct (find_row outs m p) as [r|].
    - destruct B as (b & -> & E & _ & S). rewrite E in *. split; [reflexivity | exact S].
    - rewrite B. reflexivity. }
  unfold spotlight_users, spotlight_usersDelta, pick, safeUsersDelta. split.
  - destruct (lastMonth (months cl)) as [l|]; [|reflexivity].
    specialize (F l). destruct (find_row outs l p); [apply F | now rewrite F].
  - destruct (lastMonth (months cl)) as [l|]; [|reflexivity].
    destruct (prevMonth (months cl)) as [q|].
    + pose proof (F l) as Fl. pose proof (F q) as Fq.
      destruct (find_row outs l p) as [rl|]; destruct (find_row outs q p) as [rq|].
      * destruct Fl as [<- Pl], Fq as [<- Pq].
        destruct (Z.ltb_spec 0 (a_users (base rl))); [|lia].
        destruct (Z.ltb_spec 0 (a_users (base rq))); [|lia].
        cbn [andb]. apply signed_difference_parses.
      * rewrite Fq. rewrite andb_false_r. reflexivity.
      * rewrite Fl. reflexivity.
      * rewrite Fl. reflexivity.
    + destruct (find_row outs l p); reflexivity.
Qed.

(** ** The table rows *)

(** [n >= min] for a threshold that may be [NaN] (here [None]), against
    which no number compares. *)
Definition at_least (n : Z) (min : option Z) : bool :=
  match min with
  | Some k => k <=? n
  | None => false
  end.

(** The threshold fields: [Math.max(0, parseInt(e.target.value || "0", 10))],
    which is [NaN] when [parseInt] is. *)
Definition min_input (value : jstr) : option Z :=
  option_map (Z.max 0) (Js.parseInt10 (if Js.truthy value then value else Js.lit "0")).

Definition ALL : jstr := Js.lit "all".

Definition persona_selected (selectedPersona : jstr) (r : OutRow) : bool :=
  if Js.eqb selectedPersona ALL then true
  else Js.eqb (a_persona (base r)) selectedPersona.

Definition matches_query (q : jstr) (r : OutRow) : bool :=
  if negb (Js.truthy q) then true
  else Js.includes (a_month (base r)) q
       || Js.includes (Js.toLowerCase (personaLabel (a_persona (base r)))) q.

Definition row_compare (a b : OutRow) : Z :=
  if Js.eqb (a_month (base a)) (a_month (base b))
  then localeCompare (a_persona (base a)) (a_persona (base b))
  else localeCompare (a_month (base b)) (a_month (base a)).

(** [filteredRows]. *)
Definition filteredRows (outs : list OutRow) (query selectedPersona : jstr)
           (minUsers : option Z) : list OutRow :=
  let q := norm query in
  Js.sort row_compare
    (filter (matches_query q)
       (filter (fun r => if at_least (a_users (base r)) minUsers then true else false)
          (filter (persona_selected selectedPersona) outs))).

(** The rows of the table are emitted rows of the selected persona with
    at least the threshold of users; the threshold typed in is never
    negative, and when it does not parse the table is empty.  With all
    personas, an empty search and a threshold of at most 1, the table
    holds every emitted row. *)
Theorem table_rows :
  forall (keywords : Keywords) (mode : Mode) (rows : list UserMonth)
         (query selectedPersona value : jstr),
    let outs := computed_outRows localeCompare keywords mode rows in
    let shown := filteredRows outs query selectedPersona (min_input value) in
    (forall r, In r shown ->
       In r outs /\
       (selectedPersona = ALL \/ a_persona (base r) = selectedPersona) /\
       exists k, min_input value = Some k /\ 0 <= k <= a_users (base r)) /\
    (min_input value = None -> shown = []) /\
    (selectedPersona = ALL -> norm query = [] ->
     (exists k, min_input value = Some k /\ k <= 1) ->
     Permutation shown outs).
Proof.
  intros keywords mode rows query sel value outs shown.
  assert (NN : forall k, min_input value = Some k -> 0 <= k).
  { unfold min_input. intros k H.
    destruct (Js.parseInt10 _) as [n|]; [|discriminate].
    injection H as <-. lia. }
  split; [|split].
  - intros r H. unfold shown, filteredRows in H.
    apply sort_In in H. apply filter_In in H as [H _].
    apply filter_In in H as [H M]. apply filter_In in H as [H S].
    split; [exact H|]. split.
    + unfold persona_selected in S.
      destruct (Js.eqb sel ALL) eqn:E; [left; now apply eqb_eq | right; now apply eqb_eq].
    + unfold at_least in M. destruct (min_input value) as [k|]; [|discriminate].
      exists k. split; [reflexivity|].
      destruct (Z.leb_spec k (a_users (base r))); [|discriminate].
      split; [now apply NN | assumption].
  - intro N. unfold shown, filteredRows. rewrite N.
    rewrite (filter_none (fun r => if at_least (a_users (base r)) None then true else false))
      by reflexivity.
    reflexivity.
  - intros -> Q (k & K & Hk). unfold shown, filteredRows. rewrite Q, K.
    etransitivity; [apply sort_perm|].
    assert (P : forall r, persona_selected ALL r = true) by reflexivity.
    assert (M : forall r, matches_query [] r = true) by reflexivity.
    rewrite (filter_all (persona_selected ALL)) by (intros; apply P).
    rewrite (filter_all (matches_query [])) by (intros; apply M).
    rewrite filter_all; [reflexivity|].
    intros r Hr.
    { pose proof (outRows_base localeCompare _ _ Hr) as B.
      unfold agg_rows, Js.map_values in B.
      apply in_map_iff in B as (b & Eb & B).
      apply in_map_iff in B as ([k' b'] & E & B). simpl in E. subst b'.
      destruct (agg_entry_sizes localeCompare keywords rows mode k' b B) as (_ & S).
      rewrite <- Eb. cbn [agg_row a_users at_least].
      destruct (Z.leb_spec k (Js.set_size (users b))); [reflexivity | lia]. }
Qed.

Section Collation.

Hypothesis lc_total : forall a b, localeCompare a b <= 0 \/ localeCompare b a <= 0.
Hypothesis lc_trans :
  forall a b c, localeCompare a b <= 0 -> localeCompare b c <= 0 -> localeCompare a c <= 0.
Hypothesis lc_antisym :
  forall a b, localeCompare a b <= 0 -> localeCompare b a <= 0 -> a = b.

Lemma row_compare_total (a b : OutRow) :
  row_compare a b <= 0 \/ row_compare b a <= 0.
Proof using lc_total.
  unfold row_compare. rewrite (eqb_sym (a_month (base b))).
  destruct (Js.eqb (a_month (base a)) (a_month (base b))); [apply lc_total|].
  destruct (lc_total (a_month (base a)) (a_month (base b))); auto.
Qed.

Lemma row_compare_trans (a b c : OutRow) :
  row_compare a b <= 0 -> row_compare b c <= 0 -> row_compare a c <= 0.
Proof using lc_trans lc_antisym.
  unfold row_compare.
  destruct (Js.eqb (a_month (base a)) (a_month (base b))) eqn:E1;
    destruct (Js.eqb (a_month (base b)) (a_month (base c))) eqn:E2;
    destruct (Js.eqb (a_month (base a)) (a_month (base c))) eqn:E3;
    rewrite ?eqb_eq, ?eqb_neq in *; intros H1 H2.
  - eapply lc_trans; eassumption.
  - congruence.
  - congruence.
  - rewrite E1. exact H2.
  - congruence.
  - rewrite <- E2. exact H1.
  - elim E1. apply lc_antisym; [|exact H1]. rewrite E3. exact H2.
  - eapply lc_trans; eassumption.
Qed.

(** For a collation that is a total order, the table is sorted by month
    from the latest to the earliest, and by persona key within a
    month. *)
Theorem table_rows_ordered :
  forall (outs : list OutRow) (query selectedPersona : jstr) (minUsers : option Z),
    StronglySorted
      (fun a b =>
         localeCompare (a_month (base b)) (a_month (base a)) <= 0 /\
         (a_month (base a) = a_month (base b) ->
          localeCompare (a_persona (base a)) (a_persona (base b)) <= 0))
      (filteredRows outs query selectedPersona minUsers).
Proof using lc_total lc_trans lc_antisym.
  intros outs query sel min. unfold filteredRows.
  match goal with |- StronglySorted _ (Js.sort _ ?l) =>
    pose proof (sort_sorted row_compare row_compare_total row_compare_trans l) as S
  end.
  induction S as [|a l S IH F]; constructor; [exact IH|].
  eapply Forall_impl; [| exact F]. intros b H. unfold row_compare in H.
  destruct (Js.eqb (a_month (base a)) (a_month (base b))) eqn:E.
  - apply eqb_eq in E. split; [| intros _; exact H].
    rewrite E. destruct (lc_total (a_month (base b)) (a_month (base b))); assumption.
  - apply eqb_neq in E. split; [exact H | intro C; contradiction].
Qed.

End Collation.

(** ** The risk notes *)

Record Note := mkNote {
  tone : jstr;
  title : jstr;
  note_text : jstr
}.

Definition TRUST_ALARM : Note :=
  mkNote (Js.lit "danger")
    (Js.lit "Trust erosion expanding + retention falling")
    (Js.lit "Brand-level credibility issue. Treat as retention incident, not feature request.").

Definition DRYING_UP : Note :=
  mkNote (Js.lit "warn")
    (Js.lit "Constructive feedback drying up")
    (Js.lit "Suggestion-stage shrinking while breaking-point grows: users stop helping before they leave.").

Definition ESCALATION_RISING : Note :=
  mkNote (Js.lit "warn")
    (Js.lit "Escalation rising")
    (Js.lit "More users repeating themselves " ++ DASH
       ++ Js.lit " power complainer risk. Prioritize closure loops.").

Definition ALL_CLEAR : Note :=
  mkNote (Js.lit "good")
    (Js.lit "No acute persona alarm")
    (Js.lit "Keep watching Trust erosion + Veteran. Validate with absolute counts and confidence.").

(** [x !== null && x > 0] and [x !== null && x < 0]; for a retention
    difference, the sign of the exact difference. *)
Definition is_pos (x : option Z) : bool :=
  match x with Some d => d >? 0 | None => false end.

Definition is_neg (x : option Z) : bool :=
  match x with Some d => d <? 0 | None => false end.

Definition is_negQ (x : option Q) : bool :=
  match x with Some d => Qnum d <? 0 | None => false end.

(** [riskNotes]. *)
Definition riskNotes (ms : list jstr) (outs : list OutRow) (minUsers : option Z)
  : list Note :=
  match lastMonth ms with
  | None => []
  | Some l =>
      if negb (Js.truthy l) then []
      else
        let get := find_row outs l in
        let trust := get TRUST_EROSION in
        let emotional := get EMOTIONAL in
        let escalation := get ESCALATION in
        let suggestion := get SUGGESTION in
        let notes :=
          (match trust with
           | Some t =>
               if at_least (a_users (base t)) minUsers
                  && is_negQ (retention_mom t) && is_pos (users_mom t)
               then [TRUST_ALARM] else []
           | None => []
           end)
          ++ (match suggestion, emotional with
              | Some s, Some e =>
                  if is_neg (users_mom s) && is_pos (users_mom e)
                  then [DRYING_UP] else []
              | _, _ => []
              end)
          ++ (match escalation with
              | Some e => if is_pos (users_mom e) then [ESCALATION_RISING] else []
              | None => []
              end) in
        match notes with
        | [] => [ALL_CLEAR]
        | _ => notes
        end
  end.

Lemma all_clear_distinct :
  ALL_CLEAR <> TRUST_ALARM /\ ALL_CLEAR <> DRYING_UP /\ ALL_CLEAR <> ESCALATION_RISING.
Proof.
  repeat split; intro E; apply (f_equal tone) in E; vm_compute in E; discriminate E.
Qed.

(** There are no notes only when there is no latest month; otherwise
    there are between one and three.  The all-clear note never stands
    beside an alarm, and the trust alarm is never raised while the
    threshold does not parse. *)
Theorem risk_notes_shape :
  forall (ms : list jstr) (outs : list OutRow) (minUsers : option Z),
    let notes := riskNotes ms outs minUsers in
    (notes = [] <->
     match lastMonth ms with Some l => l = [] | None => True end) /\
    (List.length notes <= 3)%nat /\
    (In ALL_CLEAR notes -> notes = [ALL_CLEAR]) /\
    (minUsers = None -> ~ In TRUST_ALARM notes).
Proof.
  intros ms outs min notes. subst notes. unfold riskNotes.
  destruct all_clear_distinct as (D1 & D2 & D3).
  assert (D4 : TRUST_ALARM <> DRYING_UP)
    by (intro E; apply (f_equal tone) in E; vm_compute in E; discriminate E).
  assert (D5 : TRUST_ALARM <> ESCALATION_RISING)
    by (intro E; apply (f_equal tone) in E; vm_compute in E; discriminate E).
  destruct (lastMonth ms) as [l|].
  2:{ repeat split; auto; simpl; try lia; try contradiction. }
  destruct l as [|c l].
  { repeat split; auto; simpl; try lia; try contradiction. }
  cbn [Js.truthy negb].
  assert (T : forall t, at_least (a_users (base t)) None
                        && is_negQ (retention_mom t) && is_pos (users_mom t) = false)
    by reflexivity.
  set (a := match find_row outs (c :: l) TRUST_EROSION with
            | Some t => if at_least (a_users (base t)) min
                           && is_negQ (retention_mom t) && is_pos (users_mom t)
                        then [TRUST_ALARM] else []
            | None => [] end).
  assert (A : (a = [] \/ a = [TRUST_ALARM]) /\ (min = None -> a = [])).
  { subst a. destruct (find_row outs (c :: l) TRUST_EROSION) as [t|]; [|auto].
    split.
    - destruct (_ && _ && _); auto.
    - intros ->. now rewrite T. }
  set (b := match find_row outs (c :: l) SUGGESTION with
            | Some s => _ | None => [] end).
  assert (B : b = [] \/ b = [DRYING_UP]).
  { subst b. destruct (find_row outs (c :: l) SUGGESTION) as [s|]; [|auto].
    destruct (find_row outs (c :: l) EMOTIONAL) as [e|]; [|auto].
    destruct (_ && _); auto. }
  set (e := match find_row outs (c :: l) ESCALATION with
            | Some x => _ | None => [] end).
  assert (E : e = [] \/ e = [ESCALATION_RISING]).
  { subst e. destruct (find_row outs (c :: l) ESCALATION) as [x|]; [|auto].
    destruct (is_pos _); auto. }
  clearbody a b e. destruct A as [A A'].
  split; [|split; [|split]].
  - split; [|discriminate].
    destruct A as [-> | ->], B as [-> | ->], E as [-> | ->]; discriminate.
  - destruct A as [-> | ->], B as [-> | ->], E as [-> | ->]; simpl; lia.
  - destruct A as [-> | ->], B as [-> | ->], E as [-> | ->]; simpl;
      intros H; try reflexivity;
      repeat (destruct H as [H | H]; [congruence|]); contradiction.
  - intros N. rewrite (A' N).
    destruct B as [-> | ->], E as [-> | ->]; simpl; intros H;
      repeat (destruct H as [H | H]; [congruence|]); contradiction.
Qed.

Lemma out_row_month (keywords : Keywords) (mode : Mode) (rows : list UserMonth)
      (r : OutRow) :
  In r (computed_outRows localeCompare keywords mode rows) ->
  In (a_month (base r)) (months (computed_classified localeCompare keywords rows)).
Proof.
  intro H. apply (outRows_base localeCompare) in H.
  unfold agg_rows, Js.map_values in H.
  apply in_map_iff in H as (b & Eb & H).
  apply in_map_iff in H as ([k b'] & E & H). simpl in E. subst b'.
  destruct (agg_entry localeCompare keywords rows mode k b H)
    as (_ & _ & Hu & _ & _ & _ & _ & _ & Ne).
  rewrite <- Eb. cbn [agg_row a_month].
  destruct (users b) as [|u us] eqn:U; [congruence|].
  destruct (proj1 (Hu u) (or_introl eq_refl)) as (c & Hc & _ & Mc & _).
  apply months_In. eauto.
Qed.

(** A row that carries a difference has an emitted row of its persona
    in another month. *)
Lemma delta_needs_history (keywords : Keywords) (mode : Mode) (rows : list UserMonth)
      (r : OutRow) :
  let outs := computed_outRows localeCompare keywords mode rows in
  In r outs ->
  (users_mom r = None /\ retention_mom r = None) \/
  exists prev, In prev outs /\ a_persona (base prev) = a_persona (base r) /\
               a_month (base prev) <> a_month (base r).
Proof.
  intros outs H.
  destruct (delta_chain localeCompare keywords mode rows (a_persona (base r)))
    as (_ & _ & N & C & _).
  fold outs in N, C.
  set (series := series_of (a_persona (base r)) outs) in *.
  assert (I : In r series) by (apply filter_In; split; [exact H | apply eqb_refl]).
  apply In_nth_error in I as (i & I).
  pose proof (C i r I) as Ch. destruct i as [|j]; [left; destruct Ch; split; assumption|].
  right. destruct Ch as (prev & P & _). exists prev.
  pose proof (nth_error_In _ _ P) as Ip. apply filter_In in Ip as [Ip Ep].
  split; [exact Ip|]. split; [now apply eqb_eq|].
  intro E.
  assert (L : (j < List.length (map (fun o => a_month (base o)) series))%nat).
  { rewrite length_map. apply nth_error_Some. congruence. }
  pose proof (proj1 (NoDup_nth_error _) N j (S j) L) as X.
  rewrite !nth_error_map, P, I in X. cbn [option_map] in X.
  rewrite E in X. specialize (X eq_refl). lia.
Qed.

(** With records of one month only, no emitted row carries a
    difference, every spotlight card shows the dash for its change in
    users, and the only note is the all-clear, whatever the counts and
    the threshold. *)
Theorem single_month_all_clear :
  forall (keywords : Keywords) (mode : Mode) (rows : list UserMonth)
         (minUsers : option Z) (l : jstr),
    let cl := computed_classified localeCompare keywords rows in
    let outs := computed_outRows localeCompare keywords mode rows in
    months cl = [l] -> l <> [] ->
    Forall (fun r => users_mom r = None /\ retention_mom r = None) outs /\
    (forall p, spotlight_usersDelta (months cl) outs p = DASH) /\
    riskNotes (months cl) outs minUsers = [ALL_CLEAR].
Proof.
  intros keywords mode rows min l cl outs M L.
  assert (F : forall r, In r outs -> users_mom r = None /\ retention_mom r = None).
  { intros r Hr.
    destruct (delta_needs_history keywords mode rows r Hr)
      as [H | (prev & Ip & _ & Ne)]; [exact H|].
    exfalso. apply Ne.
    pose proof (out_row_month keywords mode rows r Hr) as M1.
    pose proof (out_row_month keywords mode rows prev Ip) as M2.
    fold cl in M1, M2. rewrite M in M1, M2.
    destruct M1 as [<- | []], M2 as [<- | []]. reflexivity. }
  split; [now apply Forall_forall|]. split.
  - intro p. rewrite M. unfold spotlight_usersDelta, safeUsersDelta.
    change (prevMonth [l]) with (@None jstr). cbn [pick].
    destruct (pick outs (lastMonth [l]) p); reflexivity.
  - rewrite M. unfold riskNotes. change (lastMonth [l]) with (Some l).
    destruct l as [|c l]; [congruence|]. cbn [Js.truthy negb].
    assert (G : forall p t, find_row outs (c :: l) p = Some t -> users_mom t = None).
    { intros p t H. apply find_some in H as [H _]. now apply F. }
    destruct (find_row outs (c :: l) TRUST_EROSION) as [t|] eqn:Et;
      [rewrite (G _ _ Et); cbn [is_pos]; rewrite andb_false_r|];
      (destruct (find_row outs (c :: l) SUGGESTION) as [s|] eqn:Es;
        [destruct (find_row outs (c :: l) EMOTIONAL) as [e|] eqn:Ee;
           [rewrite (G _ _ Es); cbn [is_neg andb]|]|]);
      (destruct (find_row outs (c :: l) ESCALATION) as [x|] eqn:Ex;
        [rewrite (G _ _ Ex); cbn [is_pos]|]);
      reflexivity.
Qed.

(** ** The feedback entries of a month *)

Record Entry := mkEntry {
  e_user_id : jstr;
  e_persona : option jstr;
  e_text : jstr
}.

Definition entry_of (r : Classified) : Entry :=
  mkEntry (c_user_id r) (dominant_persona r) (c_text r).

(** [PERSONAS.find((p) => p.key === personaKey)?.priority ?? 999]. *)
Definition byPriority (personaKey : option jstr) : Z :=
  match personaKey with
  | Some k =>
      match personaMeta k with
      | Some p => priority p
      | None => 999
      end
  | None => 999
  end.

Definition entry_compare (a b : Entry) : Z :=
  let pa := byPriority (e_persona a) in
  let pb := byPriority (e_persona b) in
  if negb (pa =? pb) then pa - pb
  else localeCompare (e_user_id a) (e_user_id b).

(** [selectedMonthForDetails || months[months.length - 1] || ""]. *)
Definition monthDetailMonth (selected : jstr) (ms : list jstr) : jstr :=
  if Js.truthy selected then selected
  else match lastMonth ms with
       | Some l => l
       | None => []
       end.

(** [monthDetails]. *)
Definition monthDetails (cl : list Classified) (month : jstr) (minEntryChars : option Z)
  : list Entry :=
  if negb (Js.truthy month) then []
  else
    Js.sort entry_compare
      (filter (fun e => at_least (Z.of_nat (List.length (e_text e))) minEntryChars)
         (map entry_of (filter (fun r => Js.eqb (c_month r) month) cl))).

Lemma filter_map_comm {A B} (f : A -> B) (P : B -> bool) (l : list A) :
  filter P (map f l) = map f (filter (fun x => P (f x)) l).
Proof.
  induction l as [|x l IH]; simpl; [reflexivity|].
  destruct (P (f x)); simpl; now rewrite IH.
Qed.

Lemma filter_twice {A} (P Q : A -> bool) (l : list A) :
  filter P (filter Q l) = filter (fun x => Q x && P x) l.
Proof.
  induction l as [|x l IH]; simpl; [reflexivity|].
  destruct (Q x); simpl; [destruct (P x)|]; now rewrite IH.
Qed.

Lemma classified_keys_NoDup (keywords : Keywords) (rows : list UserMonth) :
  NoDup (map (fun c => um_key (c_user_id c) (c_month c))
             (computed_classified localeCompare keywords rows)).
Proof.
  unfold computed_classified, classified. rewrite map_map.
  erewrite map_ext.
  2:{ intro x. destruct (classify_row_fields keywords
                           (presence (userMonthRows localeCompare rows)) x)
        as (-> & -> & _). reflexivity. }
  unfold userMonthRows.
  eapply Permutation_NoDup.
  { symmetry. apply Permutation_map. apply sort_perm. }
  unfold Js.map_values. rewrite map_map.
  erewrite map_ext_in; [apply (merged_NoDup rows)|].
  intros [k rec] H. simpl.
  destruct (merged_entry _ _ _ H) as (-> & _). reflexivity.
Qed.

(** The feedback list of a month holds one entry for each user-month
    record of that month whose text has at least the minimum length,
    and no user twice; it is empty for an empty month and while the
    minimum does not parse. *)
Theorem month_details_entries :
  forall (keywords : Keywords) (rows : list UserMonth) (month : jstr)
         (minEntryChars : option Z),
    let cl := computed_classified localeCompare keywords rows in
    let entries := monthDetails cl month minEntryChars in
    NoDup (map e_user_id entries) /\
    (forall e, In e entries <->
       month <> [] /\
       exists r, In r cl /\ c_month r = month /\ e = entry_of r /\
                 exists k, minEntryChars = Some k /\
                           k <= Z.of_nat (List.length (c_text r))) /\
    (minEntryChars = None -> entries = []).
Proof.
  intros keywords rows month min cl entries. subst entries. unfold monthDetails.
  destruct month as [|c0 month].
  { cbn [Js.truthy negb]. split; [constructor|]. split; [|reflexivity].
    intro e. split; [intros [] | intros [N _]; congruence]. }
  cbn [Js.truthy negb]. set (mo := c0 :: month).
  rewrite filter_map_comm, filter_twice. cbn [entry_of e_text].
  split; [|split].
  - eapply Permutation_NoDup.
    { symmetry. apply Permutation_map. apply sort_perm. }
    rewrite map_map. cbn [entry_of e_user_id].
    apply (NoDup_map_filter (fun c => um_key (c_user_id c) (c_month c))).
    + apply classified_keys_NoDup.
    + intros x y _ _ Px Py E.
      apply andb_true_iff in Px as [Px _]. apply andb_true_iff in Py as [Py _].
      apply eqb_eq in Px, Py. now rewrite E, Px, Py.
  - intro e. rewrite sort_In, in_map_iff. split.
    + intros (r & <- & H). apply filter_In in H as [H P].
      apply andb_true_iff in P as [P1 P2]. apply eqb_eq in P1.
      split; [discriminate|]. exists r. repeat split; auto.
      unfold at_least in P2. destruct min as [k|]; [|discriminate].
      exists k. split; [reflexivity|]. now apply Z.leb_le.
    + intros (_ & r & H & M & -> & k & -> & K). exists r. split; [reflexivity|].
      apply filter_In. split; [exact H|].
      apply andb_true_iff. split; [now apply eqb_eq|].
      cbn [at_least]. now apply Z.leb_le.
  - intros ->. rewrite (filter_none _ cl); [reflexivity|].
    intros x _. cbn [at_least]. apply andb_false_r.
Qed.

Lemma byPriority_catalog :
  forall p, In p PERSONAS ->
    byPriority (Some (key p)) = priority p /\ priority p < byPriority None.
Proof.
  intros p H. simpl in H.
  repeat (destruct H as [<- | H]; [split; reflexivity|]).
  contradiction.
Qed.

Section EntryOrder.

Hypothesis lc_total : forall a b, localeCompare a b <= 0 \/ localeCompare b a <= 0.
Hypothesis lc_trans :
  forall a b c, localeCompare a b <= 0 -> localeCompare b c <= 0 -> localeCompare a c <= 0.

Lemma entry_compare_spec (a b : Entry) :
  entry_compare a b <= 0 <->
  byPriority (e_persona a) < byPriority (e_persona b) \/
  (byPriority (e_persona a) = byPriority (e_persona b) /\
   localeCompare (e_user_id a) (e_user_id b) <= 0).
Proof.
  unfold entry_compare.
  destruct (Z.eqb_spec (byPriority (e_persona a)) (byPriority (e_persona b))) as [E | E];
    cbn [negb]; split.
  - intro H. right. split; assumption.
  - intros [H | [_ H]]; [lia | exact H].
  - intro H. left. lia.
  - intros [H | [H _]]; [lia | contradiction].
Qed.

Lemma entry_compare_total (a b : Entry) :
  entry_compare a b <= 0 \/ entry_compare b a <= 0.
Proof using lc_total.
  rewrite !entry_compare_spec.
  destruct (Z.lt_trichotomy (byPriority (e_persona a)) (byPriority (e_persona b)))
    as [H | [H | H]]; auto.
  destruct (lc_total (e_user_id a) (e_user_id b)); [left | right]; right; auto.
Qed.

Lemma entry_compare_trans (a b c : Entry) :
  entry_compare a b <= 0 -> entry_compare b c <= 0 -> entry_compare a c <= 0.
Proof using lc_trans.
  rewrite !entry_compare_spec.
  intros [H1 | [E1 H1]] [H2 | [E2 H2]]; try (left; lia).
  right. split; [congruence | eapply lc_trans; eassumption].
Qed.

(** For a collation that is a total preorder, the feedback entries are
    in ascending order of the priority of their dominant persona, and
    of user within one priority; an entry without a dominant persona
    ranks 999, behind every persona of the catalog. *)
Theorem month_details_ordered :
  forall (cl : list Classified) (month : jstr) (minEntryChars : option Z),
    StronglySorted
      (fun a b =>
         byPriority (e_persona a) <= byPriority (e_persona b) /\
         (byPriority (e_persona a) = byPriority (e_persona b) ->
          localeCompare (e_user_id a) (e_user_id b) <= 0))
      (monthDetails cl month minEntryChars) /\
    byPriority None = 999 /\
    (forall p, In p PERSONAS ->
       byPriority (Some (key p)) = priority p /\ priority p < 999).
Proof using lc_total lc_trans.
  intros cl month min. split; [|split; [reflexivity | apply byPriority_catalog]].
  unfold monthDetails. destruct (negb (Js.truthy month)); [constructor|].
  match goal with |- StronglySorted _ (Js.sort _ ?l) =>
    pose proof (sort_sorted entry_compare entry_compare_total entry_compare_trans l) as S
  end.
  induction S as [|a l S IH F]; constructor; [exact IH|].
  eapply Forall_impl; [| exact F]. intros b H. cbv beta in H.
  apply entry_compare_spec in H as [H | [E H]]; split; lia.
Qed.

End EntryOrder.

End Views.

(* ================================================================== *)
(** * The keyword editor

    The field of a persona shows [(keywords[p.key] || []).join(", ")]
    and stores [edited_keywords] of what is typed into it. *)

Definition keyword_field (keywords : Keywords) (k : jstr) : jstr :=
  Js.join (Js.lit ", ") (kw_list keywords k).

(** A keyword as the editor stores it: not empty, trimmed, without
    comma. *)
Definition clean_keyword (kw : jstr) : Prop :=
  kw <> [] /\ Js.trim kw = kw /\ ~ In 44 kw.

Lemma split_on_cons (sep : Z) (s : jstr) :
  exists p ps, Js.split_on sep s = p :: ps.
Proof.
  induction s as [|c s (p & ps & IH)]; simpl; [eauto|].
  destruct (c =? sep); [eauto|]. rewrite IH. eauto.
Qed.

Lemma split_on_sep_app (sep : Z) (a b : jstr) :
  ~ In sep a -> Js.split_on sep (a ++ sep :: b) = a :: Js.split_on sep b.
Proof.
  induction a as [|c a IH]; intro N; simpl.
  - now rewrite Z.eqb_refl.
  - destruct (Z.eqb_spec c sep) as [-> | Ne]; [elim N; now left|].
    rewrite IH; [reflexivity|]. intro H. apply N. now right.
Qed.

Lemma split_on_single (sep : Z) (a : jstr) :
  ~ In sep a -> Js.split_on sep a = [a].
Proof.
  induction a as [|c a IH]; intro N; simpl; [reflexivity|].
  destruct (Z.eqb_spec c sep) as [-> | Ne]; [elim N; now left|].
  rewrite IH; [reflexivity|]. intro H. apply N. now right.
Qed.

Lemma split_on_parts (sep : Z) (s p : jstr) :
  In p (Js.split_on sep s) -> ~ In sep p.
Proof.
  revert p. induction s as [|c s IH]; intros p H; simpl in H.
  - destruct H as [<- | []]. intros [].
  - destruct (Z.eqb_spec c sep) as [-> | Ne].
    + destruct H as [<- | H]; [intros [] | now apply IH].
    + destruct (Js.split_on sep s) as [|q qs]; simpl in H.
      * destruct H as [<- | []]. intros [E | []]. congruence.
      * destruct H as [<- | H].
        -- intros [E | E]; [congruence|]. apply (IH q); [now left | exact E].
        -- apply IH. now right.
Qed.

Lemma split_on_trailing_sep (sep : Z) (s : jstr) :
  Js.split_on sep (s ++ [sep]) = Js.split_on sep s ++ [[]].
Proof.
  induction s as [|c s IH]; simpl.
  - now rewrite Z.eqb_refl.
  - destruct (c =? sep); [now rewrite IH|].
    rewrite IH. destruct (split_on_cons sep s) as (p & ps & ->). reflexivity.
Qed.

Lemma split_join_comma (kw : jstr) (kws : list jstr) :
  Forall (fun k => ~ In 44 k) (kw :: kws) ->
  Js.split_on 44 (Js.join (Js.lit ", ") (kw :: kws)) = kw :: map (cons 32) kws.
Proof.
  revert kw. induction kws as [|k kws IH]; intros kw F.
  - inversion F; subst. now apply split_on_single.
  - inversion F as [|? ? N F']; subst.
    change (Js.join (Js.lit ", ") (kw :: k :: kws))
      with (kw ++ 44 :: 32 :: Js.join (Js.lit ", ") (k :: kws)).
    rewrite split_on_sep_app by exact N.
    cbn [Js.split_on]. change (32 =? 44) with false. cbv iota.
    now rewrite (IH k F').
Qed.

Lemma dropWhile_In {A} (f : A -> bool) (l : list A) (x : A) :
  In x (Js.dropWhile f l) -> In x l.
Proof.
  induction l as [|y l IH]; simpl; [auto|].
  destruct (f y); [right; auto | auto].
Qed.

Lemma trim_In (s : jstr) (x : Z) : In x (Js.trim s) -> In x s.
Proof.
  unfold Js.trim, Js.trimEnd, Js.trimStart. intro H.
  apply in_rev, dropWhile_In, in_rev in H. now apply dropWhile_In in H.
Qed.

Lemma edited_keywords_join (kws : list jstr) :
  Forall clean_keyword kws ->
  edited_keywords (Js.join (Js.lit ", ") kws) = kws.
Proof.
  intro F. unfold edited_keywords. destruct kws as [|kw kws]; [reflexivity|].
  rewrite split_join_comma.
  2:{ eapply Forall_impl; [|exact F]. intros k (_ & _ & N). exact N. }
  cbn [map]. rewrite map_map.
  assert (T : forall k, Js.trim (32 :: k) = Js.trim k) by reflexivity.
  erewrite map_ext by (intro k; apply T).
  inversion F as [|? ? (N & Tk & _) F']; subst.
  rewrite Tk. cbn [filter]. destruct kw as [|c kw]; [congruence|].
  cbn [Js.truthy]. f_equal.
  clear - F'. induction F' as [|k kws (N & Tk & _) F' IH]; [reflexivity|].
  cbn [map filter]. rewrite Tk. destruct k as [|c k]; [congruence|].
  cbn [Js.truthy]. now rewrite IH.
Qed.

Lemma edited_keywords_clean (value : jstr) :
  Forall clean_keyword (edited_keywords value).
Proof.
  apply Forall_forall. intros kw H. unfold edited_keywords in H.
  apply filter_In in H as [H T]. apply in_map_iff in H as (p & <- & H).
  split; [|split].
  - intro E. rewrite E in T. discriminate T.
  - apply trim_trim.
  - intro I. apply trim_In in I. exact (split_on_parts _ _ _ H I).
Qed.

(** A list of stored keywords is shown and read back unchanged: what
    the field shows for keywords that are not empty, trimmed and free
    of commas is parsed to the same list. *)
Theorem keyword_field_roundtrip :
  forall (keywords : Keywords) (k : jstr),
    Forall clean_keyword (kw_list keywords k) ->
    edited_keywords (keyword_field keywords k) = kw_list keywords k.
Proof.
  intros keywords k F. now apply edited_keywords_join.
Qed.

(** Whatever is typed, the stored keywords are not empty, trimmed and
    free of commas, so that showing and reading them again changes
    nothing; and a comma typed at the end of the field is lost, since
    the text before and after it store the same keywords. *)
Theorem keyword_edit_normalises :
  forall value : jstr,
    let kws := edited_keywords value in
    Forall clean_keyword kws /\
    edited_keywords (Js.join (Js.lit ", ") kws) = kws /\
    edited_keywords (value ++ Js.lit ",") = kws.
Proof.
  intros value kws. split; [apply edited_keywords_clean|]. split.
  - apply edited_keywords_join, edited_keywords_clean.
  - subst kws. unfold edited_keywords.
    change (Js.lit ",") with [44].
    rewrite split_on_trailing_sep, map_app, filter_app, app_nil_r. reflexivity.
Qed.

(* ================================================================== *)
(** * The CSV export

    [downloadCSV] for rows whose values are strings: the text handed to
    the [Blob].  The header line is written as it is; only the cells
    are quoted. *)

Definition csv_cell (r : JsObj) (h : jstr) : jstr :=
  esc (Js.or_empty (obj_get r h)).

Definition csv_lines (rows : list JsObj) : list jstr :=
  let headers := Object_keys (hd [] rows) in
  Js.join (Js.lit ",") headers
  :: map (fun r => Js.join (Js.lit ",") (map (csv_cell r) headers)) rows.

Definition csv_text (rows : list JsObj) : jstr :=
  Js.join [Js.LF] (csv_lines rows).

(** The object with the given columns, in this order, and cells. *)
Definition row_object (headers : list jstr) (cells : list jstr) : JsObj :=
  combine headers (map Some cells).

(** A code unit that is none of quote, comma, semicolon, tab, line feed
    and carriage return. *)
Definition plain_unit (c : Z) : bool :=
  negb ((c =? Js.DQUOTE) || (c =? 44) || (c =? 59) || (c =? Js.TAB)
        || (c =? Js.LF) || (c =? Js.CR)).

(** A column name that the export and the parser leave alone. *)
Definition column_name (h : jstr) : Prop :=
  h <> [] /\ Js.trim h = h /\ forallb plain_unit h = true /\
  h <> PROTO /\ array_index h = None.

(** The line of a row of cells. *)
Definition csv_line (cells : list jstr) : jstr :=
  Js.join (Js.lit ",") (map esc cells).

Lemma join_cons (sep x : jstr) (l : list jstr) :
  l <> [] -> Js.join sep (x :: l) = x ++ sep ++ Js.join sep l.
Proof. destruct l; [congruence | reflexivity]. Qed.

Lemma scan_unquoted (DELIM : jstr) (c : Z) (rest : jstr) (rs : list (list jstr))
      (r : list jstr) (f : jstr) :
  scan DELIM (c :: rest) (mkScan rs r f false)
  = if c =? Js.DQUOTE then scan DELIM rest (mkScan rs r f true)
    else if Js.eqb [c] DELIM then scan DELIM rest (mkScan rs (r ++ [f]) [] false)
    else if c =? Js.LF then scan DELIM rest (mkScan (rs ++ [r ++ [f]]) [] [] false)
    else if c =? Js.CR then scan DELIM rest (mkScan rs r f false)
    else scan DELIM rest (mkScan rs r (f ++ [c]) false).
Proof. reflexivity. Qed.

Definition needs_quotes (c : Z) : bool :=
  (c =? Js.DQUOTE) || (c =? 44) || (c =? Js.LF) || (c =? Js.CR).

Lemma scan_plain (v rest : jstr) (rs : list (list jstr)) (r : list jstr) (f : jstr) :
  existsb needs_quotes v = false ->
  scan [44] (v ++ rest) (mkScan rs r f false)
  = scan [44] rest (mkScan rs r (f ++ v) false).
Proof.
  revert f. induction v as [|c v IH]; intros f H.
  - now rewrite app_nil_r.
  - cbn [existsb] in H. apply orb_false_iff in H as [Hc H].
    unfold needs_quotes in Hc.
    apply orb_false_iff in Hc as [Hc H4]. apply orb_false_iff in Hc as [Hc H3].
    apply orb_false_iff in Hc as [H1 H2].
    change ((c :: v) ++ rest) with (c :: (v ++ rest)).
    rewrite scan_unquoted. cbn [Js.eqb]. rewrite H1, H2, H3, H4. cbn [andb].
    rewrite IH by exact H. now rewrite <- app_assoc.
Qed.

Lemma scan_esc (v rest : jstr) (rs : list (list jstr)) (r : list jstr) (f : jstr) :
  hd_error rest <> Some Js.DQUOTE ->
  scan [44] (esc v ++ rest) (mkScan rs r f false)
  = scan [44] rest (mkScan rs r (f ++ v) false).
Proof.
  intro H. unfold esc. fold needs_quotes.
  change (fun c => (c =? Js.DQUOTE) || (c =? 44) || (c =? Js.LF) || (c =? Js.CR))
    with needs_quotes.
  destruct (existsb needs_quotes v) eqn:E.
  - unfold quote_field. rewrite <- !app_assoc.
    change ([Js.DQUOTE] ++ double_quotes v ++ [Js.DQUOTE] ++ rest)
      with (Js.DQUOTE :: (double_quotes v ++ Js.DQUOTE :: rest)).
    rewrite scan_unquoted. change (Js.DQUOTE =? Js.DQUOTE) with true. cbv iota.
    now apply scan_quoted_tail.
  - now apply scan_plain.
Qed.

Lemma csv_line_cons (v v' : jstr) (cs : list jstr) (rest : jstr) :
  csv_line (v :: v' :: cs) ++ rest = esc v ++ 44 :: (csv_line (v' :: cs) ++ rest).
Proof.
  unfold csv_line. cbn [map]. rewrite join_cons by discriminate.
  rewrite <- !app_assoc. reflexivity.
Qed.

Lemma csv_lines_cons (c c' : list jstr) (cs : list (list jstr)) :
  Js.join [Js.LF] (map csv_line (c :: c' :: cs))
  = csv_line c ++ Js.LF :: Js.join [Js.LF] (map csv_line (c' :: cs)).
Proof.
  cbn [map]. rewrite join_cons by discriminate. reflexivity.
Qed.

Lemma scan_line (cells : list jstr) (rest : jstr) (rs : list (list jstr))
      (r : list jstr) :
  cells <> [] -> hd_error rest <> Some Js.DQUOTE ->
  scan [44] (csv_line cells ++ rest) (mkScan rs r [] false)
  = scan [44] rest (mkScan rs (r ++ removelast cells) (last cells []) false).
Proof.
  intros N H. destruct cells as [|v cs]; [congruence|]. clear N.
  revert v r. induction cs as [|v' cs IH]; intros v r.
  - unfold csv_line. cbn [map Js.join removelast last].
    rewrite scan_esc by exact H. now rewrite app_nil_r.
  - rewrite csv_line_cons.
    rewrite scan_esc by discriminate.
    rewrite scan_unquoted. change (44 =? Js.DQUOTE) with false.
    change (Js.eqb [44] [44]) with true. cbv iota.
    rewrite IH. cbn [app]. rewrite <- app_assoc. reflexivity.
Qed.

Lemma scan_lines (c : list jstr) (cs : list (list jstr)) (rs : list (list jstr)) :
  Forall (fun x => x <> []) (c :: cs) ->
  scan [44] (Js.join [Js.LF] (map csv_line (c :: cs))) (mkScan rs [] [] false)
  = mkScan (rs ++ removelast (c :: cs))
           (removelast (last (c :: cs) []))
           (last (last (c :: cs) []) []) false.
Proof.
  revert c rs. induction cs as [|c' cs IH]; intros c rs F.
  - cbn [map Js.join removelast last].
    rewrite <- (app_nil_r (csv_line c)).
    rewrite scan_line; [| now inversion F | discriminate].
    now rewrite app_nil_r.
  - inversion F as [|? ? Nc F']; subst.
    rewrite csv_lines_cons.
    rewrite scan_line; [| exact Nc | discriminate].
    rewrite scan_unquoted. change (Js.LF =? Js.DQUOTE) with false.
    change (Js.eqb [Js.LF] [44]) with false. change (Js.LF =? Js.LF) with true.
    cbv iota. cbn [app].
    rewrite <- (@app_removelast_last jstr c [] Nc).
    rewrite IH by exact F'.
    rewrite <- app_assoc. reflexivity.
Qed.

Lemma tokenize_lines (c : list jstr) (cs : list (list jstr)) :
  Forall (fun x => x <> []) (c :: cs) ->
  last (c :: cs) [] <> [[]] ->
  tokenize [44] (Js.join [Js.LF] (map csv_line (c :: cs))) = c :: cs.
Proof.
  intros F L. unfold tokenize. rewrite scan_lines by exact F.
  assert (N : last (c :: cs) [] <> []).
  { rewrite Forall_forall in F. apply F.
    destruct (@exists_last _ (c :: cs)) as (l' & a & E); [discriminate|].
    rewrite E, last_last. apply in_or_app. right. now left. }
  unfold pushField. cbn [rows row field inQuotes app].
  rewrite <- (@app_removelast_last jstr _ [] N).
  assert (R : removelast (c :: cs) ++ [last (c :: cs) []] = c :: cs)
    by (symmetry; apply app_removelast_last; discriminate).
  destruct (last (c :: cs) []) as [|f [|g t]] eqn:E.
  - congruence.
  - destruct f as [|x f]; [exfalso; apply L; reflexivity|]. cbn [Js.truthy]. exact R.
  - exact R.
Qed.

Lemma combine_keys {A B} (ks : list A) (vs : list B) :
  List.length vs = List.length ks ->
  map fst (combine ks vs) = ks /\ map snd (combine ks vs) = vs.
Proof.
  revert vs. induction ks as [|k ks IH]; intros [|v vs] L; simpl in *;
    try discriminate; [now split|].
  injection L as L. destruct (IH vs L) as [-> ->]. now split.
Qed.

Lemma obj_entries_names (o : JsObj) :
  Forall (fun k => array_index k = None) (map fst o) -> obj_entries o = o.
Proof.
  intro F. unfold obj_entries.
  assert (I : index_props o = [] /\ name_props o = o).
  { induction o as [|[k v] o IH]; [now split|].
    inversion F as [|? ? Hk F']; subst. simpl in Hk.
    destruct (IH F') as [I1 I2]. unfold index_props, name_props in *.
    cbn [flat_map filter fst]. rewrite Hk, I1, I2. now split. }
  destruct I as [-> ->]. reflexivity.
Qed.

Lemma row_object_entries (headers cells : list jstr) :
  Forall column_name headers -> List.length cells = List.length headers ->
  Object_keys (row_object headers cells) = headers /\
  Object_values (row_object headers cells) = map Some cells.
Proof.
  intros F L. unfold Object_keys, Object_values, row_object.
  assert (L' : List.length (map Some cells) = List.length headers)
    by now rewrite length_map.
  destruct (combine_keys headers (map Some cells) L') as [K V].
  rewrite obj_entries_names; [now split|].
  rewrite K. eapply Forall_impl; [|exact F]. now intros h (_ & _ & _ & _ & H).
Qed.

Lemma row_object_get (headers cells : list jstr) :
  NoDup headers -> List.length cells = List.length headers ->
  map (fun h => Js.or_empty (obj_get (row_object headers cells) h)) headers = cells.
Proof.
  revert cells. induction headers as [|h hs IH]; intros [|c cs] N L; simpl in L;
    try discriminate; [reflexivity|].
  injection L as L. inversion N as [|? ? Nh N']; subst.
  unfold row_object. cbn [map combine obj_get]. rewrite eqb_refl. cbn [Js.or_empty].
  f_equal.
  transitivity (map (fun k => Js.or_empty (obj_get (row_object hs cs) k)) hs);
    [|now apply IH].
  apply map_ext_in.
  intros k Hk. cbn [obj_get]. replace (Js.eqb k h) with false; [reflexivity|].
  symmetry. apply eqb_neq. intros ->. contradiction.
Qed.

Lemma obj_update_fresh (k : jstr) (v : option jstr) (o : JsObj) :
  ~ In k (map fst o) -> obj_update k v o = o ++ [(k, v)].
Proof.
  induction o as [|[k' v'] o IH]; intro N; simpl; [reflexivity|].
  replace (Js.eqb k k') with false.
  - rewrite IH; [reflexivity|]. intro H. apply N. now right.
  - symmetry. apply eqb_neq. intros ->. apply N. now left.
Qed.

Lemma fill_obj_row_object (headers cells : list jstr) (o : JsObj) :
  NoDup headers -> Forall (fun h => h <> PROTO) headers ->
  List.length cells = List.length headers ->
  (forall h, In h headers -> ~ In h (map fst o)) ->
  fill_obj headers cells o = o ++ row_object headers cells.
Proof.
  revert cells o. induction headers as [|h hs IH]; intros [|c cs] o N P L D;
    simpl in L; try discriminate.
  - unfold row_object. cbn [fill_obj combine]. now rewrite app_nil_r.
  - injection L as L. inversion N as [|? ? Nh N']; subst.
    inversion P as [|? ? Ph P']; subst.
    cbn [fill_obj hd_error tl]. unfold obj_set.
    replace (Js.eqb h PROTO) with false by (symmetry; now apply eqb_neq).
    rewrite obj_update_fresh by (apply D; now left).
    rewrite IH; auto.
    + unfold row_object. cbn [map combine]. now rewrite <- app_assoc.
    + intros k Hk. rewrite map_app. intro I. apply in_app_or in I as [I | [<- | []]].
      * apply (D k); [now right | exact I].
      * contradiction.
Qed.

Lemma plain_not_quoted (h : jstr) :
  forallb plain_unit h = true -> esc h = h.
Proof.
  intro H. unfold esc.
  replace (existsb _ h) with false; [reflexivity|].
  symmetry. induction h as [|c h IH]; [reflexivity|].
  cbn [forallb] in H. apply andb_true_iff in H as [Hc H].
  cbn [existsb]. rewrite (IH H), orb_false_r.
  unfold plain_unit in Hc. apply negb_true_iff in Hc.
  repeat (apply orb_false_iff in Hc as [Hc ?]).
  repeat (apply orb_false_iff; split); assumption.
Qed.

Lemma header_line_units (hs : list jstr) (c : Z) :
  Forall column_name hs -> In c (Js.join (Js.lit ",") hs) ->
  c = 44 \/ plain_unit c = true.
Proof.
  induction 1 as [|h hs (_ & _ & P & _) F IH]; simpl; [contradiction|].
  destruct hs as [|h' hs'].
  - intro H. right. rewrite forallb_forall in P. now apply P.
  - intro H. apply in_app_or in H as [H | H].
    + right. rewrite forallb_forall in P. now apply P.
    + change (Js.lit "," ++ Js.join (Js.lit ",") (h' :: hs'))
        with (44 :: Js.join (Js.lit ",") (h' :: hs')) in H.
      destruct H as [<- | H]; [now left | now apply IH].
Qed.

Lemma first_line_plain (l rest : jstr) :
  Forall (fun c => c <> Js.LF /\ c <> Js.CR) l ->
  first_line (l ++ Js.LF :: rest) = l.
Proof.
  induction 1 as [|c l [H1 H2] F IH]; [reflexivity|].
  change ((c :: l) ++ Js.LF :: rest) with (c :: (l ++ Js.LF :: rest)).
  destruct (l ++ Js.LF :: rest) as [|c' t] eqn:E.
  - destruct l; discriminate E.
  - rewrite first_line_cons.
    destruct (Z.eqb_spec c Js.LF); [contradiction|].
    destruct (Z.eqb_spec c Js.CR); [contradiction|].
    cbn [orb andb]. now rewrite IH.
Qed.

Lemma count_unit_absent (c : Z) (l : jstr) :
  ~ In c l -> Js.count_unit c l = 0.
Proof.
  intro N. unfold Js.count_unit. rewrite filter_none; [reflexivity|].
  intros x Hx. apply Z.eqb_neq. intros ->. contradiction.
Qed.

Lemma detectDelimiter_comma (l : jstr) :
  ~ In 59 l -> ~ In Js.TAB l -> detectDelimiter l = [44].
Proof.
  intros S T. unfold detectDelimiter.
  assert (B : forall c, In c (Js.strip_bom l) -> In c l).
  { intro c. destruct l as [|x l]; [auto|]. simpl.
    destruct (x =? Js.BOM); [now right | auto]. }
  rewrite (count_unit_absent 59), (count_unit_absent Js.TAB) by (intro H; auto).
  assert (0 <= Js.count_unit 44 (Js.strip_bom l)) by (unfold Js.count_unit; lia).
  destruct (Z.gtb_spec 0 (Js.count_unit 44 (Js.strip_bom l))); [lia|].
  reflexivity.
Qed.

Lemma plain_headers (headers : list jstr) :
  Forall column_name headers ->
  map esc headers = headers /\ map Js.trim headers = headers.
Proof.
  induction 1 as [|h hs (_ & T & P & _) F [IH1 IH2]]; [now split|].
  cbn [map]. now rewrite IH1, IH2, T, (plain_not_quoted h P).
Qed.

Lemma column_name_head (h : jstr) :
  column_name h -> exists x t, h = x :: t /\ x <> Js.BOM.
Proof.
  intros (N & T & _).
  destruct (trim_ends h) as [E | (x & m & y & E & Hx & _)]; [congruence|].
  rewrite T in E.
  assert (B : x <> Js.BOM) by (intros ->; discriminate Hx).
  destruct E as [-> | (-> & _)]; eauto.
Qed.

(** Exported and parsed again, a table is unchanged: for distinct
    column names that are not empty, trimmed, free of quotes, commas,
    semicolons, tabs and line breaks, and neither [__proto__] nor an
    array index, and for rows that have one string per column, at
    least one of them not blank, [parseCSV] of the text written by
    [downloadCSV] gives back the rows, whatever the cells hold. *)
Theorem csv_export_roundtrip :
  forall (headers : list jstr) (table : list (list jstr)),
    headers <> [] -> NoDup headers -> Forall column_name headers ->
    Forall (fun cells =>
              List.length cells = List.length headers /\
              existsb (fun v => Js.truthy (Js.trim v)) cells = true) table ->
    parseCSV (csv_text (map (row_object headers) table))
    = map (row_object headers) table.
Proof.
  intros headers table Hne ND FC FT.
  destruct table as [|c0 table]; [reflexivity|].
  destruct (plain_headers headers FC) as [EH TH].
  assert (HL : csv_line headers = Js.join (Js.lit ",") headers)
    by (unfold csv_line; now rewrite EH).
  rewrite Forall_forall in FT.
  assert (T : csv_text (map (row_object headers) (c0 :: table))
              = Js.join [Js.LF] (map csv_line (headers :: c0 :: table))).
  { assert (TL : map (fun r => Js.join (Js.lit ",") (map (csv_cell r) headers))
                     (map (row_object headers) (c0 :: table))
                 = map csv_line (c0 :: table)).
    { rewrite map_map. apply map_ext_in. intros cells Hc.
      destruct (FT cells Hc) as [L _]. unfold csv_line, csv_cell. f_equal.
      transitivity (map esc (map (fun h => Js.or_empty
                                             (obj_get (row_object headers cells) h))
                                 headers)).
      - now rewrite map_map.
      - f_equal. now apply row_object_get. }
    unfold csv_text, csv_lines.
    change (hd [] (map (row_object headers) (c0 :: table)))
      with (row_object headers c0).
    destruct (FT c0 (or_introl eq_refl)) as [L0 _].
    destruct (row_object_entries headers c0 FC L0) as [-> _].
    cbv zeta. rewrite TL, <- HL. reflexivity. }
  unfold parseCSV. rewrite T. rewrite csv_lines_cons.
  set (rest := Js.join [Js.LF] (map csv_line (c0 :: table))).
  assert (U : forall c, In c (csv_line headers) -> c = 44 \/ plain_unit c = true)
    by (intros c Hc; rewrite HL in Hc; now apply (header_line_units headers)).
  assert (SB : Js.strip_bom (csv_line headers ++ Js.LF :: rest)
               = csv_line headers ++ Js.LF :: rest).
  { destruct headers as [|h hs]; [congruence|].
    inversion FC as [|? ? Ch _]; subst.
    destruct (column_name_head h Ch) as (x & t & -> & B).
    rewrite HL.
    match goal with
    | |- Js.strip_bom (?J ++ _) = _ =>
        assert (E : exists t', J = x :: t') by (destruct hs; simpl; eauto);
        destruct E as (t' & ->)
    end.
    simpl.
    destruct (Z.eqb_spec x Js.BOM); [contradiction | reflexivity]. }
  rewrite SB.
  rewrite first_line_plain.
  2:{ apply Forall_forall. intros c Hc.
      destruct (U c Hc) as [-> | P]; [split; discriminate|].
      split; intros ->; discriminate P. }
  rewrite detectDelimiter_comma.
  2:{ intro H. destruct (U _ H) as [E | P]; discriminate. }
  2:{ intro H. destruct (U _ H) as [E | P]; discriminate. }
  subst rest. rewrite <- csv_lines_cons.
  rewrite tokenize_lines.
  - unfold objects_of. cbn [hd tl]. rewrite TH.
    assert (C : (match headers with [] => true | _ => false end)
                || forallb (fun h => negb (Js.truthy h)) headers = false).
    { destruct FC as [|h hs (N & _) _]; [congruence|].
      destruct h; [congruence | reflexivity]. }
    rewrite C.
    rewrite (map_ext_in _ (row_object headers)).
    + apply filter_all. intros o Ho. apply in_map_iff in Ho as (cells & <- & Hc).
      destruct (FT cells Hc) as [L X].
      unfold nonEmpty.
      destruct (row_object_entries headers cells FC L) as [_ ->].
      apply existsb_exists in X as (v & Hv & X).
      apply existsb_exists. exists (Some v). split; [now apply in_map | exact X].
    + intros cells Hc. destruct (FT cells Hc) as [L _].
      rewrite fill_obj_row_object; auto.
      eapply Forall_impl; [|exact FC]. now intros k (_ & _ & _ & P & _).
  - constructor; [exact Hne|]. apply Forall_forall. intros cells Hc.
    destruct (FT cells Hc) as [L _]. intros ->. simpl in L.
    destruct headers; [congruence | discriminate].
  - intro E.
    assert (I : In [[]] (c0 :: table)).
    { rewrite <- E. change (last (headers :: c0 :: table) [])
        with (last (c0 :: table) []).
      destruct (@exists_last _ (c0 :: table)) as (l' & a & E'); [discriminate|].
      rewrite E', last_last. apply in_or_app. right. now left. }
    destruct (FT _ I) as [_ X]. discriminate X.
Qed.

(* ================================================================== *)
(** * Scenarios for the views, the editor and the export *)

(** On the rows with a gap, the latest month is 2025-10 and the month
    before it 2025-09, in which nobody is counted for escalation: the
    card of escalation would show one user and the dash, although the
    row of 2025-10 carries the difference from 2025-08. *)
Lemma spotlight_users_delta_witness :
  let cl := computed_classified compare_units DEFAULT_KEYWORDS GAP_ROWS in
  let outs := computed_outRows compare_units DEFAULT_KEYWORDS Dominant GAP_ROWS in
  spotlight_users (months cl) outs ESCALATION = 1 /\
  spotlight_usersDelta (months cl) outs ESCALATION = DASH /\
  option_map users_mom (find_row outs (Js.lit "2025-10") ESCALATION) = Some (Some (-1)).
Proof.
  cbv zeta.
  assert (P : In ESCALATION (map key PERSONAS)) by (simpl; auto).
  destruct (spotlight_users_delta compare_units DEFAULT_KEYWORDS Dominant GAP_ROWS
              ESCALATION P) as [H1 H2].
  split; [|split].
  - rewrite H1. vm_compute. reflexivity.
  - vm_compute in H2. exact H2.
  - vm_compute. reflexivity.
Defined.

(** The table of the rows with a gap, under the code-unit collation. *)
Lemma table_rows_ordered_witness :
  StronglySorted
    (fun a b =>
       compare_units (a_month (base b)) (a_month (base a)) <= 0 /\
       (a_month (base a) = a_month (base b) ->
        compare_units (a_persona (base a)) (a_persona (base b)) <= 0))
    (filteredRows compare_units
       (computed_outRows compare_units DEFAULT_KEYWORDS Dominant GAP_ROWS)
       [] ALL (Some 1)).
Proof.
  apply (table_rows_ordered compare_units).
  - exact compare_units_total.
  - exact compare_units_trans.
  - exact compare_units_antisym.
Defined.

(** Two users, one month. *)
Definition ONE_MONTH_ROWS : list UserMonth :=
  [ mkUserMonth (Js.lit "u1") (Js.lit "2025-08") (Js.lit "Weer kapot.") [];
    mkUserMonth (Js.lit "u2") (Js.lit "2025-08") (Js.lit "Dit voelt niet veilig.") [] ].

(** With the records of one month, the only note is the all-clear. *)
Lemma single_month_all_clear_witness :
  riskNotes
    (months (computed_classified compare_units DEFAULT_KEYWORDS ONE_MONTH_ROWS))
    (computed_outRows compare_units DEFAULT_KEYWORDS Dominant ONE_MONTH_ROWS)
    (Some 1)
  = [ALL_CLEAR].
Proof.
  apply (single_month_all_clear compare_units DEFAULT_KEYWORDS Dominant ONE_MONTH_ROWS
           (Some 1) (Js.lit "2025-08")).
  - vm_compute. reflexivity.
  - discriminate.
Defined.

(** The feedback entries of August 2025 of the rows with a gap. *)
Lemma month_details_ordered_witness :
  StronglySorted
    (fun a b =>
       byPriority (e_persona a) <= byPriority (e_persona b) /\
       (byPriority (e_persona a) = byPriority (e_persona b) ->
        compare_units (e_user_id a) (e_user_id b) <= 0))
    (monthDetails compare_units
       (computed_classified compare_units DEFAULT_KEYWORDS GAP_ROWS)
       (Js.lit "2025-08") (Some 0)).
Proof.
  apply (month_details_ordered compare_units compare_units_total compare_units_trans).
Defined.

Ltac absent_unit :=
  let H := fresh "H" in
  simpl; intro H; repeat (destruct H as [H | H]; [discriminate H|]); exact H.

Ltac clean_keyword_tac :=
  split; [discriminate | split; [reflexivity | absent_unit]].

(** The default keywords of trust erosion are shown and read back
    unchanged. *)
Lemma keyword_field_roundtrip_witness :
  edited_keywords (keyword_field DEFAULT_KEYWORDS TRUST_EROSION)
  = kw_list DEFAULT_KEYWORDS TRUST_EROSION.
Proof.
  apply keyword_field_roundtrip.
  let l := eval vm_compute in (kw_list DEFAULT_KEYWORDS TRUST_EROSION) in
  change (kw_list DEFAULT_KEYWORDS TRUST_EROSION) with l.
  repeat (apply Forall_cons; [clean_keyword_tac|]).
  apply Forall_nil.
Defined.

(** A table of three columns: a label with a comma, a cell with quotes
    and a line break, an empty cell. *)
Definition EXPORT_HEADERS : list jstr :=
  [Js.lit "month"; Js.lit "persona"; Js.lit "users_mom"].

Definition EXPORT_TABLE : list (list jstr) :=
  [ [Js.lit "2025-09"; Js.lit "Escalation, fatigue"; []];
    [Js.lit "2025-10";
     Js.lit "said " ++ [Js.DQUOTE] ++ Js.lit "again" ++ [Js.DQUOTE; Js.LF] ++ Js.lit "twice";
     Js.lit "-1"] ].

Ltac column_name_tac :=
  split; [discriminate|];
  split; [reflexivity|];
  split; [reflexivity|];
  split; [let E := fresh "E" in intro E; vm_compute in E; discriminate E | reflexivity].

Lemma csv_export_roundtrip_witness :
  parseCSV (csv_text (map (row_object EXPORT_HEADERS) EXPORT_TABLE))
  = map (row_object EXPORT_HEADERS) EXPORT_TABLE.
Proof.
  apply csv_export_roundtrip.
  - discriminate.
  - repeat (apply NoDup_cons; [absent_unit|]). apply NoDup_nil.
  - repeat (apply Forall_cons; [column_name_tac|]). apply Forall_nil.
  - repeat (apply Forall_cons; [split; reflexivity|]). apply Forall_nil.
Defined.

(* ================================================================== *)
(** * Texts of one line, and months read from a pattern *)

Lemma scan_rows_one_line (DELIM : jstr) (n : nat) :
  forall (raw : jstr) (st : Scan),
    (List.length raw <= n)%nat -> ~ In Js.LF raw ->
    rows (scan DELIM raw st) = rows st.
Proof.
  induction n as [|n IH]; intros raw st L N.
  - destruct raw; [reflexivity | simpl in L; lia].
  - destruct raw as [|c rest]; [reflexivity|].
    assert (Nc : c <> Js.LF) by (intros ->; apply N; now left).
    assert (Nr : ~ In Js.LF rest) by (intro H; apply N; now right).
    cbn [List.length] in L.
    cbn [scan]. destruct (inQuotes st).
    + destruct (c =? Js.DQUOTE).
      * destruct rest as [|c' rest'].
        -- reflexivity.
        -- destruct (c' =? Js.DQUOTE).
           ++ rewrite IH; [reflexivity | cbn [List.length] in L; lia |].
              intro H. apply Nr. now right.
           ++ rewrite IH; [reflexivity | lia | exact Nr].
      * rewrite IH; [reflexivity | lia | exact Nr].
    + destruct (c =? Js.DQUOTE); [rewrite IH; [reflexivity | lia | exact Nr]|].
      destruct (Js.eqb [c] DELIM); [rewrite IH; [reflexivity | lia | exact Nr]|].
      destruct (Z.eqb_spec c Js.LF); [contradiction|].
      destruct (c =? Js.CR); rewrite IH; try reflexivity; try lia; exact Nr.
Qed.

(** A text without line feed gives no rows: a header alone, and also a
    file whose lines end in carriage returns only, which the scanner
    skips so that everything is one header line. *)
Theorem one_line_no_rows :
  forall text : jstr, ~ In Js.LF text -> parseCSV text = [].
Proof.
  intros text N. unfold parseCSV.
  set (raw := Js.strip_bom text).
  assert (Nr : ~ In Js.LF raw).
  { subst raw. destruct text as [|x t]; [exact N|]. simpl.
    destruct (x =? Js.BOM); [|exact N]. intro H. apply N. now right. }
  set (DELIM := detectDelimiter (first_line raw)).
  unfold tokenize.
  pose proof (scan_rows_one_line DELIM (List.length raw) raw (mkScan [] [] [] false)
                (Nat.le_refl _) Nr) as R.
  cbn [rows] in R.
  destruct (scan DELIM raw (mkScan [] [] [] false)) as [rs r f q].
  cbn [rows] in R. subst rs.
  unfold pushField, pushRow. cbn [rows row field inQuotes app].
  assert (O : forall cells, objects_of [cells] = []).
  { intro cells. unfold objects_of. cbn [hd tl map filter].
    now destruct (_ || _). }
  destruct (r ++ [f]) as [|g [|g' t]]; [apply O | | apply O].
  destruct (Js.truthy g); [apply O | reflexivity].
Qed.

Lemma month_prefix_shape (t m : jstr) :
  month_prefix t = Some m ->
  exists a b c d e f,
    m = [a; b; c; d; 45; e; f] /\ forallb Js.is_digit [a; b; c; d; e; f] = true /\
    exists t', t = m ++ t'.
Proof.
  unfold month_prefix.
  destruct t as [|a [|b [|c [|d [|h [|e [|f t]]]]]]]; try discriminate.
  destruct (forallb _ _ && _) eqn:E; [|discriminate].
  intros [= <-]. apply andb_true_iff in E as [E1 E2].
  apply Z.eqb_eq in E2. subst h.
  exists a, b, c, d, e, f. split; [reflexivity|]. split; [exact E1|].
  exists t. reflexivity.
Qed.

Lemma month_match_found (t m : jstr) :
  month_match t = Some m ->
  exists pre post, t = pre ++ m ++ post /\ month_prefix (m ++ post) = Some m.
Proof.
  induction t as [|c t IH]; intro H; [discriminate H|].
  change (month_match (c :: t))
    with (match month_prefix (c :: t) with
          | Some m => Some m
          | None => month_match t
          end) in H.
  destruct (month_prefix (c :: t)) as [m'|] eqn:E.
  - injection H as <-.
    destruct (month_prefix_shape _ _ E) as (_ & _ & _ & _ & _ & _ & _ & _ & t' & Et).
    exists [], t'. rewrite <- Et. split; [reflexivity | exact E].
  - destruct (IH H) as (pre & post & -> & P). exists (c :: pre), post. now split.
Qed.

Section MonthPattern.

#[local] Set Default Proof Using "Type".

Variable dateParse : jstr -> option (Z * Z).

(** When the trimmed value holds four digits, a hyphen and two digits
    somewhere, the month is the leftmost such group, whatever stands
    around it and whatever the two digits are; the date parser is not
    consulted, and a month obtained this way is left unchanged when it
    is normalised again. *)
Theorem month_from_pattern :
  forall (s : option jstr) (m : jstr),
    month_match (Js.trim (Js.or_empty s)) = Some m ->
    monthFromDateString dateParse s = m /\
    monthFromDateString dateParse (Some m) = m /\
    (exists pre post, Js.trim (Js.or_empty s) = pre ++ m ++ post) /\
    exists a b c d e f,
      m = [a; b; c; d; 45; e; f] /\ forallb Js.is_digit [a; b; c; d; e; f] = true.
Proof.
  intros s m H.
  destruct (month_match_found _ _ H) as (pre & post & Et & P).
  destruct (month_prefix_shape _ _ P) as (a & b & c & d & e & f & Em & D & _).
  assert (F : forall v, month_match (Js.trim (Js.or_empty v)) = Some m ->
                        monthFromDateString dateParse v = m).
  { intros v Hv. unfold monthFromDateString.
    destruct (Js.trim (Js.or_empty v)) as [|x t] eqn:E; [discriminate Hv|].
    cbn [Js.truthy negb].
    destruct (month_prefix (x :: t)) as [m'|] eqn:E'.
    - assert (m' = m).
      { change (month_match (x :: t))
          with (match month_prefix (x :: t) with
                | Some m => Some m
                | None => month_match t
                end) in Hv.
        rewrite E' in Hv. congruence. }
      subst m'. destruct (Js.eqb m (x :: t)) eqn:Q.
      + apply eqb_eq in Q. now symmetry.
      + now rewrite Hv.
    - now rewrite Hv. }
  split; [now apply F|]. split.
  - apply F. subst m. cbn [Js.or_empty].
    cbn [forallb] in D.
    repeat (apply andb_true_iff in D as [? D]).
    assert (Ha : Js.is_space a = false) by now apply digit_not_space.
    assert (Hf : Js.is_space f = false) by now apply digit_not_space.
    assert (T : Js.trim [a; b; c; d; 45; e; f] = [a; b; c; d; 45; e; f]).
    { unfold Js.trim, Js.trimEnd, Js.trimStart. cbn [Js.dropWhile]. rewrite Ha.
      cbn [rev app Js.dropWhile]. rewrite Hf. reflexivity. }
    rewrite T.
    change (month_match [a; b; c; d; 45; e; f])
      with (match month_prefix [a; b; c; d; 45; e; f] with
            | Some m => Some m
            | None => month_match [b; c; d; 45; e; f]
            end).
    unfold month_prefix. cbn [forallb].
    repeat match goal with Hd : Js.is_digit _ = true |- _ => rewrite Hd; clear Hd end.
    reflexivity.
  - split; [eauto|]. exists a, b, c, d, e, f. now split.
Qed.

End MonthPattern.

(** A text of two rows whose lines end in carriage returns only. *)
Lemma one_line_no_rows_witness :
  parseCSV (Js.lit "user_id,month,text" ++ [Js.CR] ++ Js.lit "u1,2025-09,hello" ++ [Js.CR]) = [].
Proof.
  apply one_line_no_rows.
  vm_compute. absent_unit.
Defined.

(** A timestamp with a month number that no calendar has. *)
Lemma month_from_pattern_witness :
  monthFromDateString no_date (Some (Js.lit " 2025-13-01T08:30:00Z")) = Js.lit "2025-13".
Proof.
  apply (month_from_pattern no_date (Some (Js.lit " 2025-13-01T08:30:00Z")) (Js.lit "2025-13")).
  vm_compute. reflexivity.
Defined.

(* ================================================================== *)
(** * Dominant mode counts every classified user once *)

(** The record has the dominant persona [p]. *)
Definition dominant_is (p : jstr) (r : Classified) : bool :=
  match dominant_persona r with
  | Some d => Js.eqb d p
  | None => false
  end.

(** The record is of month [m] and has a dominant persona. *)
Definition classified_in (m : jstr) (r : Classified) : bool :=
  Js.eqb (c_month r) m &&
  match dominant_persona r with
  | Some _ => true
  | None => false
  end.

Definition sum_over {A} (f : A -> Z) (l : list A) : Z :=
  fold_right Z.add 0 (map f l).

Lemma sum_over_add {A} (f g : A -> Z) (l : list A) :
  sum_over (fun x => f x + g x) l = sum_over f l + sum_over g l.
Proof.
  unfold sum_over. induction l as [|x l IH]; simpl; [reflexivity|]. rewrite IH. lia.
Qed.

Lemma sum_over_zero {A} (f : A -> Z) (l : list A) :
  (forall x, f x = 0) -> sum_over f l = 0.
Proof.
  intro H. unfold sum_over. induction l as [|x l IH]; simpl; [reflexivity|].
  rewrite H, IH. reflexivity.
Qed.

Lemma one_persona (d : jstr) :
  In d (map key PERSONAS) ->
  sum_over (fun p => if Js.eqb d (key p) then 1 else 0) PERSONAS = 1.
Proof.
  intro H. apply persona_key_cases in H.
  destruct H as [-> | [-> | [-> | [-> | [-> | [-> | ->]]]]]]; reflexivity.
Qed.

Section DominantCounts.

#[local] Set Default Proof Using "Type".

Variable localeCompare : jstr -> jstr -> Z.

Lemma dominant_in_catalog (keywords : Keywords) (rows : list UserMonth)
      (r : Classified) (d : jstr) :
  In r (computed_classified localeCompare keywords rows) ->
  dominant_persona r = Some d -> In d (map key PERSONAS).
Proof.
  intros H D. apply classified_source in H as (x & _ & ->).
  destruct (classify_row_fields keywords
              (presence (userMonthRows localeCompare rows)) x)
    as (_ & _ & _ & D' & _).
  rewrite D' in D. eapply dominant_is_persona; eassumption.
Qed.

Lemma dominant_bucket_size (keywords : Keywords) (rows : list UserMonth) (m p : jstr) :
  let cl := computed_classified localeCompare keywords rows in
  In p (map key PERSONAS) ->
  Js.set_size (bucket_users (aggregate Dominant cl) m p)
  = Z.of_nat (List.length
                (filter (fun r => Js.eqb (c_month r) m && dominant_is p r) cl)).
Proof.
  intros cl Hp. unfold Js.set_size. f_equal.
  rewrite <- (length_map c_user_id). apply Permutation_length.
  apply NoDup_Permutation.
  - unfold bucket_users.
    destruct (Js.map_get (aggregate Dominant cl) (keyFor m p)) as [b|] eqn:E;
      [|constructor].
    apply map_get_In in E.
    now destruct (agg_entry localeCompare keywords rows Dominant _ _ E)
      as (_ & _ & _ & _ & _ & N & _).
  - apply (NoDup_map_filter (fun c => um_key (c_user_id c) (c_month c))).
    + apply classified_keys_NoDup.
    + intros x y _ _ Px Py E.
      apply andb_true_iff in Px as [Px _]. apply andb_true_iff in Py as [Py _].
      apply eqb_eq in Px, Py. now rewrite E, Px, Py.
  - intro u.
    pose proof (bucket_users_spec localeCompare keywords rows Dominant m p u Hp) as BS.
    cbv zeta in BS. fold cl in BS. rewrite BS, in_map_iff. split.
    + intros (r & Hr & U & M & C). exists r. split; [exact U|].
      apply filter_In. split; [exact Hr|].
      apply andb_true_iff. split; [now apply eqb_eq|].
      unfold personasToCount in C. unfold dominant_is.
      destruct (dominant_persona r) as [d|]; [|contradiction].
      destruct (Js.truthy d); [|contradiction].
      destruct C as [<- | []]. apply eqb_refl.
    + intros (r & U & Hr). apply filter_In in Hr as [Hr P].
      apply andb_true_iff in P as [M D]. apply eqb_eq in M.
      exists r. repeat split; auto.
      unfold dominant_is in D. unfold personasToCount.
      destruct (dominant_persona r) as [d|]; [|discriminate].
      apply eqb_eq in D. subst d.
      rewrite (persona_key_truthy p Hp). now left.
Qed.

(** In dominant mode the buckets of a month partition its classified
    users: the user counts of the seven personas add up to the number
    of user-month records of that month that have a dominant persona,
    each bucket holding the records whose dominant persona it is. *)
Theorem dominant_counts_partition :
  forall (keywords : Keywords) (rows : list UserMonth) (m : jstr),
    let cl := computed_classified localeCompare keywords rows in
    let agg := aggregate Dominant cl in
    Forall (fun p =>
              Js.set_size (bucket_users agg m (key p))
              = Z.of_nat (List.length
                            (filter (fun r => Js.eqb (c_month r) m && dominant_is (key p) r)
                                    cl)))
           PERSONAS /\
    sum_over (fun p => Js.set_size (bucket_users agg m (key p))) PERSONAS
    = Z.of_nat (List.length (filter (classified_in m) cl)).
Proof.
  intros keywords rows m cl agg.
  assert (B : forall p, In p PERSONAS ->
                Js.set_size (bucket_users agg m (key p))
                = Z.of_nat (List.length
                              (filter (fun r => Js.eqb (c_month r) m
                                                && dominant_is (key p) r) cl))).
  { intros p Hp. apply dominant_bucket_size. now apply in_map. }
  split; [now apply Forall_forall|].
  transitivity
    (sum_over (fun p => Z.of_nat (List.length
                 (filter (fun r => Js.eqb (c_month r) m && dominant_is (key p) r) cl)))
              PERSONAS).
  { unfold sum_over. f_equal. apply map_ext_in. exact B. }
  assert (D : forall r d, In r cl -> dominant_persona r = Some d ->
                          In d (map key PERSONAS))
    by (intros r d; apply dominant_in_catalog).
  clearbody cl. clear B agg.
  induction cl as [|r cl IH].
  - reflexivity.
  - assert (IH' := IH (fun x d Hx => D x d (or_intror Hx))). clear IH.
    assert (S : forall p : Persona,
               Z.of_nat (List.length
                 (filter (fun r => Js.eqb (c_month r) m && dominant_is (key p) r)
                         (r :: cl)))
               = (if Js.eqb (c_month r) m && dominant_is (key p) r then 1 else 0)
                 + Z.of_nat (List.length
                     (filter (fun r => Js.eqb (c_month r) m && dominant_is (key p) r)
                             cl))).
    { intro p. cbn [filter].
      destruct (Js.eqb (c_month r) m && dominant_is (key p) r);
        cbn [List.length]; lia. }
    unfold sum_over in *. erewrite map_ext by (intro p; apply S).
    fold (sum_over (fun p =>
            (if Js.eqb (c_month r) m && dominant_is (key p) r then 1 else 0)
            + Z.of_nat (List.length
                (filter (fun r => Js.eqb (c_month r) m && dominant_is (key p) r) cl)))
            PERSONAS).
    rewrite sum_over_add. unfold sum_over at 2. rewrite IH'.
    cbn [filter]. unfold classified_in at 2, dominant_is.
    destruct (Js.eqb (c_month r) m); cbn [andb].
    + destruct (dominant_persona r) as [d|] eqn:E.
      * rewrite (one_persona d (D r d (or_introl eq_refl) E)).
        cbn [List.length]. lia.
      * rewrite sum_over_zero by reflexivity. reflexivity.
    + rewrite sum_over_zero by reflexivity. reflexivity.
Qed.

End DominantCounts.

(* ================================================================== *)
(** * A month without data of its successor *)

Section OpenMonth.

#[local] Set Default Proof Using "Type".

Variable dateParse : jstr -> option (Z * Z).
Variable localeCompare : jstr -> jstr -> Z.

(** When no record is of the calendar successor of a month and no
    record of the month carries an explicit [active_next_month], every
    user of the month counts as churned: each aggregate of the month
    has no retained user and a retention of zero.  This is the case of
    the latest month of any data set without explicit flags. *)
Theorem month_without_successor_all_churned :
  forall (keywords : Keywords) (mode : Mode) (rawRows : list JsObj) (y m : Z),
    let rows := normalized_rows dateParse rawRows in
    let umr := userMonthRows localeCompare rows in
    let agg := aggregate mode (computed_classified localeCompare keywords rows) in
    1000 <= y <= 9999 -> 1 <= m <= 12 ->
    Forall (fun x => month x = year_month y m -> active_next_month x = []) umr ->
    Forall (fun x => month x <> successor y m) umr ->
    Forall (fun a =>
              a_month a = year_month y m ->
              a_retained a = 0 /\ a_churned a = a_users a /\ (a_retention a == 0)%Q)
           (agg_rows agg).
Proof.
  intros keywords mode rawRows y m rows umr agg Hy Hm HE HS.
  rewrite Forall_forall in HE, HS.
  pose proof (normalized_rows_month dateParse rawRows) as F. fold rows in F.
  rewrite Forall_forall in F.
  assert (U : forall r', In r' umr -> Forall month_unit (month r')).
  { intros r' H. unfold umr, userMonthRows in H. apply sort_In in H.
    destruct (merged_record _ _ H) as ((r0 & H0 & _ & ->) & _). now apply F. }
  apply Forall_forall. intros a Ha Em.
  unfold agg_rows, Js.map_values in Ha.
  apply in_map_iff in Ha as (b & <- & Hb).
  apply in_map_iff in Hb as ([k b'] & E & Hb). simpl in E. subst b'.
  destruct (agg_entry localeCompare keywords rows mode k b Hb)
    as (_ & _ & _ & Hr & _).
  destruct (agg_entry_sizes localeCompare keywords rows mode k b Hb) as (S & P).
  cbn [agg_row a_month] in Em.
  assert (R : retainedUsers b = []).
  { destruct (retainedUsers b) as [|u us]; [reflexivity|]. exfalso.
    destruct (proj1 (Hr u) (or_introl eq_refl)) as (r & Hc & _ & Mr & _ & A).
    apply classified_source in Hc as (x & Hx & ->).
    assert (Ix : In x umr) by (unfold umr, userMonthRows; now apply sort_In).
    destruct (classify_row_fields keywords (presence umr) x)
      as (_ & Mx & _ & _ & _ & Ax).
    fold umr in A, Mr. rewrite Ax in A. rewrite Mx, Em in Mr.
    unfold resolve_active in A. rewrite (HE x Ix Mr) in A. cbn [Js.eqb negb] in A.
    rewrite Mr, nextMonth_year_month in A by lia.
    apply presence_has in A as (r' & Hr' & K).
    apply um_key_inj in K as [_ K].
    - exact (HS r' Hr' K).
    - apply month_unit_not_95. now apply U.
    - apply month_unit_not_95. unfold successor.
      destruct (m =? 12); apply year_month_units. }
  cbn [agg_row a_retained a_churned a_users a_retention].
  rewrite R in *. change (Js.set_size []) with 0 in *.
  split; [reflexivity|]. split; [lia|].
  destruct (Js.set_size (users b) =? 0); [reflexivity|].
  unfold Qdiv. rewrite Qmult_0_l. reflexivity.
Qed.

End OpenMonth.

(** One user who repeats a complaint in December 2025 and January
    2026, without explicit flags. *)
Definition REPEATED_COMPLAINT : jstr :=
  Js.lit "user_id,text,month" ++ [Js.LF]
  ++ Js.lit "u1,Weer kapot.,2025-12" ++ [Js.LF]
  ++ Js.lit "u1,Nog steeds kapot.,2026-01".

(** January 2026 is the latest month of the data: its escalation
    aggregate has no retained user. *)
Lemma month_without_successor_all_churned_witness :
  let aggs :=
    agg_rows (aggregate Dominant
                (computed_classified compare_units DEFAULT_KEYWORDS
                   (normalized_rows no_date (parseCSV REPEATED_COMPLAINT)))) in
  map (fun a => (a_month a, a_persona a, a_users a)) aggs
    = [(Js.lit "2025-12", ESCALATION, 1); (Js.lit "2026-01", ESCALATION, 1)] /\
  Forall (fun a =>
            a_month a = year_month 2026 1 ->
            a_retained a = 0 /\ a_churned a = a_users a /\ (a_retention a == 0)%Q)
         aggs.
Proof.
  split; [vm_compute; reflexivity|].
  apply (month_without_successor_all_churned no_date compare_units DEFAULT_KEYWORDS
           Dominant (parseCSV REPEATED_COMPLAINT) 2026 1).
  - lia.
  - lia.
  - vm_compute. repeat (apply Forall_cons; [intros _; reflexivity|]). apply Forall_nil.
  - vm_compute.
    repeat (apply Forall_cons; [let E := fresh "E" in intro E; discriminate E|]).
    apply Forall_nil.
Defined.
